(** * Discretization.cpp: quantile cut points and value discretization

    A shallow embedding of [shared/ebm_native/Discretization.cpp], the
    properties of it that the specification states (C1 to C10), and further
    properties of the code (X1 to X20).

    Conventions of the embedding.
    - [IntEbmType] (a signed 64-bit integer) and [size_t] (taken to be the
      unsigned 64-bit integer of the usual 64-bit targets) are [Z]; where the
      source arithmetic can wrap, the wrap-around is written out.
    - [FloatEbmType] is an IEEE 754 binary64 number, given by the standard
      library's [spec_float] at precision 53 and maximal exponent 1024.
    - A C array is a [list]; a pointer into it is the [nat] index of the
      element it points to.  A read or write outside the array is undefined
      behaviour in the source and [None] here.
    - Output parameters ([countCutPoints], [isMissing], [minValue],
      [maxValue]) are a record that is threaded through the call: a field that
      the call does not assign keeps the content the caller had there. *)

From Stdlib Require Import ZArith Lia SpecFloat.
From stdpp Require Import base option list sorting.

Local Open Scope Z_scope.

(** ** Machine integers *)

Definition size_t_bits : Z := 64.
Definition SIZE_MAX : Z := 2 ^ size_t_bits - 1.
Definition INT64_MIN : Z := - 2 ^ 63.
Definition INT64_MAX : Z := 2 ^ 63 - 1.

(** [static_cast<size_t>] of an integer: reduction modulo [2 ^ 64]. *)
Definition to_size_t (z : Z) : Z := z mod 2 ^ size_t_bits.

Definition is_IntEbmType (z : Z) : Prop := INT64_MIN <= z <= INT64_MAX.

(** Modelled from the spec: [EBM_FALSE] and [EBM_TRUE] are declared in
    [ebm_native.h], which is not part of the sources at hand; they are the
    integers 0 and 1 of the C interface. *)
Definition EBM_FALSE : Z := 0.
Definition EBM_TRUE : Z := 1.

(** Modelled from the spec: [IsNumberConvertable<size_t, IntEbmType>] is
    declared in [EbmInternal.h], which is not part of the sources at hand.  It
    tells whether a count "fits the platform's addressable size type": the
    value is not negative and not above [SIZE_MAX]. *)
Definition IsNumberConvertable_size_t (z : Z) : bool :=
  (0 <=? z) && (z <=? SIZE_MAX).

(** Modelled from the spec: [IsMultiplyError] is declared in [EbmInternal.h],
    which is not part of the sources at hand.  It reports the "multiplication
    overflow during scratch-table sizing": the product of the two [size_t]
    operands does not fit [size_t]. *)
Definition IsMultiplyError (a b : Z) : bool := SIZE_MAX <? a * b.

(** ** Floating-point numbers *)

Definition prec : Z := 53.
Definition emax : Z := 1024.

Definition FloatEbmType : Type := spec_float.

Definition Float_zero : FloatEbmType := S754_zero false.

(** [std::isnan] *)
Definition isnan (f : FloatEbmType) : bool :=
  match f with S754_nan => true | _ => false end.

(** The comparisons [<], [<=] and [!=] of the language on binary64. *)
Definition Float_lt (a b : FloatEbmType) : bool := SFltb a b.
Definition Float_le (a b : FloatEbmType) : bool := SFleb a b.
Definition Float_ne (a b : FloatEbmType) : bool := negb (SFeqb a b).

(** [static_cast<FloatEbmType>] of a [size_t]: round to nearest, ties to
    even. *)
Definition Float_of_size_t (z : Z) : FloatEbmType :=
  binary_normalize prec emax z 0 false.

Definition Float_div (a b : FloatEbmType) : FloatEbmType := SFdiv prec emax a b.

(** [std::ceil]: the least integral value not below the argument.  The result
    of rounding a non-integral binary64 number up has at most 53 significant
    bits, so the conversion back is exact. *)
Definition Float_ceil (f : FloatEbmType) : FloatEbmType :=
  match f with
  | S754_finite s m e =>
      if 0 <=? e then f
      else
        let q := Z.pos m / 2 ^ (- e) in
        let r := Z.pos m mod 2 ^ (- e) in
        if s then
          (if q =? 0 then S754_zero true else binary_normalize prec emax (- q) 0 true)
        else binary_normalize prec emax (if r =? 0 then q else q + 1) 0 false
  | _ => f
  end.

(** [static_cast<size_t>] of a binary64 number: truncation toward zero; the
    behaviour is undefined when the truncated value is not a [size_t]. *)
Definition Float_to_size_t (f : FloatEbmType) : option Z :=
  match f with
  | S754_zero _ => Some 0
  | S754_finite s m e =>
      let z := if 0 <=? e then Z.pos m * 2 ^ e else Z.pos m / 2 ^ (- e) in
      if s then (if z =? 0 then Some 0 else None)
      else if z <=? SIZE_MAX then Some z else None
  | _ => None
  end.

(** ** Arrays *)

(** [a[i] = x] on an array held as a list; out of range is undefined. *)
Definition store {A} (a : list A) (i : nat) (x : A) : option (list A) :=
  if decide (i < length a)%nat then Some (<[i:=x]> a) else None.

(** ** The missing-value filter *)

(** The inner [do ... while] of [RemoveMissingValues], entered at the label
    [skip_val]: advance [pCopyFrom], leave when it reaches the end, otherwise
    copy the value down when it is a number.  [fuel] bounds the number of
    iterations. *)
Fixpoint RemoveMissingValues_skip_val (fuel : nat) (aValues : list FloatEbmType)
    (pCopyFrom pCopyTo pCopyFromEnd : nat) : option (list FloatEbmType * nat) :=
  match fuel with
  | O => None
  | S fuel' =>
      let pCopyFrom := S pCopyFrom in
      if decide (pCopyFromEnd = pCopyFrom) then Some (aValues, pCopyTo)
      else
        val ← aValues !! pCopyFrom;
        if isnan val then
          RemoveMissingValues_skip_val fuel' aValues pCopyFrom pCopyTo pCopyFromEnd
        else
          aValues' ← store aValues pCopyTo val;
          RemoveMissingValues_skip_val fuel' aValues' pCopyFrom (S pCopyTo) pCopyFromEnd
  end.

(** The outer [do ... while]: look for the first NaN; when there is one, the
    copy loop takes over from there and the outer loop is left by [break]. *)
Fixpoint RemoveMissingValues_scan (fuel : nat) (aValues : list FloatEbmType)
    (pCopyFrom pValuesEnd : nat) : option (list FloatEbmType * nat) :=
  match fuel with
  | O => None
  | S fuel' =>
      val ← aValues !! pCopyFrom;
      if isnan val then
        RemoveMissingValues_skip_val (S (pValuesEnd - pCopyFrom)) aValues pCopyFrom pCopyFrom pValuesEnd
      else
        let pCopyFrom := S pCopyFrom in
        if decide (pValuesEnd = pCopyFrom) then Some (aValues, pValuesEnd)
        else RemoveMissingValues_scan fuel' aValues pCopyFrom pValuesEnd
  end.

(** [RemoveMissingValues(aValues, pValuesEnd)]: the buffer afterwards and the
    returned pointer [pCopyTo], the end of the values that are numbers. *)
Definition RemoveMissingValues (aValues : list FloatEbmType) (pValuesEnd : nat)
    : option (list FloatEbmType * nat) :=
  RemoveMissingValues_scan (S pValuesEnd) aValues 0%nat pValuesEnd.


(** ** [std::sort] *)

(** [std::sort] with the comparison [comp] ("less than"), given as the
    insertion sort: every element is put in front of the first element of the
    already sorted rest that is not less than it.  The result is a sorted
    permutation of the array.  [std::sort] leaves open the order of two
    elements of which neither is less than the other, and the insertion sort
    keeps them in the order they have in the array.  Such elements are -0.0
    and +0.0 among the numbers, which [<] does not order, and pointers to
    records with the same keys and the same start among the pointers.  On
    values with both zeros the source may thus leave the two zeros in the
    other order, and an extreme value that is read from the sorted values is
    then the other zero.  Where [comp], a strict weak ordering, orders any
    two different elements of the array, the sorted permutation is the only
    one ([std_sort_unique] below), and every sorting algorithm gives it. *)
Fixpoint std_sort_insert {A} (comp : A → A → bool) (x : A) (l : list A) : list A :=
  match l with
  | [] => [x]
  | y :: l' => if comp y x then y :: std_sort_insert comp x l' else x :: l
  end.

Definition std_sort {A} (comp : A → A → bool) (l : list A) : list A :=
  foldr (std_sort_insert comp) [] l.

(** [std::sort(a, a + n)] on the first [n] elements of an array. *)
Definition std_sort_range {A} (comp : A → A → bool) (a : list A) (n : nat) : list A :=
  std_sort comp (take n a) ++ drop n a.

(** ** Splitting ranges *)

Definition k_MiddleSplittingRange : Z := 0.
Definition k_FirstSplittingRange : Z := 1.
Definition k_LastSplittingRange : Z := 2.

Record SplittingRange : Type := {
  m_pSplittableValuesStart : nat;
  m_cSplittableItems : Z;
  m_cUnsplittablePriorItems : Z;
  m_cUnsplittableSubsequentItems : Z;
  m_cUnsplittableEitherSideMax : Z;
  m_cUnsplittableEitherSideMin : Z;
  m_cSplitsAssigned : Z;
  m_flags : Z
}.

(** The content of a record that has been allocated and not yet assigned. *)
Definition SplittingRange_unassigned : SplittingRange :=
  {| m_pSplittableValuesStart := 0%nat; m_cSplittableItems := 0;
     m_cUnsplittablePriorItems := 0; m_cUnsplittableSubsequentItems := 0;
     m_cUnsplittableEitherSideMax := 0; m_cUnsplittableEitherSideMin := 0;
     m_cSplitsAssigned := 0; m_flags := 0 |}.

Global Instance SplittingRange_inhabited : Inhabited SplittingRange :=
  populate SplittingRange_unassigned.

(** A [SplittingRange *] is the index of the record in the table
    [aSplittingRange]; the functions below are handed pointers to records of
    the table, and [p->field] reads the record at that index. *)
Definition deref (aSplittingRange : list SplittingRange) (p : nat) : SplittingRange :=
  aSplittingRange !!! p.

(** ** The fair randomized orderings *)

Section FairOrder.
(** Modelled from the spec: the class [RandomStream] is declared in
    [RandomStream.h], which is not part of the sources at hand.  It is taken
    as the capability "next integer in [0, bound)": a state and a function
    [Next] that draws an index and gives the state afterwards. *)
Context {RandomStream : Type}.
Variable Next : RandomStream → nat → nat * RandomStream.

(** The primary sort key of the record a pointer points to, compared with
    [!=] by the shuffling loops. *)
Context {K : Type} `{EqDecision K}.
Variable key : nat → K.

(** [while(1 != cRemainingItems)]: swap the element at [iStartEqualLengthRange]
    with one drawn among the [cRemainingItems] elements from there on, then
    step.  Gives the stream, the array and [iStartEqualLengthRange]
    afterwards.  With [cRemainingItems = 0], which the assertion in front of
    the loop excludes, the counter would wrap around. *)
Fixpoint ShuffleEqualRange (cRemainingItems : nat) (rs : RandomStream)
    (apSplittingRange : list nat) (iStartEqualLengthRange : nat)
    : option (RandomStream * list nat * nat) :=
  match cRemainingItems with
  | O => None
  | S c' =>
      match c' with
      | O => Some (rs, apSplittingRange, iStartEqualLengthRange)
      | S _ =>
          let '(iSwap, rs) := Next rs cRemainingItems in
          pTmp ← apSplittingRange !! iStartEqualLengthRange;
          pSwap ← apSplittingRange !! (iStartEqualLengthRange + iSwap)%nat;
          ap ← store apSplittingRange iStartEqualLengthRange pSwap;
          ap ← store ap (iStartEqualLengthRange + iSwap)%nat pTmp;
          ShuffleEqualRange c' rs ap (S iStartEqualLengthRange)
      end
  end.

(** [for(size_t i = 1; i < cSplittingRanges; ++i)]: when the key changes at
    [i], the elements from [iStartEqualLengthRange] up to [i] are a block of
    equal keys, which is shuffled. *)
Fixpoint ShuffleRanges_for (fuel : nat) (cSplittingRanges i : nat) (rs : RandomStream)
    (apSplittingRange : list nat) (iStartEqualLengthRange : nat) (cItems : K)
    : option (RandomStream * list nat * nat) :=
  if decide (i < cSplittingRanges)%nat then
    match fuel with
    | O => None
    | S fuel' =>
        p ← apSplittingRange !! i;
        let cNewItems := key p in
        if decide (cItems ≠ cNewItems) then
          '(rs, ap, _) ← ShuffleEqualRange (i - iStartEqualLengthRange) rs
                            apSplittingRange iStartEqualLengthRange;
          ShuffleRanges_for fuel' cSplittingRanges (S i) rs ap i cNewItems
        else
          ShuffleRanges_for fuel' cSplittingRanges (S i) rs apSplittingRange
            iStartEqualLengthRange cItems
    end
  else Some (rs, apSplittingRange, iStartEqualLengthRange).

(** The part of the body of the two sorting functions behind [std::sort]:
    the key of the first element is read, the loop shuffles every block of
    equal keys at the end of which the key changes, and the loop behind it
    shuffles the last block. *)
Definition ShuffleRanges (rs : RandomStream) (cSplittingRanges : nat)
    (apSplittingRange : list nat) : option (RandomStream * list nat) :=
  p0 ← apSplittingRange !! 0%nat;
  '(rs, ap, iStartEqualLengthRange) ←
    ShuffleRanges_for cSplittingRanges cSplittingRanges 1%nat rs apSplittingRange
      0%nat (key p0);
  '(rs, ap, _) ←
    ShuffleEqualRange (cSplittingRanges - iStartEqualLengthRange) rs ap iStartEqualLengthRange;
  Some (rs, ap).

(** The body that the two sorting functions share: [std::sort] with the
    comparison [less], then the shuffle. *)
Definition SortSplittingRanges (less : nat → nat → bool) (rs : RandomStream)
    (cSplittingRanges : nat) (apSplittingRange : list nat)
    : option (RandomStream * list nat) :=
  ShuffleRanges rs cSplittingRanges (std_sort_range less apSplittingRange cSplittingRanges).
End FairOrder.

Section SortSplittingRanges.
Context {RandomStream : Type}.
Variable Next : RandomStream → nat → nat * RandomStream.
Variable aSplittingRange : list SplittingRange.

(** The comparison that [SortSplittingRangesByCountItemsAscending] hands to
    [std::sort]. *)
Definition CountItemsAscending_less (pSplittingRange1 pSplittingRange2 : nat) : bool :=
  let r1 := deref aSplittingRange pSplittingRange1 in
  let r2 := deref aSplittingRange pSplittingRange2 in
  if m_cSplittableItems r1 =? m_cSplittableItems r2 then
    Nat.ltb (m_pSplittableValuesStart r1) (m_pSplittableValuesStart r2)
  else m_cSplittableItems r1 <? m_cSplittableItems r2.

Definition CountItems_key (p : nat) : Z :=
  m_cSplittableItems (deref aSplittingRange p).

Definition SortSplittingRangesByCountItemsAscending (rs : RandomStream)
    (cSplittingRanges : nat) (apSplittingRange : list nat)
    : option (RandomStream * list nat) :=
  SortSplittingRanges Next CountItems_key CountItemsAscending_less rs
    cSplittingRanges apSplittingRange.

(** The comparison that [SortSplittingRangesByUnsplittableDescending] hands
    to [std::sort]. *)
Definition UnsplittableDescending_less (pSplittingRange1 pSplittingRange2 : nat) : bool :=
  let r1 := deref aSplittingRange pSplittingRange1 in
  let r2 := deref aSplittingRange pSplittingRange2 in
  if m_cUnsplittableEitherSideMax r1 =? m_cUnsplittableEitherSideMax r2 then
    if m_cUnsplittableEitherSideMin r1 =? m_cUnsplittableEitherSideMin r2 then
      Nat.ltb (m_pSplittableValuesStart r2) (m_pSplittableValuesStart r1)
    else m_cUnsplittableEitherSideMin r2 <? m_cUnsplittableEitherSideMin r1
  else m_cUnsplittableEitherSideMax r2 <? m_cUnsplittableEitherSideMax r1.

Definition Unsplittable_key (p : nat) : Z * Z :=
  (m_cUnsplittableEitherSideMax (deref aSplittingRange p),
   m_cUnsplittableEitherSideMin (deref aSplittingRange p)).

Definition SortSplittingRangesByUnsplittableDescending (rs : RandomStream)
    (cSplittingRanges : nat) (apSplittingRange : list nat)
    : option (RandomStream * list nat) :=
  SortSplittingRanges Next Unsplittable_key UnsplittableDescending_less rs
    cSplittingRanges apSplittingRange.
End SortSplittingRanges.

(** ** The effective maximum bin count *)

(** The [do ... while(0x8 != cBits)] of [GetCountBinsMax]. *)
Fixpoint GetCountBinsMax_loop (fuel : nat) (cBits cMaximumBins : Z) : option Z :=
  match fuel with
  | O => None
  | S fuel' =>
      if cBits =? cMaximumBins then Some (to_size_t (cMaximumBins - 1))
      else
        let cBits := Z.shiftr cBits 1 in
        if 8 =? cBits then Some cMaximumBins
        else GetCountBinsMax_loop fuel' cBits cMaximumBins
  end.

Definition GetCountBinsMax (bMissing : bool) (countMaximumBins : Z) : option Z :=
  let cMaximumBins := to_size_t countMaximumBins in
  if bMissing then
    let cBits := to_size_t (Z.shiftr (to_size_t (Z.lnot 0)) 1 + 1) in
    GetCountBinsMax_loop (Z.to_nat size_t_bits) cBits cMaximumBins
  else Some cMaximumBins.

(** ** The average length *)

(** [while(static_cast<FloatEbmType>(avgLength) < avgLengthFloat) ++avgLength]. *)
Fixpoint GetAvgLength_loop (fuel : nat) (avgLength : Z) (avgLengthFloat : FloatEbmType)
    : option Z :=
  if Float_lt (Float_of_size_t avgLength) avgLengthFloat then
    match fuel with
    | O => None
    | S fuel' => GetAvgLength_loop fuel' (to_size_t (avgLength + 1)) avgLengthFloat
    end
  else Some avgLength.

(** Two neighbouring binary64 numbers below [2 ^ 64] are at most [2 ^ 11]
    apart, which bounds the iterations of the loop. *)
Definition GetAvgLength_fuel : nat := 2048.

Definition GetAvgLength (cInstances cMaximumBins cMinimumInstancesPerBin : Z) : option Z :=
  let avgLengthFloat :=
    Float_ceil (Float_div (Float_of_size_t cInstances) (Float_of_size_t cMaximumBins)) in
  avgLength ← Float_to_size_t avgLengthFloat;
  avgLength ← GetAvgLength_loop GetAvgLength_fuel avgLength avgLengthFloat;
  Some (if avgLength <? cMinimumInstancesPerBin then cMinimumInstancesPerBin else avgLength).

(** ** The range segmenter *)

(** The difference of two pointers into the same array, as a [size_t]. *)
Definition ptr_diff (p q : nat) : Z := to_size_t (Z.of_nat p - Z.of_nat q).

(** The variables of the scan over the sorted values. *)
Record ScanState : Type := {
  rangeValue : FloatEbmType;
  pSplittableValuesStart : nat;
  pStartEqualRange : nat;
  pScan : nat;
  cSplittingRanges : Z
}.

(** The first [while(pValuesEnd != pScan)] of [GenerateQuantileCutPoints],
    which counts the splitting ranges.  [singleFeatureValues] is the index 0. *)
Fixpoint CountSplittingRanges (fuel : nat) (singleFeatureValues : list FloatEbmType)
    (pValuesEnd : nat) (avgLength cMinimumInstancesPerBin : Z) (st : ScanState)
    : option ScanState :=
  if decide (pValuesEnd = pScan st) then Some st
  else
    match fuel with
    | O => None
    | S fuel' =>
        val ← singleFeatureValues !! pScan st;
        let st' :=
          if Float_ne val (rangeValue st) then
            let cEqualRangeItems := ptr_diff (pScan st) (pStartEqualRange st) in
            if avgLength <=? cEqualRangeItems then
              let c :=
                if negb (Nat.eqb 0 (pSplittableValuesStart st))
                   || (cMinimumInstancesPerBin
                         <=? ptr_diff (pStartEqualRange st) (pSplittableValuesStart st))
                then to_size_t (cSplittingRanges st + 1) else cSplittingRanges st in
              {| rangeValue := val; pSplittableValuesStart := pScan st;
                 pStartEqualRange := pScan st; pScan := S (pScan st);
                 cSplittingRanges := c |}
            else
              {| rangeValue := val; pSplittableValuesStart := pSplittableValuesStart st;
                 pStartEqualRange := pScan st; pScan := S (pScan st);
                 cSplittingRanges := cSplittingRanges st |}
          else
            {| rangeValue := rangeValue st; pSplittableValuesStart := pSplittableValuesStart st;
               pStartEqualRange := pStartEqualRange st; pScan := S (pScan st);
               cSplittingRanges := cSplittingRanges st |} in
        CountSplittingRanges fuel' singleFeatureValues pValuesEnd avgLength
          cMinimumInstancesPerBin st'
    end.

(** [while(pCheckForSplitPoint <= pCheckForSplitPointLast)]: [true] when the
    loop is left by [goto continue_working], [false] when it runs to its end. *)
Fixpoint CheckForSplitPoint (fuel : nat) (singleFeatureValues : list FloatEbmType)
    (checkValue : FloatEbmType) (pCheckForSplitPoint pCheckForSplitPointLast : nat)
    : option bool :=
  if decide (pCheckForSplitPoint ≤ pCheckForSplitPointLast)%nat then
    match fuel with
    | O => None
    | S fuel' =>
        val ← singleFeatureValues !! pCheckForSplitPoint;
        if Float_ne checkValue val then Some true
        else CheckForSplitPoint fuel' singleFeatureValues checkValue
               (S pCheckForSplitPoint) pCheckForSplitPointLast
    end
  else Some false.

(** ** The splitting-range table *)

(** The variables of the second scan, with the two arrays of the table. *)
Record TableState : Type := {
  t_rangeValue : FloatEbmType;
  t_pSplittableValuesStart : nat;
  t_pStartEqualRange : nat;
  t_pScan : nat;
  t_pSplittingRange : nat;
  t_ppSplittingRange : nat;
  t_cRemainingSplittingRanges : Z;
  t_cTotalSplittable : Z;
  t_cEqualRangeItemsPrior : Z;
  t_aSplittingRange : list SplittingRange;
  t_apSplittingRange : list nat
}.

(** The assignments that fill the record at [pSplittingRange] and make
    [*ppSplittingRange] point to it; the source has them three times.
    [advance] tells whether the two pointers are incremented afterwards. *)
Definition AssignSplittingRange (st : TableState) (cSplittable cEqualRangeItems : Z)
    (advance : bool) : option TableState :=
  let r :=
    {| m_pSplittableValuesStart := t_pSplittableValuesStart st;
       m_cSplittableItems := cSplittable;
       m_cUnsplittablePriorItems := t_cEqualRangeItemsPrior st;
       m_cUnsplittableSubsequentItems := cEqualRangeItems;
       m_cUnsplittableEitherSideMax := Z.max (t_cEqualRangeItemsPrior st) cEqualRangeItems;
       m_cUnsplittableEitherSideMin := Z.min (t_cEqualRangeItemsPrior st) cEqualRangeItems;
       m_cSplitsAssigned := 1;
       m_flags := if Nat.eqb 0 (t_pSplittableValuesStart st)
                  then k_FirstSplittingRange else k_MiddleSplittingRange |} in
  a ← store (t_aSplittingRange st) (t_pSplittingRange st) r;
  ap ← store (t_apSplittingRange st) (t_ppSplittingRange st) (t_pSplittingRange st);
  Some {| t_rangeValue := t_rangeValue st;
          t_pSplittableValuesStart := t_pSplittableValuesStart st;
          t_pStartEqualRange := t_pStartEqualRange st;
          t_pScan := t_pScan st;
          t_pSplittingRange :=
            if advance then S (t_pSplittingRange st) else t_pSplittingRange st;
          t_ppSplittingRange :=
            if advance then S (t_ppSplittingRange st) else t_ppSplittingRange st;
          t_cRemainingSplittingRanges := to_size_t (t_cRemainingSplittingRanges st - 1);
          t_cTotalSplittable := to_size_t (t_cTotalSplittable st + cSplittable);
          t_cEqualRangeItemsPrior := cEqualRangeItems;
          t_aSplittingRange := a;
          t_apSplittingRange := ap |}.

(** The scan variables after [rangeValue = val; pStartEqualRange = pScan;
    ++pScan], with [pSplittableValuesStart] set as given. *)
Definition TableState_step (st : TableState) (val : FloatEbmType) (unequal restart : bool)
    : TableState :=
  {| t_rangeValue := if unequal then val else t_rangeValue st;
     t_pSplittableValuesStart :=
       if restart then t_pScan st else t_pSplittableValuesStart st;
     t_pStartEqualRange := if unequal then t_pScan st else t_pStartEqualRange st;
     t_pScan := S (t_pScan st);
     t_pSplittingRange := t_pSplittingRange st;
     t_ppSplittingRange := t_ppSplittingRange st;
     t_cRemainingSplittingRanges := t_cRemainingSplittingRanges st;
     t_cTotalSplittable := t_cTotalSplittable st;
     t_cEqualRangeItemsPrior := t_cEqualRangeItemsPrior st;
     t_aSplittingRange := t_aSplittingRange st;
     t_apSplittingRange := t_apSplittingRange st |}.

(** The second [while(pValuesEnd != pScan)], which fills the table. *)
Fixpoint FillSplittingRanges (fuel : nat) (singleFeatureValues : list FloatEbmType)
    (pValuesEnd : nat) (avgLength cMinimumInstancesPerBin : Z) (st : TableState)
    : option TableState :=
  if decide (pValuesEnd = t_pScan st) then Some st
  else
    match fuel with
    | O => None
    | S fuel' =>
        val ← singleFeatureValues !! t_pScan st;
        st' ←
          (if Float_ne val (t_rangeValue st) then
             let cEqualRangeItems := ptr_diff (t_pScan st) (t_pStartEqualRange st) in
             if avgLength <=? cEqualRangeItems then
               st1 ←
                 (if negb (Nat.eqb 0 (t_pSplittableValuesStart st))
                     || (cMinimumInstancesPerBin
                           <=? ptr_diff (t_pStartEqualRange st) (t_pSplittableValuesStart st))
                  then
                    AssignSplittingRange st
                      (ptr_diff (t_pStartEqualRange st) (t_pSplittableValuesStart st))
                      cEqualRangeItems true
                  else Some st);
               Some (TableState_step st1 val true true)
             else Some (TableState_step st val true false)
           else Some (TableState_step st val false false));
        FillSplittingRanges fuel' singleFeatureValues pValuesEnd avgLength
          cMinimumInstancesPerBin st'
    end.

(** What follows the second scan: the range in front of the end of the
    values, and the flag of the last range. *)
Definition FinishSplittingRanges (pValuesEnd : nat) (avgLength cMinimumInstancesPerBin : Z)
    (cSplittingRanges : Z) (st : TableState) : option TableState :=
  let cEqualRangeItems := ptr_diff pValuesEnd (t_pStartEqualRange st) in
  st' ←
    (if avgLength <=? cEqualRangeItems then
       if negb (Nat.eqb 0 (t_pSplittableValuesStart st))
          || (cMinimumInstancesPerBin
                <=? ptr_diff (t_pStartEqualRange st) (t_pSplittableValuesStart st))
       then
         AssignSplittingRange st
           (ptr_diff (t_pStartEqualRange st) (t_pSplittableValuesStart st))
           cEqualRangeItems false
       else Some st
     else
       if negb (Z.of_nat (t_pSplittingRange st) =? cSplittingRanges) then
         AssignSplittingRange st (ptr_diff pValuesEnd (t_pSplittableValuesStart st))
           cEqualRangeItems false
       else Some st);
  let iLast := Z.to_nat (cSplittingRanges - 1) in
  rLast ← t_aSplittingRange st' !! iLast;
  a ← store (t_aSplittingRange st') iLast
        {| m_pSplittableValuesStart := m_pSplittableValuesStart rLast;
           m_cSplittableItems := m_cSplittableItems rLast;
           m_cUnsplittablePriorItems := m_cUnsplittablePriorItems rLast;
           m_cUnsplittableSubsequentItems := m_cUnsplittableSubsequentItems rLast;
           m_cUnsplittableEitherSideMax := m_cUnsplittableEitherSideMax rLast;
           m_cUnsplittableEitherSideMin := m_cUnsplittableEitherSideMin rLast;
           m_cSplitsAssigned := m_cSplitsAssigned rLast;
           m_flags := Z.lor (m_flags rLast) k_LastSplittingRange |};
  Some {| t_rangeValue := t_rangeValue st';
          t_pSplittableValuesStart := t_pSplittableValuesStart st';
          t_pStartEqualRange := t_pStartEqualRange st';
          t_pScan := t_pScan st';
          t_pSplittingRange := t_pSplittingRange st';
          t_ppSplittingRange := t_ppSplittingRange st';
          t_cRemainingSplittingRanges := t_cRemainingSplittingRanges st';
          t_cTotalSplittable := t_cTotalSplittable st';
          t_cEqualRangeItemsPrior := t_cEqualRangeItemsPrior st';
          t_aSplittingRange := a;
          t_apSplittingRange := t_apSplittingRange st' |}.

(** The table as the block between [malloc] and [free] leaves it. *)
Definition BuildSplittingRanges (singleFeatureValues : list FloatEbmType) (pValuesEnd : nat)
    (cMaximumBins avgLength cMinimumInstancesPerBin cSplittingRanges : Z)
    : option TableState :=
  rangeValue ← singleFeatureValues !! 0%nat;
  let n := Z.to_nat cSplittingRanges in
  st ← FillSplittingRanges pValuesEnd singleFeatureValues pValuesEnd avgLength
          cMinimumInstancesPerBin
          {| t_rangeValue := rangeValue;
             t_pSplittableValuesStart := 0%nat;
             t_pStartEqualRange := 0%nat;
             t_pScan := 1%nat;
             t_pSplittingRange := 0%nat;
             t_ppSplittingRange := 0%nat;
             t_cRemainingSplittingRanges := to_size_t (cMaximumBins - 1);
             t_cTotalSplittable := 0;
             t_cEqualRangeItemsPrior := 0;
             t_aSplittingRange := replicate n SplittingRange_unassigned;
             t_apSplittingRange := replicate n 0%nat |};
  FinishSplittingRanges pValuesEnd avgLength cMinimumInstancesPerBin cSplittingRanges st.

(** ** [GenerateQuantileCutPoints] *)

(** The memory the call works on: the caller's value buffer, the caller's
    cut-point buffer and the four output parameters. *)
Record Memory : Type := {
  singleFeatureValues : list FloatEbmType;
  cutPointsLowerBoundInclusive : list FloatEbmType;
  countCutPoints : Z;
  isMissing : Z;
  minValue : FloatEbmType;
  maxValue : FloatEbmType
}.

Definition set_singleFeatureValues (v : list FloatEbmType) (m : Memory) : Memory :=
  {| singleFeatureValues := v;
     cutPointsLowerBoundInclusive := cutPointsLowerBoundInclusive m;
     countCutPoints := countCutPoints m; isMissing := isMissing m;
     minValue := minValue m; maxValue := maxValue m |}.

Definition set_countCutPoints (c : Z) (m : Memory) : Memory :=
  {| singleFeatureValues := singleFeatureValues m;
     cutPointsLowerBoundInclusive := cutPointsLowerBoundInclusive m;
     countCutPoints := c; isMissing := isMissing m;
     minValue := minValue m; maxValue := maxValue m |}.

Definition set_isMissing (b : Z) (m : Memory) : Memory :=
  {| singleFeatureValues := singleFeatureValues m;
     cutPointsLowerBoundInclusive := cutPointsLowerBoundInclusive m;
     countCutPoints := countCutPoints m; isMissing := b;
     minValue := minValue m; maxValue := maxValue m |}.

Definition set_minValue (f : FloatEbmType) (m : Memory) : Memory :=
  {| singleFeatureValues := singleFeatureValues m;
     cutPointsLowerBoundInclusive := cutPointsLowerBoundInclusive m;
     countCutPoints := countCutPoints m; isMissing := isMissing m;
     minValue := f; maxValue := maxValue m |}.

Definition set_maxValue (f : FloatEbmType) (m : Memory) : Memory :=
  {| singleFeatureValues := singleFeatureValues m;
     cutPointsLowerBoundInclusive := cutPointsLowerBoundInclusive m;
     countCutPoints := countCutPoints m; isMissing := isMissing m;
     minValue := minValue m; maxValue := f |}.

(** What the call depends on besides its arguments: whether the construction
    of the [RandomStream] from the seed throws, or else what [IsSuccess] says
    of the constructed stream, and whether [malloc] gives memory for a
    request of so many bytes. *)
Inductive Construction : Type :=
  | Throws
  | Constructed (IsSuccess : bool).

Record Environment : Type := {
  RandomStream_construct : Z → Construction;
  malloc_succeeds : Z → bool
}.

(** [sizeof(SplittingRange)] and [sizeof(SplittingRange * )] of the 64-bit
    targets: a pointer, six [size_t] and an [unsigned int] with its padding. *)
Definition sizeof_SplittingRange : Z := 64.
Definition sizeof_pointer : Z := 8.

(** [p - n] on a pointer; a pointer in front of the array is undefined. *)
Definition ptr_sub (p n : nat) : option nat :=
  if decide (n ≤ p)%nat then Some (p - n)%nat else None.

(** From the end of the first scan to the label [continue_working]: [None]
    when the code leaves by [goto done] with no cut point, otherwise the
    number of splitting ranges. *)
Definition DecideSplittingRanges (vals : list FloatEbmType) (pValuesEnd : nat)
    (cMinimumInstancesPerBin : Z) (st : ScanState) : option (option Z) :=
  if Nat.eqb 0 (pSplittableValuesStart st) then
    let pCheckForSplitPoint := Z.to_nat cMinimumInstancesPerBin in
    pCheckForSplitPointLast ← ptr_sub pValuesEnd (Z.to_nat cMinimumInstancesPerBin);
    pCheckValue ← ptr_sub pCheckForSplitPoint 1;
    checkValue ← vals !! pCheckValue;
    found ← CheckForSplitPoint pValuesEnd vals checkValue pCheckForSplitPoint
               pCheckForSplitPointLast;
    Some (if found : bool then Some 1 else None)
  else
    let cItemsLast := ptr_diff pValuesEnd (pSplittableValuesStart st) in
    if cMinimumInstancesPerBin <=? cItemsLast then
      Some (Some (to_size_t (cSplittingRanges st + 1)))
    else if 0 =? cSplittingRanges st then Some None
    else Some (Some (cSplittingRanges st)).

(** The [try] block.  The status is 1 when the construction of the random
    stream throws (the [catch]) and when the code leaves by
    [goto exit_error]; otherwise the table is built and freed and
    [*countCutPoints = 0] is assigned. *)
Definition AssignCuts (env : Environment) (randomSeed : Z) (vals : list FloatEbmType)
    (pValuesEnd : nat) (cMaximumBins avgLength cMinimumInstancesPerBin cSplittingRanges : Z)
    (mem : Memory) : option (Z * Memory) :=
  match RandomStream_construct env randomSeed with
  | Throws => Some (1, mem)
  | Constructed false => Some (1, mem)
  | Constructed true =>
      let cBytesCombined := sizeof_SplittingRange + sizeof_pointer in
      if IsMultiplyError cSplittingRanges cBytesCombined then Some (1, mem)
      else if negb (malloc_succeeds env (cSplittingRanges * cBytesCombined)) then Some (1, mem)
      else
        _ ← BuildSplittingRanges vals pValuesEnd cMaximumBins avgLength
               cMinimumInstancesPerBin cSplittingRanges;
        Some (0, set_countCutPoints 0 mem)
  end.

(** The branch for at least one value that is a number: [vals] is the buffer
    after the missing values have been removed and [pValuesEnd] the end of the
    numbers in it. *)
Definition CutSortedValues (env : Environment) (randomSeed : Z)
    (countMaximumBins countMinimumInstancesPerBin : Z) (bMissing : bool)
    (vals : list FloatEbmType) (pValuesEnd : nat) (cInstances : Z) (mem : Memory)
    : option (Z * Memory) :=
  let vals := std_sort_range Float_lt vals pValuesEnd in
  let mem := set_singleFeatureValues vals mem in
  first ← vals !! 0%nat;
  pLast ← ptr_sub pValuesEnd 1;
  last ← vals !! pLast;
  let mem := set_maxValue last (set_minValue first mem) in
  if countMaximumBins <=? 1 then Some (0, set_countCutPoints 0 mem)
  else
    let cMinimumInstancesPerBin :=
      if countMinimumInstancesPerBin <=? 0 then 1
      else to_size_t countMinimumInstancesPerBin in
    if cInstances <? to_size_t (Z.shiftl cMinimumInstancesPerBin 1) then
      Some (0, set_countCutPoints 0 mem)
    else
      cMaximumBins ← GetCountBinsMax bMissing countMaximumBins;
      avgLength ← GetAvgLength cInstances cMaximumBins cMinimumInstancesPerBin;
      st ← CountSplittingRanges pValuesEnd vals pValuesEnd avgLength cMinimumInstancesPerBin
              {| rangeValue := first; pSplittableValuesStart := 0%nat;
                 pStartEqualRange := 0%nat; pScan := 1%nat; cSplittingRanges := 0 |};
      c ← DecideSplittingRanges vals pValuesEnd cMinimumInstancesPerBin st;
      match c with
      | None => Some (0, set_countCutPoints 0 mem)
      | Some cSplittingRanges =>
          AssignCuts env randomSeed vals pValuesEnd cMaximumBins avgLength
            cMinimumInstancesPerBin cSplittingRanges mem
      end.

(** [GenerateQuantileCutPoints]: the returned status and the memory
    afterwards.  The two pointers to buffers and the four pointers to outputs
    of the source are the fields of [mem]. *)
Definition GenerateQuantileCutPoints (env : Environment)
    (randomSeed countInstances countMaximumBins countMinimumInstancesPerBin : Z)
    (mem : Memory) : option (Z * Memory) :=
  if negb (IsNumberConvertable_size_t countInstances) then Some (1, mem)
  else if negb (IsNumberConvertable_size_t countMaximumBins) then Some (1, mem)
  else if negb (IsNumberConvertable_size_t countMinimumInstancesPerBin) then Some (1, mem)
  else
    let cInstancesIncludingMissingValues := to_size_t countInstances in
    if 0 =? cInstancesIncludingMissingValues then
      Some (0, set_maxValue Float_zero (set_minValue Float_zero
                 (set_isMissing EBM_FALSE (set_countCutPoints 0 mem))))
    else
      let pValuesOriginalEnd := Z.to_nat cInstancesIncludingMissingValues in
      '(vals, pValuesEnd) ← RemoveMissingValues (singleFeatureValues mem) pValuesOriginalEnd;
      let mem := set_singleFeatureValues vals mem in
      let bMissing := negb (Nat.eqb pValuesOriginalEnd pValuesEnd) in
      let mem := set_isMissing (if bMissing then EBM_TRUE else EBM_FALSE) mem in
      let cInstances := ptr_diff pValuesEnd 0 in
      if 0 =? cInstances then
        Some (0, set_maxValue Float_zero (set_minValue Float_zero (set_countCutPoints 0 mem)))
      else
        CutSortedValues env randomSeed countMaximumBins countMinimumInstancesPerBin
          bMissing vals pValuesEnd cInstances mem.

(** ** [Discretize] *)

(** [static_cast<ptrdiff_t>] of an integer: reduction to the signed 64-bit
    range. *)
Definition to_ptrdiff_t (z : Z) : Z := (z + 2 ^ 63) mod 2 ^ 64 - 2 ^ 63.

(** [a[i]] for an index held as a [size_t]. *)
Definition load {A} (a : list A) (i : Z) : option A :=
  if (0 <=? i) && (i <? Z.of_nat (length a)) then a !! Z.to_nat i else None.

(** The binary search [do ... while(low <= high)]: [middle] and [midVal] as
    the loop leaves them. *)
Fixpoint Discretize_search (fuel : nat) (cutPointsLowerBoundInclusive : list FloatEbmType)
    (val : FloatEbmType) (low high : Z) : option (Z * FloatEbmType) :=
  match fuel with
  | O => None
  | S fuel' =>
      let middle := Z.shiftr (low + high) 1 in
      midVal ← load cutPointsLowerBoundInclusive (to_size_t middle);
      let high' := if Float_le midVal val then high else middle - 1 in
      let low' := if Float_le midVal val then middle + 1 else low in
      if low' <=? high' then
        Discretize_search fuel' cutPointsLowerBoundInclusive val low' high'
      else Some (middle, midVal)
  end.

(** The body of the loop over the values when there is no cut point. *)
Definition Discretize_noCuts (isMissing : Z) (val : FloatEbmType) : option Z :=
  let missingVal := if negb (EBM_FALSE =? isMissing) then 0 else -1 in
  let nonMissingVal := if negb (EBM_FALSE =? isMissing) then 1 else 0 in
  Some (if isnan val then missingVal else nonMissingVal).

(** The body of the loop over the values when missing values are possible:
    every index is bumped up by one and 0 is the bin of the missing values. *)
Definition Discretize_withMissing (cutPointsLowerBoundInclusive : list FloatEbmType)
    (highStart : Z) (val : FloatEbmType) : option Z :=
  if negb (isnan val) then
    '(middle, midVal) ← Discretize_search (S (Z.to_nat highStart))
                           cutPointsLowerBoundInclusive val 0 highStart;
    Some (if Float_le midVal val then middle + 2 else middle + 1)
  else Some 0.

(** The body of the loop over the values when no missing value is expected:
    a missing value gets -1. *)
Definition Discretize_noMissing (cutPointsLowerBoundInclusive : list FloatEbmType)
    (highStart : Z) (val : FloatEbmType) : option Z :=
  if negb (isnan val) then
    '(middle, midVal) ← Discretize_search (S (Z.to_nat highStart))
                           cutPointsLowerBoundInclusive val 0 highStart;
    Some (if Float_le midVal val then middle + 1 else middle)
  else Some (-1).

(** The loop over the values, [do ... while(pValueEnd != pValue)], for a
    loop body [bin]. *)
Fixpoint Discretize_loop (fuel : nat) (bin : FloatEbmType → option Z)
    (singleFeatureValues : list FloatEbmType) (singleFeatureDiscretized : list Z)
    (pValue pDiscretized pValueEnd : nat) : option (list Z) :=
  match fuel with
  | O => None
  | S fuel' =>
      val ← singleFeatureValues !! pValue;
      result ← bin val;
      discretized ← store singleFeatureDiscretized pDiscretized result;
      let pDiscretized := S pDiscretized in
      let pValue := S pValue in
      if decide (pValueEnd ≠ pValue) then
        Discretize_loop fuel' bin singleFeatureValues discretized pValue pDiscretized pValueEnd
      else Some discretized
  end.

(** [Discretize]: the array [singleFeatureDiscretized] afterwards. *)
Definition Discretize (isMissing countCutPoints : Z)
    (cutPointsLowerBoundInclusive : list FloatEbmType) (countInstances : Z)
    (singleFeatureValues : list FloatEbmType) (singleFeatureDiscretized : list Z)
    : option (list Z) :=
  if 0 <? countInstances then
    let cCutPoints := to_size_t countCutPoints in
    let cInstances := to_size_t countInstances in
    let pValueEnd := Z.to_nat cInstances in
    let bin :=
      if 0 =? cCutPoints then Discretize_noCuts isMissing
      else
        let highStart := to_ptrdiff_t (cCutPoints - 1) in
        if negb (EBM_FALSE =? isMissing) then
          Discretize_withMissing cutPointsLowerBoundInclusive highStart
        else Discretize_noMissing cutPointsLowerBoundInclusive highStart in
    Discretize_loop pValueEnd bin singleFeatureValues singleFeatureDiscretized
      0%nat 0%nat pValueEnd
  else Some singleFeatureDiscretized.

(** The bin of a value in the words of the specification: a missing value
    gets the reserved bin 0, or -1 when no missing value is expected; a number
    gets the number of cut points that are not above it, shifted up by one
    when the bin 0 is reserved. *)
Definition count_le (cutPoints : list FloatEbmType) (v : FloatEbmType) : Z :=
  Z.of_nat (length (filter (λ c, Float_le c v = true) cutPoints)).

Definition bin_index (hadMissing : bool) (cutPoints : list FloatEbmType) (v : FloatEbmType) : Z :=
  if isnan v then (if hadMissing then 0 else -1)
  else if hadMissing then count_le cutPoints v + 1 else count_le cutPoints v.


(** ** The cut points of equal width *)

(** [GenerateImprovedEqualWidthCutPoints] and [GenerateEqualWidthCutPoints]
    are not implemented: they use none of their arguments, assign nothing and
    return 0. *)
Definition GenerateImprovedEqualWidthCutPoints (countInstances countMaximumBins : Z)
    (mem : Memory) : option (Z * Memory) :=
  Some (0, mem).

Definition GenerateEqualWidthCutPoints (countInstances countMaximumBins : Z)
    (mem : Memory) : option (Z * Memory) :=
  Some (0, mem).

(** ** Definitions used to state the properties *)

(** The values of a buffer that are numbers, in their order. *)
Definition nonmissing (l : list FloatEbmType) : list FloatEbmType :=
  filter (λ v, isnan v = false) l.

(** What a call of [GenerateQuantileCutPoints] does to the memory, apart from
    the contents the caller had in the output parameters: an undefined
    behaviour; the status 1 of a size-conversion failure, with nothing
    assigned; the status 1 after the values have been filtered and sorted,
    with the had-missing flag and the two extreme values assigned; the status
    0, with the cut-point count assigned as well. *)
Inductive Outcome : Type :=
  | Undefined
  | SizeFailure
  | LateFailure (flag : Z) (vals : list FloatEbmType) (minVal maxVal : FloatEbmType)
  | Success (flag : Z) (vals : list FloatEbmType) (minVal maxVal : FloatEbmType).

Definition assign_values (flag : Z) (vals : list FloatEbmType) (minVal maxVal : FloatEbmType)
    (mem : Memory) : Memory :=
  set_maxValue maxVal (set_minValue minVal (set_isMissing flag
    (set_singleFeatureValues vals mem))).

Definition apply_outcome (o : Outcome) (mem : Memory) : option (Z * Memory) :=
  match o with
  | Undefined => None
  | SizeFailure => Some (1, mem)
  | LateFailure flag vals minVal maxVal => Some (1, assign_values flag vals minVal maxVal mem)
  | Success flag vals minVal maxVal =>
      Some (0, set_countCutPoints 0 (assign_values flag vals minVal maxVal mem))
  end.

(** The values that an outcome assigns, in terms of the arguments of the
    call: the flag tells whether the filter removed a value; without a number
    left the extreme values are zero; otherwise the buffer holds the numbers
    in ascending order in front, and the extreme values are the first and the
    last of them. *)
Definition outcome_values (countInstances : Z) (values : list FloatEbmType)
    (flag : Z) (vals : list FloatEbmType) (minVal maxVal : FloatEbmType) : Prop :=
  if 0 =? to_size_t countInstances then
    flag = EBM_FALSE ∧ vals = values ∧ minVal = Float_zero ∧ maxVal = Float_zero
  else
    ∃ filtered pValuesEnd,
      RemoveMissingValues values (Z.to_nat (to_size_t countInstances))
        = Some (filtered, pValuesEnd)
      ∧ flag = (if Nat.eqb (Z.to_nat (to_size_t countInstances)) pValuesEnd
                then EBM_FALSE else EBM_TRUE)
      ∧ (if 0 =? ptr_diff pValuesEnd 0 then
           vals = filtered ∧ minVal = Float_zero ∧ maxVal = Float_zero
         else
           vals = std_sort_range Float_lt filtered pValuesEnd
           ∧ vals !! 0%nat = Some minVal
           ∧ (1 ≤ pValuesEnd)%nat ∧ vals !! (pValuesEnd - 1)%nat = Some maxVal).

Definition outcome_sound (countInstances : Z) (values : list FloatEbmType) (o : Outcome)
    : Prop :=
  match o with
  | Undefined | SizeFailure => True
  | LateFailure flag vals minVal maxVal =>
      to_size_t countInstances ≠ 0
      ∧ outcome_values countInstances values flag vals minVal maxVal
  | Success flag vals minVal maxVal =>
      outcome_values countInstances values flag vals minVal maxVal
  end.

(** Two calls assign an output parameter alike: they leave the same value
    in it, or both leave in it what the caller had there. *)
Definition same_assignment {A} (old1 old2 new1 new2 : A) : Prop :=
  new1 = new2 ∨ (new1 = old1 ∧ new2 = old2).

(** The outputs are in a defined state after a failure: when a call returns
    a status that is not 0, the contents of the four output parameters do not
    depend on what the caller had in them before the call. *)
Definition outputs_defined_on_failure : Prop :=
  ∀ env randomSeed countInstances countMaximumBins countMinimumInstancesPerBin values cuts
    c1 m1 mn1 mx1 c2 m2 mn2 mx2 s1 r1 s2 r2,
    GenerateQuantileCutPoints env randomSeed countInstances countMaximumBins
      countMinimumInstancesPerBin (Build_Memory values cuts c1 m1 mn1 mx1) = Some (s1, r1) →
    GenerateQuantileCutPoints env randomSeed countInstances countMaximumBins
      countMinimumInstancesPerBin (Build_Memory values cuts c2 m2 mn2 mx2) = Some (s2, r2) →
    s1 ≠ 0 →
    countCutPoints r1 = countCutPoints r2 ∧ isMissing r1 = isMissing r2
    ∧ minValue r1 = minValue r2 ∧ maxValue r1 = maxValue r2.

(** The claim of determinism as the specification words it: the status and
    the outputs of a call are a function of the seed, the values and the
    parameters alone, so two calls that agree in them return the same status
    and leave the same outputs, whatever else the calls differ in. *)
Definition deterministic_in_seed_and_inputs : Prop :=
  ∀ env1 env2 randomSeed countInstances countMaximumBins countMinimumInstancesPerBin mem
    s1 r1 s2 r2,
    GenerateQuantileCutPoints env1 randomSeed countInstances countMaximumBins
      countMinimumInstancesPerBin mem = Some (s1, r1) →
    GenerateQuantileCutPoints env2 randomSeed countInstances countMaximumBins
      countMinimumInstancesPerBin mem = Some (s2, r2) →
    s1 = s2
    ∧ countCutPoints r1 = countCutPoints r2
    ∧ cutPointsLowerBoundInclusive r1 = cutPointsLowerBoundInclusive r2
    ∧ isMissing r1 = isMissing r2
    ∧ minValue r1 = minValue r2 ∧ maxValue r1 = maxValue r2.

(** Two environments in which the construction of the random stream from
    the seed and every allocation have the same outcome. *)
Definition same_environment (randomSeed : Z) (env1 env2 : Environment) : Prop :=
  RandomStream_construct env1 randomSeed = RandomStream_construct env2 randomSeed
  ∧ ∀ cBytes, malloc_succeeds env1 cBytes = malloc_succeeds env2 cBytes.

(** Concrete calls: an environment in which the random stream and the
    allocation succeed, one in which the allocation fails, and a memory with
    the four values 1, 2, 3, 4 in the buffer and [c] in [countCutPoints]. *)
Definition env_ok : Environment :=
  {| RandomStream_construct := λ _, Constructed true; malloc_succeeds := λ _, true |}.

Definition env_no_memory : Environment :=
  {| RandomStream_construct := λ _, Constructed true; malloc_succeeds := λ _, false |}.

Definition memory_1234 (c : Z) : Memory :=
  {| singleFeatureValues := map Float_of_size_t [1; 2; 3; 4];
     cutPointsLowerBoundInclusive := [Float_zero];
     countCutPoints := c; isMissing := 5;
     minValue := S754_nan; maxValue := S754_nan |}.

(** An exact power of two. *)
Definition is_power_of_two (z : Z) : Prop := ∃ k, 0 ≤ k ∧ z = 2 ^ k.

(** The average length in the words of the specification: the larger of the
    minimum number of instances per bin and the exact integer ceiling of the
    rational [n / b]. *)
Definition ceil_div (n b : Z) : Z := (n + b - 1) / b.

Definition avgLength_spec (n b cMinimumInstancesPerBin : Z) : Z :=
  Z.max cMinimumInstancesPerBin (ceil_div n b).

(** Strictly increasing cut points, as the assertion loop of the debug build
    of [Discretize] has it: every cut point is below the one after it. *)
Definition strictly_increasing (cutPoints : list FloatEbmType) : Prop :=
  ∀ i a b, cutPoints !! i = Some a → cutPoints !! S i = Some b → Float_lt a b = true.

(** The order in which [SortSplittingRangesByCountItemsAscending] has the
    records before it shuffles: ascending in the number of splittable items,
    and in the position of the range among records with the same number. *)
Definition CountItems_le (r1 r2 : SplittingRange) : Prop :=
  m_cSplittableItems r1 < m_cSplittableItems r2
  ∨ (m_cSplittableItems r1 = m_cSplittableItems r2
     ∧ (m_pSplittableValuesStart r1 ≤ m_pSplittableValuesStart r2)%nat).

(** The order in which [SortSplittingRangesByUnsplittableDescending] has the
    records before it shuffles: descending in the larger neighbouring run,
    then in the smaller one, then in the position of the range. *)
Definition Unsplittable_ge (r1 r2 : SplittingRange) : Prop :=
  m_cUnsplittableEitherSideMax r2 < m_cUnsplittableEitherSideMax r1
  ∨ (m_cUnsplittableEitherSideMax r1 = m_cUnsplittableEitherSideMax r2
     ∧ (m_cUnsplittableEitherSideMin r2 < m_cUnsplittableEitherSideMin r1
        ∨ (m_cUnsplittableEitherSideMin r1 = m_cUnsplittableEitherSideMin r2
           ∧ (m_pSplittableValuesStart r2 ≤ m_pSplittableValuesStart r1)%nat))).

(** The compound key of the second ordering, descending. *)
Definition Unsplittable_key_ge (k1 k2 : Z * Z) : Prop :=
  k2.1 < k1.1 ∨ (k1.1 = k2.1 ∧ k2.2 ≤ k1.2).

(** A table of four records, of which three have five splittable items, and
    a random stream for concrete calls: the state is a number, the index drawn
    is its remainder. *)
Definition table4 : list SplittingRange :=
  [ Build_SplittingRange 0 5 0 3 3 0 1 1; Build_SplittingRange 8 2 3 4 4 3 1 0;
    Build_SplittingRange 14 5 4 0 4 0 1 0; Build_SplittingRange 20 5 4 0 4 0 1 2 ].

Definition Next_remainder (s n : nat) : nat * nat := ((s mod n)%nat, (s * 7 + 3)%nat).

(** The exchange of the elements at two positions of a list. *)
Definition exchange {A} (i j : nat) (l : list A) : list A :=
  match l !! i, l !! j with
  | Some x, Some y => <[j:=x]> (<[i:=y]> l)
  | _, _ => l
  end.

Section FairOrderSpecification.
Context {RandomStream : Type}.
Variable Next : RandomStream → nat → nat * RandomStream.
Context {K : Type} `{EqDecision K}.
Variable key : nat → K.

(** The shuffle in the words of the specification, a Fisher-Yates-style
    shuffle of one block with every swap index drawn from the random source:
    as long as more than one element remains, an index is drawn among the
    remaining elements, the first of them is exchanged with the drawn one, and
    the shuffle goes on behind it.  Gives the stream afterwards and the
    shuffled block. *)
Fixpoint FisherYates (cRemainingItems : nat) (rs : RandomStream) (block : list nat)
    : RandomStream * list nat :=
  match cRemainingItems with
  | S (S _ as c') =>
      let '(iSwap, rs) := Next rs cRemainingItems in
      match exchange 0 iSwap block with
      | [] => (rs, [])
      | p :: rest => let '(rs, rest) := FisherYates c' rs rest in (rs, p :: rest)
      end
  | _ => (rs, block)
  end.

(** The maximal blocks of entries with an identical key, in the words of
    the specification: an entry goes into the block of the entry behind it
    when the two have the same key, and starts a block otherwise. *)
Fixpoint blocks (l : list nat) : list (list nat) :=
  match l with
  | [] => []
  | p :: l' =>
      match blocks l' with
      | (q :: block) :: bs =>
          if decide (key p = key q) then (p :: q :: block) :: bs
          else [p] :: (q :: block) :: bs
      | _ => [[p]]
      end
  end.

(** Every block is shuffled on its own, one block after the other with the
    same random source, and the shuffled blocks stay in their places. *)
Fixpoint ShuffleBlocks (rs : RandomStream) (bs : list (list nat)) : RandomStream * list nat :=
  match bs with
  | [] => (rs, [])
  | block :: bs' =>
      let '(rs, block) := FisherYates (length block) rs block in
      let '(rs, l) := ShuffleBlocks rs bs' in
      (rs, block ++ l)
  end.

(** [bs] are the maximal blocks of equal keys of [l]: they make up [l], no
    block is empty, the entries of a block have the same key, and the entries
    of a block and of the next one have different keys. *)
Definition maximal_blocks (l : list nat) (bs : list (list nat)) : Prop :=
  concat bs = l
  ∧ (∀ block, block ∈ bs → block ≠ [] ∧ ∀ p q, p ∈ block → q ∈ block → key p = key q)
  ∧ (∀ i block block' p q, bs !! i = Some block → bs !! S i = Some block' →
       p ∈ block → q ∈ block' → key p ≠ key q).
End FairOrderSpecification.

(** What holds of the variables of the scan over [n] sorted values: the
    pointers are in order and inside the values, and no more splitting ranges
    have been counted than there are values in front of the current
    splittable range. *)
Definition scan_inv (n : nat) (st : ScanState) : Prop :=
  (pSplittableValuesStart st ≤ pStartEqualRange st)%nat
  ∧ (pStartEqualRange st < pScan st)%nat
  ∧ (pScan st ≤ n)%nat
  ∧ 0 ≤ cSplittingRanges st ≤ Z.of_nat (pSplittableValuesStart st).

(** The second scan is at the point of the first one: the same variables, and
    as many records filled as ranges counted. *)
Definition scan_sim (st : ScanState) (tst : TableState) : Prop :=
  t_rangeValue tst = rangeValue st
  ∧ t_pSplittableValuesStart tst = pSplittableValuesStart st
  ∧ t_pStartEqualRange tst = pStartEqualRange st
  ∧ t_pScan tst = pScan st
  ∧ Z.of_nat (t_pSplittingRange tst) = cSplittingRanges st
  ∧ t_ppSplittingRange tst = t_pSplittingRange tst.

(** The rounding to nearest, ties to even, of a mantissa [q] of 53 or 54 bits
    that comes with the location [l] of the exact value between [q] and
    [q + 1], in the unit of [q]: a mantissa of 54 bits loses its last bit,
    which goes into the location. *)
Definition loc_halved (odd : bool) (l : location) : location :=
  match odd, l with
  | false, loc_Exact => loc_Exact
  | false, loc_Inexact _ => loc_Inexact Lt
  | true, loc_Exact => loc_Inexact Eq
  | true, loc_Inexact _ => loc_Inexact Gt
  end.

Definition round_quotient (q : Z) (l : location) : Z :=
  if q <? 2 ^ 53 then round_nearest_even q l
  else 2 * round_nearest_even (q / 2) (loc_halved (Z.odd q) l).

(** What holds of a record of the table that has been assigned, at the index
    [i], over [n] values: one split is assigned to it, its splittable items
    are inside the values, the run of equal values behind it is not empty,
    the two sides are ordered as the larger and the smaller one, and only
    the first record starts at the first value. *)
Definition SplittingRange_assigned (n i : nat) (r : SplittingRange) : Prop :=
  m_cSplitsAssigned r = 1
  ∧ 0 ≤ m_cSplittableItems r
  ∧ 1 ≤ m_cUnsplittableSubsequentItems r
  ∧ Z.of_nat (m_pSplittableValuesStart r) + m_cSplittableItems r ≤ Z.of_nat n
  ∧ m_cUnsplittableEitherSideMax r
    = Z.max (m_cUnsplittablePriorItems r) (m_cUnsplittableSubsequentItems r)
  ∧ m_cUnsplittableEitherSideMin r
    = Z.min (m_cUnsplittablePriorItems r) (m_cUnsplittableSubsequentItems r)
  ∧ (m_pSplittableValuesStart r = 0%nat → i = 0%nat).

(** A record and the next one: the next range starts behind the splittable
    items and the run of equal values of the record, and has that run as the
    run in front of it. *)
Definition SplittingRange_chained (r r' : SplittingRange) : Prop :=
  Z.of_nat (m_pSplittableValuesStart r')
  = Z.of_nat (m_pSplittableValuesStart r) + m_cSplittableItems r
    + m_cUnsplittableSubsequentItems r
  ∧ m_cUnsplittablePriorItems r' = m_cUnsplittableSubsequentItems r.

(** The flag that the assignment of a record gives it. *)
Definition first_flag (r : SplittingRange) : Z :=
  if Nat.eqb 0 (m_pSplittableValuesStart r)
  then k_FirstSplittingRange else k_MiddleSplittingRange.

(** The first [k] records of the table are assigned and chained, and the
    first [k] pointers point to them in their order. *)
Definition table_ok (n k : nat) (table : list SplittingRange) (ap : list nat) : Prop :=
  take k ap = seq 0 k
  ∧ (∀ i, (i < k)%nat →
       ∃ r, table !! i = Some r ∧ SplittingRange_assigned n i r ∧ m_flags r = first_flag r)
  ∧ (∀ i r r', (S i < k)%nat → table !! i = Some r → table !! S i = Some r' →
       SplittingRange_chained r r').

(** What the second scan keeps: its pointers into the values are in order,
    the two pointers into the table go together, the records in front of
    them are assigned, and the current splittable range starts where the
    last assigned record and its run of equal values end. *)
Definition fill_inv (n : nat) (tst : TableState) : Prop :=
  (t_pSplittableValuesStart tst ≤ t_pStartEqualRange tst)%nat
  ∧ (t_pStartEqualRange tst < t_pScan tst)%nat
  ∧ (t_pScan tst ≤ n)%nat
  ∧ t_ppSplittingRange tst = t_pSplittingRange tst
  ∧ table_ok n (t_pSplittingRange tst) (t_aSplittingRange tst) (t_apSplittingRange tst)
  ∧ match t_pSplittingRange tst with
    | O => t_cEqualRangeItemsPrior tst = 0
    | S j =>
        t_pSplittableValuesStart tst ≠ 0%nat
        ∧ ∃ r, t_aSplittingRange tst !! j = Some r
               ∧ Z.of_nat (m_pSplittableValuesStart r) + m_cSplittableItems r
                 + m_cUnsplittableSubsequentItems r
                 = Z.of_nat (t_pSplittableValuesStart tst)
               ∧ m_cUnsplittableSubsequentItems r = t_cEqualRangeItemsPrior tst
    end.

(** The table as the code leaves it for [c] splitting ranges over [n]
    values: every record is assigned, the last one has the flag of the last
    range besides, every pointer points to the record of its index, and every
    record is chained to the next one. *)
Definition table_complete (n c : nat) (table : list SplittingRange) (ap : list nat) : Prop :=
  length table = c
  ∧ ap = seq 0 c
  ∧ (∀ i r, table !! i = Some r →
       SplittingRange_assigned n i r
       ∧ m_flags r = Z.lor (first_flag r) (if decide (S i = c) then k_LastSplittingRange else 0))
  ∧ (∀ i r r', table !! i = Some r → table !! S i = Some r' → SplittingRange_chained r r').

(** What the second scan keeps besides: the counter of the remaining ranges
    has gone down, around zero, by one for every assigned record, and every
    assigned record has a run of at least [avgLength] equal values behind
    it, in front of the current splittable range. *)
Definition count_inv (cMaximumBins avgLength : Z) (tst : TableState) : Prop :=
  t_cRemainingSplittingRanges tst
  = to_size_t (cMaximumBins - 1 - Z.of_nat (t_pSplittingRange tst))
  ∧ Z.of_nat (t_pSplittingRange tst) * avgLength ≤ Z.of_nat (t_pSplittableValuesStart tst).

(** The values of the current run of equal values are equal to
    [rangeValue]. *)
Definition run_inv (vals : list FloatEbmType) (st : ScanState) : Prop :=
  ∀ j v, (pStartEqualRange st ≤ j < pScan st)%nat → vals !! j = Some v →
         Float_ne v (rangeValue st) = false.

(** * Properties *)

Local Arguments Z.eqb : simpl never.
Local Arguments Z.leb : simpl never.
Local Arguments Z.ltb : simpl never.
Local Arguments Z.add : simpl never.
Local Arguments Z.sub : simpl never.
Local Arguments Z.mul : simpl never.
Local Arguments Z.pow : simpl never.
Local Arguments Z.modulo : simpl never.
Local Arguments Z.div : simpl never.
Local Arguments Z.shiftr : simpl never.
Local Arguments Z.shiftl : simpl never.
Local Arguments Z.of_nat : simpl never.
Local Arguments Z.to_nat : simpl never.

(** ** Arrays *)

Lemma store_Some {A} (a : list A) i x :
  (i < length a)%nat → store a i x = Some (<[i:=x]> a).
Proof. intros Hi. unfold store. by rewrite decide_True. Qed.

Lemma store_inv {A} (a a' : list A) i x :
  store a i x = Some a' → (i < length a)%nat ∧ a' = <[i:=x]> a.
Proof. unfold store. case_decide; naive_solver. Qed.

Lemma nonmissing_app l k : nonmissing (l ++ k) = nonmissing l ++ nonmissing k.
Proof. apply filter_app. Qed.

Lemma nonmissing_all l : Forall (λ v, isnan v = false) l → nonmissing l = l.
Proof.
  induction 1 as [|v l Hv _ IH]; [done|].
  unfold nonmissing in *. rewrite filter_cons_True by done. by rewrite IH.
Qed.

(** The copy loop, from the state in which the values in front of
    [pCopyTo] are the numbers seen so far and [pCopyFrom] is the value last
    looked at. *)
Lemma RemoveMissingValues_skip_val_spec fuel : ∀ a pCopyFrom pCopyTo pEnd,
  (pCopyTo ≤ pCopyFrom)%nat → (pCopyFrom < pEnd)%nat → (pEnd ≤ length a)%nat →
  (pEnd - pCopyFrom ≤ fuel)%nat →
  ∃ a', RemoveMissingValues_skip_val fuel a pCopyFrom pCopyTo pEnd
          = Some (a', (pCopyTo + length (nonmissing (take (pEnd - S pCopyFrom) (drop (S pCopyFrom) a))))%nat)
        ∧ length a' = length a
        ∧ take (pCopyTo + length (nonmissing (take (pEnd - S pCopyFrom) (drop (S pCopyFrom) a)))) a'
          = take pCopyTo a ++ nonmissing (take (pEnd - S pCopyFrom) (drop (S pCopyFrom) a))
        ∧ drop pEnd a' = drop pEnd a.
Proof.
  induction fuel as [|fuel IH]; intros a from to pEnd Hto Hfrom Hend Hfuel; [lia|].
  simpl. case_decide as Heq.
  - subst pEnd. replace (S from - S from)%nat with 0%nat by lia.
    rewrite take_0. simpl. rewrite !Nat.add_0_r, app_nil_r. eauto.
  - destruct (lookup_lt_is_Some_2 a (S from)) as [val Hval]; [lia|].
    rewrite Hval. simpl.
    assert (Hsplit : take (pEnd - S from) (drop (S from) a)
                     = val :: take (pEnd - S (S from)) (drop (S (S from)) a)).
    { rewrite (drop_S _ _ _ Hval). replace (pEnd - S from)%nat with (S (pEnd - S (S from))) by lia.
      done. }
    rewrite Hsplit. destruct (isnan val) eqn:Hnan.
    + destruct (IH a (S from) to pEnd) as (a' & Hrun & Hlen & Htake & Hdrop); [lia..|].
      unfold nonmissing at 1 2 3. rewrite filter_cons_False by (rewrite Hnan; done).
      fold (nonmissing (take (pEnd - S (S from)) (drop (S (S from)) a))). eauto.
    + rewrite store_Some by lia. simpl.
      destruct (IH (<[to:=val]> a) (S from) (S to) pEnd) as (a' & Hrun & Hlen & Htake & Hdrop);
        [rewrite ?length_insert; lia..|].
      rewrite drop_insert_lt in Hrun, Htake by lia.
      unfold nonmissing at 1 2 3. rewrite filter_cons_True by done.
      fold (nonmissing (take (pEnd - S (S from)) (drop (S (S from)) a))).
      simpl length. rewrite Nat.add_succ_r. exists a'. split_and!.
      * exact Hrun.
      * by rewrite Hlen, length_insert.
      * simpl in Htake. rewrite Htake.
        rewrite (take_S_r _ _ val) by (apply list_lookup_insert_eq; lia).
        rewrite take_insert_ge by lia. by rewrite <- app_assoc.
      * rewrite Hdrop. by rewrite drop_insert_lt by lia.
Qed.

Lemma RemoveMissingValues_scan_spec fuel : ∀ a pCopyFrom pEnd,
  (pCopyFrom < pEnd)%nat → (pEnd ≤ length a)%nat → (pEnd - pCopyFrom ≤ fuel)%nat →
  Forall (λ v, isnan v = false) (take pCopyFrom a) →
  ∃ a', RemoveMissingValues_scan fuel a pCopyFrom pEnd
          = Some (a', length (nonmissing (take pEnd a)))
        ∧ length a' = length a
        ∧ take (length (nonmissing (take pEnd a))) a' = nonmissing (take pEnd a)
        ∧ drop pEnd a' = drop pEnd a.
Proof.
  induction fuel as [|fuel IH]; intros a from pEnd Hfrom Hend Hfuel Hpre; [lia|].
  simpl. destruct (lookup_lt_is_Some_2 a from) as [val Hval]; [lia|].
  rewrite Hval. simpl.
  assert (Hcut : take pEnd a = take from a ++ val :: take (pEnd - S from) (drop (S from) a)).
  { replace pEnd with (from + S (pEnd - S from))%nat at 1 by lia.
    rewrite <- take_take_drop. by rewrite (drop_S _ _ _ Hval). }
  destruct (isnan val) eqn:Hnan.
  - destruct (RemoveMissingValues_skip_val_spec (S (pEnd - from)) a from from pEnd)
      as (a' & Hrun & Hlen & Htake & Hdrop); [lia..|].
    assert (Hcount : nonmissing (take pEnd a)
                     = take from a ++ nonmissing (take (pEnd - S from) (drop (S from) a))).
    { rewrite Hcut, nonmissing_app, (nonmissing_all _ Hpre). f_equal.
      unfold nonmissing. rewrite filter_cons_False by (rewrite Hnan; done). done. }
    exists a'. rewrite Hcount, length_app, length_take_le by lia. eauto.
  - case_decide as Heq.
    + subst pEnd. exists a. split_and!; try done.
      * do 2 f_equal. rewrite nonmissing_all; [by rewrite length_take_le by lia|].
        rewrite (take_S_r _ _ _ Hval). apply Forall_app. split; [done|]. by constructor.
      * rewrite nonmissing_all; [by rewrite length_take_le by lia|].
        rewrite (take_S_r _ _ _ Hval). apply Forall_app. split; [done|]. by constructor.
    + apply IH; [lia..|].
      rewrite (take_S_r _ _ _ Hval). apply Forall_app. split; [done|]. by constructor.
Qed.

(** The missing-value filter on a buffer of at least one value. *)
Lemma RemoveMissingValues_spec a pEnd :
  (1 ≤ pEnd)%nat → (pEnd ≤ length a)%nat →
  ∃ a', RemoveMissingValues a pEnd = Some (a', length (nonmissing (take pEnd a)))
        ∧ length a' = length a
        ∧ take (length (nonmissing (take pEnd a))) a' = nonmissing (take pEnd a)
        ∧ drop pEnd a' = drop pEnd a.
Proof.
  intros H1 H2. apply RemoveMissingValues_scan_spec; [lia..|]. rewrite take_0. constructor.
Qed.

(** ** The outcomes of [GenerateQuantileCutPoints] *)

Lemma AssignCuts_outcome env randomSeed vals pValuesEnd cMaximumBins avgLength cMin c :
  (∀ mem, AssignCuts env randomSeed vals pValuesEnd cMaximumBins avgLength cMin c mem = None)
  ∨ (∀ mem, AssignCuts env randomSeed vals pValuesEnd cMaximumBins avgLength cMin c mem
            = Some (1, mem))
  ∨ (∀ mem, AssignCuts env randomSeed vals pValuesEnd cMaximumBins avgLength cMin c mem
            = Some (0, set_countCutPoints 0 mem)).
Proof.
  unfold AssignCuts.
  destruct (RandomStream_construct env randomSeed) as [|[|]]; [by eauto| |by eauto].
  destruct (IsMultiplyError _ _); [by eauto|].
  destruct (malloc_succeeds env _); simpl; [|by eauto].
  destruct (BuildSplittingRanges _ _ _ _ _ _); simpl; by eauto.
Qed.

Lemma CutSortedValues_outcome env randomSeed countMaximumBins countMinimumInstancesPerBin
    bMissing vals pValuesEnd cInstances :
  (∀ mem, CutSortedValues env randomSeed countMaximumBins countMinimumInstancesPerBin
            bMissing vals pValuesEnd cInstances mem = None)
  ∨ ∃ minVal maxVal,
      std_sort_range Float_lt vals pValuesEnd !! 0%nat = Some minVal
      ∧ (1 ≤ pValuesEnd)%nat
      ∧ std_sort_range Float_lt vals pValuesEnd !! (pValuesEnd - 1)%nat = Some maxVal
      ∧ ((∀ mem, CutSortedValues env randomSeed countMaximumBins countMinimumInstancesPerBin
                   bMissing vals pValuesEnd cInstances mem
                 = Some (1, set_maxValue maxVal (set_minValue minVal
                              (set_singleFeatureValues (std_sort_range Float_lt vals pValuesEnd) mem))))
         ∨ (∀ mem, CutSortedValues env randomSeed countMaximumBins countMinimumInstancesPerBin
                   bMissing vals pValuesEnd cInstances mem
                 = Some (0, set_countCutPoints 0 (set_maxValue maxVal (set_minValue minVal
                              (set_singleFeatureValues (std_sort_range Float_lt vals pValuesEnd) mem)))))).
Proof.
  unfold CutSortedValues.
  destruct (std_sort_range Float_lt vals pValuesEnd !! 0%nat) as [minVal|] eqn:Hmin;
    simpl; [|by left].
  unfold ptr_sub. case_decide as Hpos; simpl; [|by left].
  destruct (std_sort_range Float_lt vals pValuesEnd !! (pValuesEnd - 1)%nat) as [maxVal|] eqn:Hmax;
    simpl; [|by left].
  destruct (countMaximumBins <=? 1); [right; exists minVal, maxVal; by eauto 10|].
  destruct (cInstances <? _); [right; exists minVal, maxVal; by eauto 10|].
  destruct (GetCountBinsMax _ _) as [cMaximumBins|]; simpl; [|by left].
  destruct (GetAvgLength _ _ _) as [avgLength|]; simpl; [|by left].
  destruct (CountSplittingRanges _ _ _ _ _ _) as [st|]; simpl; [|by left].
  destruct (DecideSplittingRanges _ _ _ _) as [[c|]|]; simpl;
    [|right; exists minVal, maxVal; by eauto 10|by left].
  match goal with
  | |- context [AssignCuts ?e ?s ?v ?p ?cm ?a ?mn ?k _] =>
      destruct (AssignCuts_outcome e s v p cm a mn k) as [Hn|[Hf|Hs]]
  end.
  - left. intros mem. apply Hn.
  - right. exists minVal, maxVal. split_and!; try done. left. intros mem. apply Hf.
  - right. exists minVal, maxVal. split_and!; try done. right. intros mem. apply Hs.
Qed.

Lemma GenerateQuantileCutPoints_outcome env randomSeed countInstances countMaximumBins
    countMinimumInstancesPerBin values :
  ∃ o, outcome_sound countInstances values o
       ∧ (o = SizeFailure ↔
            IsNumberConvertable_size_t countInstances
            && IsNumberConvertable_size_t countMaximumBins
            && IsNumberConvertable_size_t countMinimumInstancesPerBin = false)
       ∧ ∀ cuts c m mn mx,
           GenerateQuantileCutPoints env randomSeed countInstances countMaximumBins
             countMinimumInstancesPerBin (Build_Memory values cuts c m mn mx)
           = apply_outcome o (Build_Memory values cuts c m mn mx).
Proof.
  unfold GenerateQuantileCutPoints.
  destruct (IsNumberConvertable_size_t countInstances); simpl;
    [|exists SizeFailure; by split_and!].
  destruct (IsNumberConvertable_size_t countMaximumBins); simpl;
    [|exists SizeFailure; by split_and!].
  destruct (IsNumberConvertable_size_t countMinimumInstancesPerBin); simpl;
    [|exists SizeFailure; by split_and!].
  destruct (0 =? to_size_t countInstances) eqn:Hzero.
  { exists (Success EBM_FALSE values Float_zero Float_zero). split_and!; try done.
    simpl. unfold outcome_values. by rewrite Hzero. }
  destruct (RemoveMissingValues values _) as [[filtered pValuesEnd]|] eqn:Hfilter; simpl;
    [|exists Undefined; by split_and!].
  set (flag := if negb (Nat.eqb (Z.to_nat (to_size_t countInstances)) pValuesEnd)
               then EBM_TRUE else EBM_FALSE).
  assert (Hflag : flag = if Nat.eqb (Z.to_nat (to_size_t countInstances)) pValuesEnd
                         then EBM_FALSE else EBM_TRUE).
  { unfold flag. by destruct (Nat.eqb _ _). }
  destruct (0 =? ptr_diff pValuesEnd 0) eqn:Hnone.
  { exists (Success flag filtered Float_zero Float_zero). split_and!; try done.
    simpl. unfold outcome_values. rewrite Hzero. exists filtered, pValuesEnd.
    by rewrite Hnone. }
  match goal with
  | |- context [CutSortedValues ?e ?s ?mb ?mi ?b ?v ?p ?ci _] =>
      destruct (CutSortedValues_outcome e s mb mi b v p ci)
        as [Hn|(minVal & maxVal & Hmin & Hpos & Hmax & [Hf|Hs])]
  end.
  - exists Undefined. split_and!; first [done | intros; apply Hn].
  - exists (LateFailure flag (std_sort_range Float_lt filtered pValuesEnd) minVal maxVal).
    split; [|split; [done|]].
    + simpl. split; [by apply Z.eqb_neq in Hzero|]. unfold outcome_values. rewrite Hzero.
      exists filtered, pValuesEnd. by rewrite Hnone.
    + intros. apply Hf.
  - exists (Success flag (std_sort_range Float_lt filtered pValuesEnd) minVal maxVal).
    split; [|split; [done|]].
    + simpl. unfold outcome_values. rewrite Hzero.
      exists filtered, pValuesEnd. by rewrite Hnone.
    + intros. apply Hs.
Qed.

(** C1: whenever [GenerateQuantileCutPoints] returns the status 0, the count
    of cut points it reports is 0, whatever the values, the seed, the maximum
    number of bins and the minimum number of instances per bin. *)
Theorem GenerateQuantileCutPoints_success_no_cuts env randomSeed countInstances
    countMaximumBins countMinimumInstancesPerBin mem mem' :
  GenerateQuantileCutPoints env randomSeed countInstances countMaximumBins
    countMinimumInstancesPerBin mem = Some (0, mem') →
  countCutPoints mem' = 0.
Proof.
  destruct mem as [values cuts c m mn mx].
  destruct (GenerateQuantileCutPoints_outcome env randomSeed countInstances countMaximumBins
              countMinimumInstancesPerBin values) as (o & _ & _ & Hrun).
  rewrite Hrun. destruct o; simpl; intros [=]; by subst.
Qed.

Lemma GenerateQuantileCutPoints_success_no_cuts_witness :
  ∃ mem', GenerateQuantileCutPoints env_ok 0 4 2 1 (memory_1234 7) = Some (0, mem')
          ∧ countCutPoints mem' = 0.
Proof.
  eexists. split; [vm_compute; reflexivity|].
  eapply (GenerateQuantileCutPoints_success_no_cuts env_ok 0 4 2 1 (memory_1234 7)).
  vm_compute. reflexivity.
Defined.

(** C5, as the code has it: when [GenerateQuantileCutPoints] returns a
    status that is not 0, the status is 1, the cut-point count and the
    cut-point buffer are as the caller had them, and either a count does not
    fit [size_t] and nothing at all has been assigned, or the values have been
    filtered and sorted and the had-missing flag and the two extreme values
    have been assigned from them. *)
Theorem GenerateQuantileCutPoints_failure_outputs env randomSeed countInstances
    countMaximumBins countMinimumInstancesPerBin mem s mem' :
  GenerateQuantileCutPoints env randomSeed countInstances countMaximumBins
    countMinimumInstancesPerBin mem = Some (s, mem') →
  s ≠ 0 →
  s = 1
  ∧ countCutPoints mem' = countCutPoints mem
  ∧ cutPointsLowerBoundInclusive mem' = cutPointsLowerBoundInclusive mem
  ∧ ((IsNumberConvertable_size_t countInstances
      && IsNumberConvertable_size_t countMaximumBins
      && IsNumberConvertable_size_t countMinimumInstancesPerBin = false
      ∧ mem' = mem)
     ∨ (IsNumberConvertable_size_t countInstances
        && IsNumberConvertable_size_t countMaximumBins
        && IsNumberConvertable_size_t countMinimumInstancesPerBin = true
        ∧ to_size_t countInstances ≠ 0
        ∧ outcome_values countInstances (singleFeatureValues mem)
            (isMissing mem') (singleFeatureValues mem') (minValue mem') (maxValue mem'))).
Proof.
  destruct mem as [values cuts c m mn mx].
  destruct (GenerateQuantileCutPoints_outcome env randomSeed countInstances countMaximumBins
              countMinimumInstancesPerBin values) as (o & Hsound & Hsize & Hrun).
  rewrite Hrun. destruct o; simpl; intros [=] Hs; subst; try done.
  - split_and!; try done. left. split; [|done]. by apply Hsize.
  - split_and!; try done. right. destruct Hsound as [Hnz Hvals]. split_and!; try done.
    destruct (_ && _); [done|]. destruct Hsize as [_ Hsize]. discriminate (Hsize eq_refl).
Qed.

Lemma GenerateQuantileCutPoints_failure_outputs_witness :
  ∃ mem', GenerateQuantileCutPoints env_no_memory 0 4 2 1 (memory_1234 7) = Some (1, mem')
          ∧ countCutPoints mem' = 7.
Proof.
  eexists. split; [vm_compute; reflexivity|].
  eapply (GenerateQuantileCutPoints_failure_outputs env_no_memory 0 4 2 1 (memory_1234 7) 1);
    [vm_compute; reflexivity|lia].
Defined.

(** C5, as the claim has it, fails: when the allocation fails on the values
    1, 2, 3, 4, the status is 1 and the cut-point count is what the caller had
    there, 7 in one call and 8 in the other, so the outputs are not in a state
    that the call defines. *)
Lemma GenerateQuantileCutPoints_failure_count_unassigned :
  (∃ mem7 mem8,
     GenerateQuantileCutPoints env_no_memory 0 4 2 1 (memory_1234 7) = Some (1, mem7)
     ∧ GenerateQuantileCutPoints env_no_memory 0 4 2 1 (memory_1234 8) = Some (1, mem8)
     ∧ countCutPoints mem7 = 7 ∧ countCutPoints mem8 = 8)
  ∧ ¬ outputs_defined_on_failure.
Proof.
  split.
  - eexists _, _. split_and!; vm_compute; reflexivity.
  - intros Hdefined.
    destruct (GenerateQuantileCutPoints env_no_memory 0 4 2 1 (memory_1234 7))
      as [[s7 mem7]|] eqn:Hrun7; [|by vm_compute in Hrun7].
    destruct (GenerateQuantileCutPoints env_no_memory 0 4 2 1 (memory_1234 8))
      as [[s8 mem8]|] eqn:Hrun8; [|by vm_compute in Hrun8].
    destruct (Hdefined _ _ _ _ _ _ _ _ _ _ _ _ _ _ _ _ _ _ _ Hrun7 Hrun8) as [Hcount _].
    + vm_compute in Hrun7. by injection Hrun7 as <- _.
    + vm_compute in Hrun7, Hrun8. injection Hrun7 as _ <-. injection Hrun8 as _ <-.
      by vm_compute in Hcount.
Qed.

(** ** Calls that differ in the seed or in the environment *)

Lemma outcome_values_functional countInstances values f1 v1 mn1 mx1 f2 v2 mn2 mx2 :
  outcome_values countInstances values f1 v1 mn1 mx1 →
  outcome_values countInstances values f2 v2 mn2 mx2 →
  f1 = f2 ∧ v1 = v2 ∧ mn1 = mn2 ∧ mx1 = mx2.
Proof.
  unfold outcome_values. destruct (0 =? to_size_t countInstances).
  - intros (-> & -> & -> & ->) (-> & -> & -> & ->). done.
  - intros (filtered & pValuesEnd & Hrun & -> & H1) (filtered' & pValuesEnd' & Hrun' & -> & H2).
    rewrite Hrun in Hrun'. injection Hrun' as <- <-.
    destruct (0 =? ptr_diff pValuesEnd 0).
    + destruct H1 as (-> & -> & ->), H2 as (-> & -> & ->). done.
    + destruct H1 as (-> & Hmin1 & _ & Hmax1), H2 as (-> & Hmin2 & _ & Hmax2).
      rewrite Hmin1 in Hmin2. rewrite Hmax1 in Hmax2.
      injection Hmin2 as ->. injection Hmax2 as ->. done.
Qed.

(** Two calls on the same values and parameters that both return the status
    0 leave the same memory, whatever the seeds, the outcomes of the
    construction of the random stream and of the allocation, and the previous
    contents of the output parameters. *)
Lemma GenerateQuantileCutPoints_success_independent env1 env2 randomSeed1 randomSeed2
    countInstances countMaximumBins countMinimumInstancesPerBin values cuts
    c1 m1 mn1 mx1 c2 m2 mn2 mx2 r1 r2 :
  GenerateQuantileCutPoints env1 randomSeed1 countInstances countMaximumBins
    countMinimumInstancesPerBin (Build_Memory values cuts c1 m1 mn1 mx1) = Some (0, r1) →
  GenerateQuantileCutPoints env2 randomSeed2 countInstances countMaximumBins
    countMinimumInstancesPerBin (Build_Memory values cuts c2 m2 mn2 mx2) = Some (0, r2) →
  r1 = r2.
Proof.
  destruct (GenerateQuantileCutPoints_outcome env1 randomSeed1 countInstances countMaximumBins
              countMinimumInstancesPerBin values) as (o1 & Hsound1 & _ & Hrun1).
  destruct (GenerateQuantileCutPoints_outcome env2 randomSeed2 countInstances countMaximumBins
              countMinimumInstancesPerBin values) as (o2 & Hsound2 & _ & Hrun2).
  rewrite Hrun1, Hrun2.
  destruct o1 as [| |f1 v1 a1 b1|f1 v1 a1 b1]; simpl; intros [=]; subst.
  destruct o2 as [| |f2 v2 a2 b2|f2 v2 a2 b2]; simpl; intros [=]; subst.
  simpl in Hsound1, Hsound2.
  by destruct (outcome_values_functional _ _ _ _ _ _ _ _ _ _ Hsound1 Hsound2)
    as (-> & -> & -> & ->).
Qed.

(** The call uses its environment only for the construction of the random
    stream from the seed and for the allocation. *)
Lemma AssignCuts_same_environment env1 env2 randomSeed vals pValuesEnd cMaximumBins avgLength
    cMin c mem :
  same_environment randomSeed env1 env2 →
  AssignCuts env1 randomSeed vals pValuesEnd cMaximumBins avgLength cMin c mem
  = AssignCuts env2 randomSeed vals pValuesEnd cMaximumBins avgLength cMin c mem.
Proof. intros [Hrs Hmalloc]. unfold AssignCuts. by rewrite Hrs, Hmalloc. Qed.

Lemma GenerateQuantileCutPoints_same_environment env1 env2 randomSeed countInstances
    countMaximumBins countMinimumInstancesPerBin mem :
  same_environment randomSeed env1 env2 →
  GenerateQuantileCutPoints env1 randomSeed countInstances countMaximumBins
    countMinimumInstancesPerBin mem
  = GenerateQuantileCutPoints env2 randomSeed countInstances countMaximumBins
      countMinimumInstancesPerBin mem.
Proof.
  intros Henv. unfold GenerateQuantileCutPoints, CutSortedValues.
  repeat first
    [ done
    | rewrite (AssignCuts_same_environment env1 env2 _ _ _ _ _ _ _ _ Henv)
    | match goal with
      | |- (if ?b then _ else _) = _ => destruct b
      | |- (match ?x with _ => _ end) = _ => destruct x
      | |- (?x ≫= _) = _ => destruct x; simpl
      end ].
Qed.

(** C4, as the code has it: two calls of [GenerateQuantileCutPoints] with the
    same seed, the same values and the same parameters, in two environments and
    whatever the caller had in the output parameters.  When both return, each
    status is 0 or 1; the value buffers are the same, the cut-point buffer is
    untouched, and the had-missing flag and the two extreme values are
    assigned alike; the cut-point count is 0 after the status 0 and what the
    caller had after the status 1; after two statuses 0 the memories are
    equal.  The statuses themselves are equal when the construction of the
    random stream and the allocations have the same outcome in the two
    environments, and then both calls return or both are undefined. *)
Theorem GenerateQuantileCutPoints_deterministic_in_environment env1 env2 randomSeed
    countInstances countMaximumBins countMinimumInstancesPerBin values cuts
    c1 m1 mn1 mx1 c2 m2 mn2 mx2 :
  match GenerateQuantileCutPoints env1 randomSeed countInstances countMaximumBins
          countMinimumInstancesPerBin (Build_Memory values cuts c1 m1 mn1 mx1),
        GenerateQuantileCutPoints env2 randomSeed countInstances countMaximumBins
          countMinimumInstancesPerBin (Build_Memory values cuts c2 m2 mn2 mx2) with
  | Some (s1, r1), Some (s2, r2) =>
      (s1 = 0 ∨ s1 = 1) ∧ (s2 = 0 ∨ s2 = 1)
      ∧ singleFeatureValues r1 = singleFeatureValues r2
      ∧ cutPointsLowerBoundInclusive r1 = cuts
      ∧ cutPointsLowerBoundInclusive r2 = cuts
      ∧ same_assignment m1 m2 (isMissing r1) (isMissing r2)
      ∧ same_assignment mn1 mn2 (minValue r1) (minValue r2)
      ∧ same_assignment mx1 mx2 (maxValue r1) (maxValue r2)
      ∧ countCutPoints r1 = (if s1 =? 0 then 0 else c1)
      ∧ countCutPoints r2 = (if s2 =? 0 then 0 else c2)
      ∧ (s1 = 0 → s2 = 0 → r1 = r2)
      ∧ (same_environment randomSeed env1 env2 → s1 = s2)
  | None, None => True
  | _, _ => ¬ same_environment randomSeed env1 env2
  end.
Proof.
  destruct (GenerateQuantileCutPoints_outcome env1 randomSeed countInstances countMaximumBins
              countMinimumInstancesPerBin values) as (o1 & Hsound1 & Hsize1 & Hrun1).
  destruct (GenerateQuantileCutPoints_outcome env2 randomSeed countInstances countMaximumBins
              countMinimumInstancesPerBin values) as (o2 & Hsound2 & Hsize2 & Hrun2).
  assert (Hsame : same_environment randomSeed env1 env2 →
                  apply_outcome o1 (Build_Memory values cuts c2 m2 mn2 mx2)
                  = apply_outcome o2 (Build_Memory values cuts c2 m2 mn2 mx2)).
  { intros Henv. rewrite <- Hrun1, <- Hrun2.
    by apply GenerateQuantileCutPoints_same_environment. }
  assert (Hsize : o1 = SizeFailure ↔ o2 = SizeFailure) by (by rewrite Hsize1, Hsize2).
  rewrite Hrun1, Hrun2. unfold same_assignment.
  destruct o1 as [| |f1 v1 a1 b1|f1 v1 a1 b1], o2 as [| |f2 v2 a2 b2|f2 v2 a2 b2];
    simpl in *;
    try done;
    try (by intros Henv; specialize (Hsame Henv));
    try (by destruct Hsize as [H1 H2]; first [discriminate (H1 eq_refl) | discriminate (H2 eq_refl)]).
  - split_and!; auto; done.
  - destruct Hsound1 as [_ Hv1], Hsound2 as [_ Hv2].
    destruct (outcome_values_functional _ _ _ _ _ _ _ _ _ _ Hv1 Hv2) as (-> & -> & -> & ->).
    split_and!; auto; done.
  - destruct Hsound1 as [_ Hv1].
    destruct (outcome_values_functional _ _ _ _ _ _ _ _ _ _ Hv1 Hsound2) as (-> & -> & -> & ->).
    split_and!; auto; try done. intros Henv. by specialize (Hsame Henv).
  - destruct Hsound2 as [_ Hv2].
    destruct (outcome_values_functional _ _ _ _ _ _ _ _ _ _ Hsound1 Hv2) as (-> & -> & -> & ->).
    split_and!; auto; try done. intros Henv. by specialize (Hsame Henv).
  - destruct (outcome_values_functional _ _ _ _ _ _ _ _ _ _ Hsound1 Hsound2) as (-> & -> & -> & ->).
    split_and!; auto.
Qed.

Lemma GenerateQuantileCutPoints_deterministic_in_environment_witness :
  ∃ r1 r2,
    GenerateQuantileCutPoints env_ok 0 4 2 1 (memory_1234 7) = Some (0, r1)
    ∧ GenerateQuantileCutPoints env_no_memory 0 4 2 1 (memory_1234 8) = Some (1, r2)
    ∧ singleFeatureValues r1 = singleFeatureValues r2
    ∧ isMissing r1 = isMissing r2
    ∧ minValue r1 = minValue r2 ∧ maxValue r1 = maxValue r2
    ∧ countCutPoints r1 = 0 ∧ countCutPoints r2 = 8.
Proof.
  pose proof (GenerateQuantileCutPoints_deterministic_in_environment env_ok env_no_memory
                0 4 2 1 (map Float_of_size_t [1; 2; 3; 4]) [Float_zero]
                7 5 S754_nan S754_nan 8 5 S754_nan S754_nan) as Hrun.
  fold (memory_1234 7) (memory_1234 8) in Hrun.
  destruct (GenerateQuantileCutPoints env_ok 0 4 2 1 (memory_1234 7))
    as [[s1 r1]|] eqn:Hrun1; [|by vm_compute in Hrun1].
  destruct (GenerateQuantileCutPoints env_no_memory 0 4 2 1 (memory_1234 8))
    as [[s2 r2]|] eqn:Hrun2; [|by vm_compute in Hrun2].
  assert (s1 = 0) as -> by (vm_compute in Hrun1; by injection Hrun1 as <- _).
  assert (s2 = 1) as -> by (vm_compute in Hrun2; by injection Hrun2 as <- _).
  destruct Hrun as (_ & _ & Hvalues & _ & _ & Hflag & Hmin & Hmax & Hc1 & Hc2 & _).
  exists r1, r2. split_and!; try done.
  - destruct Hflag as [?|[? ?]]; congruence.
  - destruct Hmin as [?|[? ?]]; congruence.
  - destruct Hmax as [?|[? ?]]; congruence.
Defined.

(** C4, as the claim has it, fails: on the values 1, 2, 3, 4 with the seed 0
    and two bins the call returns the status 0 and the count 0 when the
    allocation succeeds, and the status 1 with the count as the caller had
    it, 7, when the allocation fails; so the status and the outputs are not a
    function of the seed, the values and the parameters alone. *)
Lemma GenerateQuantileCutPoints_status_depends_on_allocation :
  (∃ r0 r1,
     GenerateQuantileCutPoints env_ok 0 4 2 1 (memory_1234 7) = Some (0, r0)
     ∧ GenerateQuantileCutPoints env_no_memory 0 4 2 1 (memory_1234 7) = Some (1, r1)
     ∧ countCutPoints r0 = 0 ∧ countCutPoints r1 = 7)
  ∧ ¬ deterministic_in_seed_and_inputs.
Proof.
  split.
  - eexists _, _. split_and!; vm_compute; reflexivity.
  - intros Hdet.
    destruct (GenerateQuantileCutPoints env_ok 0 4 2 1 (memory_1234 7))
      as [[s0 r0]|] eqn:Hrun0; [|by vm_compute in Hrun0].
    destruct (GenerateQuantileCutPoints env_no_memory 0 4 2 1 (memory_1234 7))
      as [[s1 r1]|] eqn:Hrun1; [|by vm_compute in Hrun1].
    destruct (Hdet _ _ _ _ _ _ _ _ _ _ _ Hrun0 Hrun1) as [Hstatus _].
    vm_compute in Hrun0, Hrun1. injection Hrun0 as <- _. injection Hrun1 as <- _.
    discriminate Hstatus.
Qed.

(** ** Calls without a number among the values *)

Lemma IsNumberConvertable_size_t_true z :
  0 ≤ z ≤ INT64_MAX → IsNumberConvertable_size_t z = true.
Proof.
  unfold IsNumberConvertable_size_t, INT64_MAX, SIZE_MAX, size_t_bits. intros Hz.
  apply andb_true_iff. split; [apply Z.leb_le|apply Z.leb_le]; lia.
Qed.

Lemma to_size_t_small z : 0 ≤ z ≤ INT64_MAX → to_size_t z = z.
Proof.
  unfold to_size_t, INT64_MAX, size_t_bits. intros Hz. apply Z.mod_small. lia.
Qed.

Lemma nonmissing_none l : Forall (λ v, isnan v = true) l → nonmissing l = [].
Proof.
  induction 1 as [|v l Hv _ IH]; [done|].
  unfold nonmissing in *. rewrite filter_cons_False; [done|]. by rewrite Hv.
Qed.

Lemma nonmissing_length_lt l :
  (length (nonmissing l) < length l)%nat ↔ Exists (λ v, isnan v = true) l.
Proof.
  unfold nonmissing. induction l as [|v l IH]; simpl.
  - split; [lia|]. by intros ?%Exists_nil.
  - rewrite Exists_cons. destruct (isnan v) eqn:Hv.
    + rewrite filter_cons_False by (rewrite Hv; done).
      pose proof (length_filter (λ v, isnan v = false) l). split; [by left|lia].
    + rewrite filter_cons_True by done. simpl. rewrite <- IH. split; [right|intros [|]]; try done; lia.
Qed.

(** C9: a call of [GenerateQuantileCutPoints] with no instance returns the
    status 0 and assigns zero cut points, the had-missing flag [EBM_FALSE],
    and the minimum and the maximum 0; the two buffers are as they were. *)
Theorem GenerateQuantileCutPoints_no_instances env randomSeed countMaximumBins
    countMinimumInstancesPerBin mem :
  0 ≤ countMaximumBins ≤ INT64_MAX →
  0 ≤ countMinimumInstancesPerBin ≤ INT64_MAX →
  GenerateQuantileCutPoints env randomSeed 0 countMaximumBins countMinimumInstancesPerBin mem
  = Some (0, {| singleFeatureValues := singleFeatureValues mem;
                cutPointsLowerBoundInclusive := cutPointsLowerBoundInclusive mem;
                countCutPoints := 0;
                isMissing := EBM_FALSE;
                minValue := Float_zero;
                maxValue := Float_zero |}).
Proof.
  intros Hbins Hmin. unfold GenerateQuantileCutPoints.
  rewrite (IsNumberConvertable_size_t_true countMaximumBins) by done.
  rewrite (IsNumberConvertable_size_t_true countMinimumInstancesPerBin) by done.
  reflexivity.
Qed.

Lemma GenerateQuantileCutPoints_no_instances_witness :
  GenerateQuantileCutPoints env_ok 0 0 0 0 (memory_1234 7)
  = Some (0, {| singleFeatureValues := singleFeatureValues (memory_1234 7);
                cutPointsLowerBoundInclusive := cutPointsLowerBoundInclusive (memory_1234 7);
                countCutPoints := 0;
                isMissing := EBM_FALSE;
                minValue := Float_zero;
                maxValue := Float_zero |}).
Proof.
  apply (GenerateQuantileCutPoints_no_instances env_ok 0 0 0 (memory_1234 7));
    unfold INT64_MAX; lia.
Defined.

(** C10: a call of [GenerateQuantileCutPoints] on at least one value, all of
    them NaN, returns the status 0 and assigns zero cut points, the
    had-missing flag [EBM_TRUE], and the minimum and the maximum 0. *)
Theorem GenerateQuantileCutPoints_all_missing env randomSeed countInstances countMaximumBins
    countMinimumInstancesPerBin mem :
  1 ≤ countInstances ≤ INT64_MAX →
  Z.of_nat (length (singleFeatureValues mem)) = countInstances →
  Forall (λ v, isnan v = true) (singleFeatureValues mem) →
  0 ≤ countMaximumBins ≤ INT64_MAX →
  0 ≤ countMinimumInstancesPerBin ≤ INT64_MAX →
  ∃ mem',
    GenerateQuantileCutPoints env randomSeed countInstances countMaximumBins
      countMinimumInstancesPerBin mem = Some (0, mem')
    ∧ countCutPoints mem' = 0
    ∧ isMissing mem' = EBM_TRUE
    ∧ minValue mem' = Float_zero
    ∧ maxValue mem' = Float_zero
    ∧ length (singleFeatureValues mem') = length (singleFeatureValues mem)
    ∧ cutPointsLowerBoundInclusive mem' = cutPointsLowerBoundInclusive mem.
Proof.
  intros Hn Hlen Hnan Hbins Hmin. unfold GenerateQuantileCutPoints.
  rewrite !IsNumberConvertable_size_t_true by lia. simpl.
  rewrite to_size_t_small by lia.
  destruct (Z.eqb_spec 0 countInstances) as [|_]; [lia|].
  destruct (RemoveMissingValues_spec (singleFeatureValues mem) (Z.to_nat countInstances))
    as (a' & Hrun & Hlen' & _); [lia..|].
  rewrite take_ge, (nonmissing_none _ Hnan) in Hrun by lia. simpl in Hrun.
  rewrite Hrun. simpl.
  replace (Z.to_nat countInstances =? 0)%nat with false
    by (symmetry; apply Nat.eqb_neq; lia).
  eexists. split; [reflexivity|]. by simpl.
Qed.

Lemma GenerateQuantileCutPoints_all_missing_witness :
  ∃ mem',
    GenerateQuantileCutPoints env_ok 0 2 4 1
      (set_singleFeatureValues [S754_nan; S754_nan] (memory_1234 7)) = Some (0, mem')
    ∧ countCutPoints mem' = 0
    ∧ isMissing mem' = EBM_TRUE
    ∧ minValue mem' = Float_zero
    ∧ maxValue mem' = Float_zero
    ∧ length (singleFeatureValues mem') = 2%nat
    ∧ cutPointsLowerBoundInclusive mem' = [Float_zero].
Proof.
  apply (GenerateQuantileCutPoints_all_missing env_ok 0 2 4 1
           (set_singleFeatureValues [S754_nan; S754_nan] (memory_1234 7)));
    unfold INT64_MAX; simpl; try lia; try done.
  repeat constructor.
Defined.

(** ** The effective maximum bin count *)

(** The loop, started at the bit [2 ^ (d + 4)], when the maximum is one of
    the powers of two from 16 up to that bit. *)
Lemma GetCountBinsMax_loop_power d : ∀ fuel cMaximumBins,
  (d < fuel)%nat → 1 ≤ cMaximumBins ≤ SIZE_MAX →
  (∃ j, 4 ≤ j ≤ Z.of_nat d + 4 ∧ cMaximumBins = 2 ^ j) →
  GetCountBinsMax_loop fuel (2 ^ (Z.of_nat d + 4)) cMaximumBins = Some (cMaximumBins - 1).
Proof.
  induction d as [|d IH]; intros fuel cMax Hfuel Hrange (j & Hj & ->).
  all: destruct fuel as [|fuel]; [lia|]; simpl.
  all: assert (Hwrap : to_size_t (2 ^ j - 1) = 2 ^ j - 1)
         by (unfold to_size_t; apply Z.mod_small; unfold SIZE_MAX in Hrange; lia).
  - replace j with 4 by lia. change (Z.of_nat 0 + 4) with 4. rewrite Z.eqb_refl.
    by replace j with 4 in Hwrap by lia.
  - destruct (Z.eqb_spec (2 ^ (Z.of_nat (S d) + 4)) (2 ^ j)) as [_|Hne]; [by rewrite Hwrap|].
    assert (j ≠ Z.of_nat (S d) + 4) by (intros ->; done).
    rewrite Z.shiftr_div_pow2 by lia. change (2 ^ 1) with 2.
    replace (2 ^ (Z.of_nat (S d) + 4) `div` 2) with (2 ^ (Z.of_nat d + 4)).
    2:{ replace (Z.of_nat (S d) + 4) with (Z.succ (Z.of_nat d + 4)) by lia.
        rewrite Z.pow_succ_r by lia. rewrite Z.mul_comm, Z.div_mul; lia. }
    destruct (Z.eqb_spec 8 (2 ^ (Z.of_nat d + 4))) as [Heq|_].
    { assert (2 ^ 4 ≤ 2 ^ (Z.of_nat d + 4)) by (apply Z.pow_le_mono_r; lia). lia. }
    apply IH; [lia|done|]. exists j. split; [lia|done].
Qed.

(** The loop when the maximum is none of those powers of two. *)
Lemma GetCountBinsMax_loop_other d : ∀ fuel cMaximumBins,
  (d < fuel)%nat →
  (∀ j, 4 ≤ j ≤ Z.of_nat d + 4 → cMaximumBins ≠ 2 ^ j) →
  GetCountBinsMax_loop fuel (2 ^ (Z.of_nat d + 4)) cMaximumBins = Some cMaximumBins.
Proof.
  induction d as [|d IH]; intros fuel cMax Hfuel Hother.
  all: destruct fuel as [|fuel]; [lia|]; simpl.
  - destruct (Z.eqb_spec (2 ^ (Z.of_nat 0 + 4)) cMax) as [Heq|_].
    { exfalso. apply (Hother 4); [lia|]. by rewrite <- Heq. }
    reflexivity.
  - destruct (Z.eqb_spec (2 ^ (Z.of_nat (S d) + 4)) cMax) as [Heq|_].
    { exfalso. by apply (Hother (Z.of_nat (S d) + 4)); [lia|]. }
    rewrite Z.shiftr_div_pow2 by lia. change (2 ^ 1) with 2.
    replace (2 ^ (Z.of_nat (S d) + 4) `div` 2) with (2 ^ (Z.of_nat d + 4)).
    2:{ replace (Z.of_nat (S d) + 4) with (Z.succ (Z.of_nat d + 4)) by lia.
        rewrite Z.pow_succ_r by lia. rewrite Z.mul_comm, Z.div_mul; lia. }
    destruct (Z.eqb_spec 8 (2 ^ (Z.of_nat d + 4))) as [Heq|_].
    { assert (2 ^ 4 ≤ 2 ^ (Z.of_nat d + 4)) by (apply Z.pow_le_mono_r; lia). lia. }
    apply IH; [lia|]. intros j Hj. apply Hother. lia.
Qed.

(** C6: for a maximum number of bins of at least 2, [GetCountBinsMax] gives
    one bin less when missing values are present and the maximum is an exact
    power of two that is at least 16, and the maximum unchanged in every other
    case: without missing values, for a maximum that is no power of two, and
    for a maximum below 16. *)
Theorem GetCountBinsMax_spec bMissing countMaximumBins :
  2 ≤ countMaximumBins ≤ INT64_MAX →
  (bMissing = true → is_power_of_two countMaximumBins → 16 ≤ countMaximumBins →
   GetCountBinsMax bMissing countMaximumBins = Some (countMaximumBins - 1))
  ∧ (bMissing = false ∨ ¬ is_power_of_two countMaximumBins ∨ countMaximumBins < 16 →
     GetCountBinsMax bMissing countMaximumBins = Some countMaximumBins).
Proof.
  intros Hrange. unfold GetCountBinsMax.
  rewrite (to_size_t_small countMaximumBins) by lia.
  change (to_size_t (Z.shiftr (to_size_t (Z.lnot 0)) 1 + 1)) with (2 ^ (Z.of_nat 59 + 4)).
  change (Z.to_nat size_t_bits) with 64%nat.
  unfold INT64_MAX in Hrange. split.
  - intros -> (k & Hk & ->) Hlarge.
    apply GetCountBinsMax_loop_power; [lia|unfold SIZE_MAX, size_t_bits; lia|].
    exists k. split; [|done].
    assert (k < 63) by (apply (Z.pow_lt_mono_r_iff 2); lia).
    assert (¬ k < 4); [|lia].
    intros Hk4. assert (2 ^ k < 2 ^ 4) by (apply Z.pow_lt_mono_r; lia). lia.
  - intros Hcase. destruct bMissing; [|done].
    apply GetCountBinsMax_loop_other; [lia|]. intros j Hj ->.
    destruct Hcase as [|[Hnot|Hsmall]]; [done| |].
    + apply Hnot. exists j. split; [lia|done].
    + assert (2 ^ 4 ≤ 2 ^ j) by (apply Z.pow_le_mono_r; lia). lia.
Qed.

Lemma GetCountBinsMax_spec_witness :
  GetCountBinsMax true 256 = Some 255 ∧ GetCountBinsMax true 8 = Some 8.
Proof.
  split.
  - apply (GetCountBinsMax_spec true 256); [unfold INT64_MAX; lia|reflexivity| |lia].
    exists 8. split; [lia|reflexivity].
  - apply (GetCountBinsMax_spec true 8); [unfold INT64_MAX; lia|]. right. right. lia.
Defined.

(** ** Comparisons of binary64 numbers *)

Ltac SFcompare_cases :=
  repeat match goal with
         | |- context [Pos.compare_cont Eq ?x ?y] =>
             change (Pos.compare_cont Eq x y) with (Pos.compare x y)
         | H : context [Pos.compare_cont Eq ?x ?y] |- _ =>
             change (Pos.compare_cont Eq x y) with (Pos.compare x y) in H
         end;
  repeat match goal with
         | H : context [Z.compare ?x ?y] |- _ => destruct (Z.compare_spec x y)
         | H : context [Pos.compare ?x ?y] |- _ => destruct (Pos.compare_spec x y)
         | |- context [Z.compare ?x ?y] => destruct (Z.compare_spec x y)
         | |- context [Pos.compare ?x ?y] => destruct (Pos.compare_spec x y)
         end;
  simpl in *; try congruence; try lia.

(** [a < b] and [b <= c] give [a < c]. *)
Lemma SFcompare_lt_le_trans a b c :
  SFcompare a b = Some Lt →
  SFcompare b c = Some Lt ∨ SFcompare b c = Some Eq →
  SFcompare a c = Some Lt.
Proof.
  destruct a as [sa|sa| |sa ma ea], b as [sb|sb| |sb mb eb], c as [sc|sc| |sc mc ec];
    simpl; intros Hab [Hbc|Hbc]; try congruence;
    repeat match goal with s : bool |- _ => destruct s end;
    simpl in *; try congruence; SFcompare_cases.
Qed.

(** Two numbers of which the first is not below or equal to the second: the
    second is below the first. *)
Lemma SFcompare_Gt_Lt a b : SFcompare a b = Some Gt → SFcompare b a = Some Lt.
Proof.
  destruct a as [sa|sa| |sa ma ea], b as [sb|sb| |sb mb eb]; simpl; intros Hab;
    try congruence;
    repeat match goal with s : bool |- _ => destruct s end;
    simpl in *; try congruence; SFcompare_cases.
Qed.

Lemma SFcompare_not_nan a b :
  isnan a = false → isnan b = false → ∃ c, SFcompare a b = Some c.
Proof.
  destruct a as [sa|sa| |sa ma ea], b as [sb|sb| |sb mb eb]; simpl; intros Ha Hb;
    try congruence; eauto.
Qed.

Lemma Float_lt_le_trans a b c :
  Float_lt a b = true → Float_le b c = true → Float_le a c = true.
Proof.
  unfold Float_lt, Float_le, SFltb, SFleb. intros Hab Hbc.
  rewrite (SFcompare_lt_le_trans a b c); [done| |].
  - by destruct (SFcompare a b) as [[]|].
  - destruct (SFcompare b c) as [[]|]; auto; done.
Qed.

Lemma Float_lt_trans a b c :
  Float_lt a b = true → Float_lt b c = true → Float_lt a c = true.
Proof.
  unfold Float_lt, SFltb. intros Hab Hbc.
  rewrite (SFcompare_lt_le_trans a b c); [done| |].
  - by destruct (SFcompare a b) as [[]|].
  - destruct (SFcompare b c) as [[]|]; auto; done.
Qed.

Lemma Float_not_le_lt a b :
  isnan a = false → isnan b = false → Float_le a b = false → Float_lt b a = true.
Proof.
  unfold Float_lt, Float_le, SFltb, SFleb. intros Ha Hb Hab.
  destruct (SFcompare_not_nan a b Ha Hb) as [c Hc]. rewrite Hc in Hab.
  destruct c; try done. by rewrite (SFcompare_Gt_Lt a b Hc).
Qed.

Lemma SFcompare_irrefl a : SFcompare a a ≠ Some Lt.
Proof.
  destruct a as [sa|sa| |sa ma ea]; simpl; try congruence;
    repeat match goal with s : bool |- _ => destruct s end; simpl; try congruence;
    intros H; SFcompare_cases.
Qed.

Lemma Float_lt_not_le a b : Float_lt a b = true → Float_le b a = false.
Proof.
  unfold Float_lt, Float_le, SFltb, SFleb. intros Hab.
  destruct (SFcompare b a) as [[]|] eqn:Hba; try done.
  all: destruct (SFcompare_irrefl a).
  all: apply (SFcompare_lt_le_trans a b a); [by destruct (SFcompare a b) as [[]|]|auto].
Qed.

(** ** Binary64 arithmetic on counts *)

Lemma digits2_pos_bounds p :
  2 ^ (Z.pos (digits2_pos p) - 1) ≤ Z.pos p < 2 ^ Z.pos (digits2_pos p).
Proof.
  induction p as [p IH|p IH|]; simpl digits2_pos.
  - rewrite Pos2Z.inj_succ. replace (Z.succ (Z.pos (digits2_pos p)) - 1)
      with (Z.succ (Z.pos (digits2_pos p) - 1)) by lia.
    rewrite !Z.pow_succ_r by lia. lia.
  - rewrite Pos2Z.inj_succ. replace (Z.succ (Z.pos (digits2_pos p)) - 1)
      with (Z.succ (Z.pos (digits2_pos p) - 1)) by lia.
    rewrite !Z.pow_succ_r by lia. lia.
  - change (2 ^ (1 - 1)) with 1. change (2 ^ 1) with 2. lia.
Qed.

Lemma digits2_pos_unique p d :
  2 ^ (d - 1) ≤ Z.pos p < 2 ^ d → Z.pos (digits2_pos p) = d.
Proof.
  intros [Hlow Hhigh]. pose proof (digits2_pos_bounds p) as [Hlow' Hhigh'].
  assert (0 < d).
  { destruct (Z.lt_ge_cases 0 d) as [|Hd]; [done|].
    rewrite Z.pow_neg_r in Hlow by lia.
    destruct (Z.eq_dec d 0) as [->|]; [change (2 ^ 0) with 1 in Hhigh; lia|].
    rewrite Z.pow_neg_r in Hhigh by lia. lia. }
  assert (d - 1 < Z.pos (digits2_pos p)).
  { apply (Z.pow_lt_mono_r_iff 2); lia. }
  assert (Z.pos (digits2_pos p) - 1 < d).
  { apply (Z.pow_lt_mono_r_iff 2); lia. }
  lia.
Qed.

Lemma Pos_iter_xO p k : Z.pos (Pos.iter xO p k) = Z.pos p * 2 ^ Z.pos k.
Proof.
  induction k as [|k IH] using Pos.peano_ind.
  - simpl. change (2 ^ 1) with 2. lia.
  - rewrite Pos.iter_succ, Pos2Z.inj_succ, Z.pow_succ_r by lia.
    rewrite Pos2Z.inj_xO, IH. lia.
Qed.

Lemma shl_align_spec mx ex ex' :
  ex' ≤ ex →
  ∃ mz, shl_align mx ex ex' = (mz, ex') ∧ Z.pos mz = Z.pos mx * 2 ^ (ex - ex').
Proof.
  intros Hle. unfold shl_align. destruct (ex' - ex) as [|k|k] eqn:Hk; [|lia|].
  - replace ex' with ex by lia. exists mx. rewrite Z.sub_diag. change (2 ^ 0) with 1.
    split; [done|lia].
  - exists (Pos.iter xO mx k). split; [done|].
    rewrite Pos_iter_xO. f_equal. f_equal. lia.
Qed.

Lemma fexp_binary64 t : -1021 ≤ t → fexp prec emax t = t - 53.
Proof. unfold fexp, emin, prec, emax. lia. Qed.

Lemma shr_fexp_53 p e l :
  2 ^ 52 ≤ Z.pos p < 2 ^ 53 → -1074 ≤ e →
  shr_fexp prec emax (Z.pos p) e l = (shr_record_of_loc (Z.pos p) l, e).
Proof.
  intros Hp He. unfold shr_fexp. simpl Zdigits2.
  rewrite (digits2_pos_unique p 53) by (change (53 - 1) with 52; lia).
  rewrite fexp_binary64 by lia. replace (53 + e - 53 - e) with 0 by lia. reflexivity.
Qed.

Lemma shr_fexp_54 p e l :
  2 ^ 53 ≤ Z.pos p < 2 ^ 54 → -1074 ≤ e →
  shr_fexp prec emax (Z.pos p) e l = (shr_1 (shr_record_of_loc (Z.pos p) l), e + 1).
Proof.
  intros Hp He. unfold shr_fexp. simpl Zdigits2.
  rewrite (digits2_pos_unique p 54) by (change (54 - 1) with 53; lia).
  rewrite fexp_binary64 by lia. replace (54 + e - 53 - e) with 1 by lia. reflexivity.
Qed.

Lemma shr_record_of_loc_m m l : shr_m (shr_record_of_loc m l) = m.
Proof. by destruct l as [|[]]. Qed.

Lemma loc_of_shr_record_of_loc m l : loc_of_shr_record (shr_record_of_loc m l) = l.
Proof. by destruct l as [|[]]. Qed.

Lemma shr_1_m p l : shr_m (shr_1 (shr_record_of_loc (Z.pos p) l)) = Z.pos p / 2.
Proof.
  destruct l as [|[]], p as [p|p|]; simpl.
  all: first [apply Z.div_unique with 1; lia|apply Z.div_unique with 0; lia].
Qed.

Lemma shr_1_loc p l :
  loc_of_shr_record (shr_1 (shr_record_of_loc (Z.pos p) l))
  = loc_halved (Z.odd (Z.pos p)) l.
Proof. by destruct l as [|[]], p as [p|p|]. Qed.

Lemma round_nearest_even_range m l :
  m ≤ round_nearest_even m l ≤ m + 1.
Proof. unfold round_nearest_even. destruct l as [|[]]; try destruct (Z.even m); lia. Qed.

(** The rounding step of the operations on a mantissa of 53 or 54 bits: the
    result is a finite number with a mantissa of 53 bits whose value is the
    rounded mantissa. *)
Lemma binary_round_aux_quotient qp e l :
  2 ^ 52 ≤ Z.pos qp < 2 ^ 54 → -1074 ≤ e ≤ 960 →
  ∃ mant ef,
    binary_round_aux prec emax false (Z.pos qp) e l = S754_finite false mant ef
    ∧ 2 ^ 52 ≤ Z.pos mant < 2 ^ 53
    ∧ e ≤ ef ≤ e + 2
    ∧ Z.pos mant * 2 ^ (ef - e) = round_quotient (Z.pos qp) l.
Proof.
  intros Hq He. unfold binary_round_aux, round_quotient.
  assert (Hfinish : ∀ r e1 v,
            2 ^ 52 ≤ r ≤ 2 ^ 53 → e ≤ e1 ≤ e + 1 → r * 2 ^ (e1 - e) = v →
            ∃ mant ef,
              (let '(mrs'', e'') := shr_fexp prec emax r e1 loc_Exact in
               match shr_m mrs'' with
               | 0 => S754_zero false
               | Z.pos m =>
                   if e'' <=? emax - prec then S754_finite false m e''
                   else S754_infinity false
               | Z.neg _ => S754_nan
               end) = S754_finite false mant ef
              ∧ 2 ^ 52 ≤ Z.pos mant < 2 ^ 53 ∧ e ≤ ef ≤ e + 2
              ∧ Z.pos mant * 2 ^ (ef - e) = v).
  { intros r e1 v Hr He1 Hv. destruct r as [|rp|rp]; [lia| |lia].
    destruct (Z.lt_ge_cases (Z.pos rp) (2 ^ 53)) as [Hsmall|Hbig].
    - rewrite shr_fexp_53 by lia. cbv beta iota. rewrite shr_record_of_loc_m.
      destruct (Z.leb_spec e1 (emax - prec)); [|unfold emax, prec in *; lia].
      exists rp, e1. split_and!; try done; lia.
    - rewrite shr_fexp_54 by lia. cbv beta iota. rewrite shr_1_m.
      assert (Hhalf : Z.pos rp / 2 = 2 ^ 52).
      { replace (Z.pos rp) with (2 ^ 53) by lia. reflexivity. }
      rewrite Hhalf. change (2 ^ 52) with (Z.pos 4503599627370496).
      destruct (Z.leb_spec (e1 + 1) (emax - prec)); [|unfold emax, prec in *; lia].
      exists 4503599627370496%positive, (e1 + 1). split_and!; try done; try lia.
      rewrite <- Hv. replace (Z.pos rp) with (2 ^ 53) by lia.
      replace (e1 + 1 - e) with (Z.succ (e1 - e)) by lia.
      rewrite Z.pow_succ_r by lia. change (2 ^ 53) with (2 * Z.pos 4503599627370496). lia. }
  destruct (Z.ltb_spec (Z.pos qp) (2 ^ 53)) as [Hsmall|Hbig].
  - rewrite shr_fexp_53 by lia. cbv beta iota.
    rewrite shr_record_of_loc_m, loc_of_shr_record_of_loc.
    pose proof (round_nearest_even_range (Z.pos qp) l).
    apply Hfinish; [lia|lia|]. rewrite Z.sub_diag. change (2 ^ 0) with 1. lia.
  - rewrite shr_fexp_54 by lia. cbv beta iota. rewrite shr_1_m, shr_1_loc.
    pose proof (round_nearest_even_range (Z.pos qp / 2) (loc_halved (Z.odd (Z.pos qp)) l)).
    assert (2 ^ 52 ≤ Z.pos qp / 2 < 2 ^ 53).
    { split; [apply Z.div_le_lower_bound|apply Z.div_lt_upper_bound]; lia. }
    apply Hfinish; [lia|lia|]. replace (e + 1 - e) with 1 by lia. change (2 ^ 1) with 2. lia.
Qed.

(** The conversion of a count below [2 ^ 53] is exact, with a mantissa of 53
    bits. *)
Lemma Float_of_size_t_exact z :
  1 ≤ z < 2 ^ 53 →
  ∃ m e, Float_of_size_t z = S754_finite false m e
         ∧ -52 ≤ e ≤ 0 ∧ Z.pos m = z * 2 ^ (- e) ∧ 2 ^ 52 ≤ Z.pos m < 2 ^ 53.
Proof.
  intros Hz. destruct z as [|p|p]; [lia| |lia].
  unfold Float_of_size_t, binary_normalize, binary_round.
  pose proof (digits2_pos_bounds p) as Hd.
  set (d := Z.pos (digits2_pos p)) in *.
  assert (1 ≤ d ≤ 53).
  { split; [lia|]. assert (d - 1 < 53); [|lia]. apply (Z.pow_lt_mono_r_iff 2); lia. }
  rewrite fexp_binary64 by lia.
  destruct (shl_align_spec p 0 (d + 0 - 53)) as (mz & -> & Hmz); [lia|].
  assert (Hrange : 2 ^ 52 ≤ Z.pos mz < 2 ^ 53).
  { rewrite Hmz. replace (0 - (d + 0 - 53)) with (53 - d) by lia.
    replace 52 with ((d - 1) + (53 - d)) at 1 by lia.
    replace 53 with (d + (53 - d)) at 4 by lia.
    rewrite !Z.pow_add_r by lia. split.
    - apply Z.mul_le_mono_nonneg_r; lia.
    - apply Z.mul_lt_mono_pos_r; lia. }
  destruct (binary_round_aux_quotient mz (d + 0 - 53) loc_Exact) as (mant & ef & -> & Hm & He & Hv);
    [lia|lia|].
  unfold round_quotient in Hv. destruct (Z.ltb_spec (Z.pos mz) (2 ^ 53)); [|lia].
  simpl round_nearest_even in Hv.
  assert (ef = d + 0 - 53).
  { destruct (Z.eq_dec ef (d + 0 - 53)) as [|Hne]; [done|].
    assert (2 ^ 1 ≤ 2 ^ (ef - (d + 0 - 53))) by (apply Z.pow_le_mono_r; lia).
    change (2 ^ 1) with 2 in *. nia. }
  subst ef. rewrite Z.sub_diag in Hv. change (2 ^ 0) with 1 in Hv.
  exists mant, (d + 0 - 53). split_and!; try done; try lia.
  rewrite Z.mul_1_r in Hv. rewrite Hv, Hmz. f_equal.
Qed.

Lemma new_location_zero my : new_location my 0 = loc_Exact.
Proof. unfold new_location, new_location_even, new_location_odd. by destruct (Z.even my). Qed.

(** The division of two numbers with mantissas of 53 bits: the quotient of
    the mantissas, the first one shifted by 53 bits, is rounded. *)
Lemma SFdiv_mantissas mx ex my ey :
  2 ^ 52 ≤ Z.pos mx < 2 ^ 53 → 2 ^ 52 ≤ Z.pos my < 2 ^ 53 →
  -52 ≤ ex ≤ 0 → -52 ≤ ey ≤ 0 →
  SFdiv prec emax (S754_finite false mx ex) (S754_finite false my ey)
  = binary_round_aux prec emax false (Z.pos mx * 2 ^ 53 / Z.pos my) (ex - ey - 53)
      (new_location (Z.pos my) (Z.pos mx * 2 ^ 53 mod Z.pos my)).
Proof.
  intros Hmx Hmy Hex Hey. unfold SFdiv, SFdiv_core_binary. simpl Zdigits2.
  rewrite (digits2_pos_unique mx 53), (digits2_pos_unique my 53)
    by (change (53 - 1) with 52; lia).
  rewrite fexp_binary64 by lia.
  replace (Z.min (53 + ex - (53 + ey) - 53) (ex - ey)) with (ex - ey - 53) by lia.
  replace (ex - ey - (ex - ey - 53)) with 53 by lia.
  rewrite Z.shiftl_mul_pow2 by lia.
  unfold Z.div, Z.modulo. by destruct (Z.div_eucl (Z.pos mx * 2 ^ 53) (Z.pos my)).
Qed.

(** The integer ceiling of the rounded quotient is the ceiling of the exact
    quotient, when the rounding unit is small against the divisor. *)
Lemma ceil_round_quotient n b my q r U F l :
  1 ≤ n → 1 ≤ b →
  2 ^ 52 ≤ my < 2 ^ 53 → 2 ^ 52 ≤ q < 2 ^ 54 →
  (∃ U', 1 ≤ U' ∧ U = 2 * U') → 2 ^ 54 ≤ F →
  my * U = b * F → n * F = my * q + r → 0 ≤ r < my →
  (r = 0 → l = loc_Exact) →
  round_quotient q l / U + (if round_quotient q l mod U =? 0 then 0 else 1) = ceil_div n b.
Proof.
  intros Hn Hb Hmy Hq (U' & HU' & ->) HF HW HN Hr Hl.
  pose proof (Z.div_mod n b ltac:(lia)) as Hdiv.
  pose proof (Z.mod_pos_bound n b ltac:(lia)) as Hrho.
  set (K := n / b) in *. set (rho := n mod b) in *.
  assert (HK : 0 ≤ K) by (apply Z.div_pos; lia).
  assert (Hceil : ceil_div n b = K + (if rho =? 0 then 0 else 1)).
  { unfold ceil_div. destruct (Z.eqb_spec rho 0).
    - symmetry. apply Z.div_unique with (b - 1); lia.
    - symmetry. apply Z.div_unique with (rho - 1); lia. }
  rewrite Hceil. clear Hceil.
  assert (Hsplit : my * q + r = my * (2 * U' * K) + rho * F) by nia.
  set (V := round_quotient q l).
  destruct (Z.eqb_spec rho 0) as [Hexact|Hinexact].
  - subst rho. rewrite Hexact, Z.mul_0_l, Z.add_0_r in Hsplit.
    assert (Hd : r = my * (2 * U' * K - q)) by lia.
    assert (Hq' : q = 2 * U' * K).
    { destruct (Z.lt_trichotomy (2 * U' * K - q) 0) as [|[|]]; [nia|lia|nia]. }
    assert (Hr' : r = 0) by (rewrite Hd, Hq'; lia).
    assert (HV : V = q).
    { unfold V, round_quotient. rewrite (Hl Hr'). destruct (q <? 2 ^ 53); [done|].
      replace (Z.odd q) with false.
      2:{ rewrite Hq', <- Z.mul_assoc, Z.odd_mul. done. }
      simpl. rewrite Hq'. replace (2 * U' * K) with (U' * K * 2) by lia.
      rewrite Z.div_mul by lia. lia. }
    rewrite HV, Hq'. rewrite Z.mul_comm, Z.div_mul, Z.mod_mul by lia. done.
  - assert (Hlow : 2 * U' * K + 2 ≤ q) by nia.
    assert (Hhigh : q ≤ 2 * U' * (K + 1) - 1) by nia.
    assert (HV : 2 * U' * K < V ≤ 2 * U' * (K + 1)).
    { unfold V, round_quotient. destruct (q <? 2 ^ 53).
      - pose proof (round_nearest_even_range q l). lia.
      - pose proof (round_nearest_even_range (q / 2) (loc_halved (Z.odd q) l)).
        pose proof (Z.div_mod q 2 ltac:(lia)). pose proof (Z.mod_pos_bound q 2 ltac:(lia)).
        destruct (Z.eq_dec q (2 * U' * (K + 1) - 1)) as [Heq|Hne].
        + assert (q / 2 = U' * (K + 1) - 1).
          { symmetry. apply Z.div_unique with 1; lia. }
          lia.
        + lia. }
    destruct (Z.eq_dec V (2 * U' * (K + 1))) as [Htop|Hbelow].
    + rewrite Htop. rewrite Z.mul_comm, Z.div_mul, Z.mod_mul by lia. simpl. lia.
    + assert (V / (2 * U') = K) as ->.
      { symmetry. apply Z.div_unique with (V - 2 * U' * K); lia. }
      assert (V mod (2 * U') = V - 2 * U' * K) as ->.
      { symmetry. apply Z.mod_unique with K; lia. }
      destruct (Z.eqb_spec (V - 2 * U' * K) 0); lia.
Qed.

Lemma Float_to_size_t_of_size_t z :
  1 ≤ z < 2 ^ 53 → Float_to_size_t (Float_of_size_t z) = Some z.
Proof.
  intros Hz. destruct (Float_of_size_t_exact z Hz) as (m & e & -> & He & Hm & Hrange).
  unfold Float_to_size_t.
  assert (Hvalue : (if 0 <=? e then Z.pos m * 2 ^ e else Z.pos m / 2 ^ (- e)) = z).
  { destruct (Z.leb_spec 0 e).
    - replace e with 0 in * by lia. change (2 ^ 0) with 1. change (2 ^ (- 0)) with 1 in Hm. lia.
    - rewrite Hm. apply Z.div_mul. apply Z.pow_nonzero; lia. }
  rewrite Hvalue. unfold SIZE_MAX, size_t_bits.
  destruct (Z.leb_spec z (2 ^ 64 - 1)); [done|lia].
Qed.

Lemma Float_of_size_t_53 mant :
  2 ^ 52 ≤ Z.pos mant < 2 ^ 53 → Float_of_size_t (Z.pos mant) = S754_finite false mant 0.
Proof.
  intros Hmant. destruct (Float_of_size_t_exact (Z.pos mant)) as (m & e & -> & He & Hm & Hrange);
    [lia|].
  assert (e = 0).
  { destruct (Z.eq_dec e 0) as [|Hne]; [done|].
    assert (2 ^ 1 ≤ 2 ^ (- e)) by (apply Z.pow_le_mono_r; lia).
    change (2 ^ 1) with 2 in *. nia. }
  subst e. change (2 ^ (- 0)) with 1 in Hm. f_equal. lia.
Qed.

Lemma Float_lt_irrefl f : Float_lt f f = false.
Proof.
  unfold Float_lt, SFltb. pose proof (SFcompare_irrefl f).
  by destruct (SFcompare f f) as [[]|].
Qed.

Lemma GetAvgLength_loop_done fuel avgLength avgLengthFloat :
  Float_lt (Float_of_size_t avgLength) avgLengthFloat = false →
  GetAvgLength_loop fuel avgLength avgLengthFloat = Some avgLength.
Proof. intros Hlt. destruct fuel; simpl; by rewrite Hlt. Qed.

Lemma ceil_div_range n b : 1 ≤ n → 1 ≤ b → 1 ≤ ceil_div n b ≤ n.
Proof.
  intros Hn Hb. unfold ceil_div. split.
  - apply Z.div_le_lower_bound; lia.
  - apply Z.div_le_upper_bound; [lia|]. nia.
Qed.

(** For fewer than [2 ^ 52] instances and fewer than [2 ^ 53] bins the
    floating-point computation is exact: [GetAvgLength] gives the larger of
    the minimum number of instances per bin and the exact ceiling. *)
Lemma GetAvgLength_exact cInstances cMaximumBins cMinimumInstancesPerBin :
  1 ≤ cInstances < 2 ^ 52 → 1 ≤ cMaximumBins < 2 ^ 53 →
  GetAvgLength cInstances cMaximumBins cMinimumInstancesPerBin
  = Some (avgLength_spec cInstances cMaximumBins cMinimumInstancesPerBin).
Proof.
  intros Hn Hb. unfold GetAvgLength.
  destruct (Float_of_size_t_exact cInstances) as (mx & ex & -> & Hex & Hmx & Hxrange); [lia|].
  destruct (Float_of_size_t_exact cMaximumBins) as (my & ey & -> & Hey & Hmy & Hyrange); [lia|].
  assert (Hex' : ex ≤ -1).
  { destruct (Z.eq_dec ex 0) as [->|]; [|lia]. change (2 ^ (- 0)) with 1 in Hmx. lia. }
  unfold Float_div. rewrite SFdiv_mantissas by lia.
  pose proof (Z.div_mod (Z.pos mx * 2 ^ 53) (Z.pos my) ltac:(lia)) as Hdiv.
  pose proof (Z.mod_pos_bound (Z.pos mx * 2 ^ 53) (Z.pos my) ltac:(lia)) as Hr.
  set (q := Z.pos mx * 2 ^ 53 / Z.pos my) in *.
  set (r := Z.pos mx * 2 ^ 53 mod Z.pos my) in *.
  set (l := new_location (Z.pos my) r).
  assert (Hq : 2 ^ 52 ≤ q < 2 ^ 54).
  { unfold q. split.
    - apply Z.div_le_lower_bound; [lia|]. nia.
    - apply Z.div_lt_upper_bound; [lia|]. nia. }
  destruct q as [|qp|qp] eqn:Hqp; [lia| |lia]. rewrite <- Hqp in *.
  destruct (binary_round_aux_quotient qp (ex - ey - 53) l) as (mant & ef & HR & Hmant & Hef & HV);
    [lia|lia|].
  rewrite <- Hqp in HR, HV. rewrite HR.
  set (U := 2 ^ (- (ex - ey - 53))).
  assert (HUpos : 0 < U) by (apply Z.pow_pos_nonneg; lia).
  assert (Hceil : round_quotient q l / U + (if round_quotient q l mod U =? 0 then 0 else 1)
                  = ceil_div cInstances cMaximumBins).
  { apply (ceil_round_quotient cInstances cMaximumBins (Z.pos my) q r U (2 ^ (53 - ex)) l);
      try lia.
    - exists (2 ^ (- (ex - ey - 53) - 1)).
      assert (0 < 2 ^ (- (ex - ey - 53) - 1)) by (apply Z.pow_pos_nonneg; lia).
      split; [lia|].
      unfold U. rewrite <- Z.pow_succ_r by lia. f_equal. lia.
    - change (2 ^ 54) with (2 ^ (53 - -1)). apply Z.pow_le_mono_r; lia.
    - rewrite Hmy. unfold U. rewrite <- !Z.mul_assoc, <- Z.pow_add_r by lia.
      do 2 f_equal. lia.
    - rewrite <- Hdiv, Hmx. rewrite <- !Z.mul_assoc, <- Z.pow_add_r by lia.
      do 2 f_equal. lia.
    - intros Hzero. unfold l. rewrite Hzero. apply new_location_zero. }
  pose proof (ceil_div_range cInstances cMaximumBins ltac:(lia) ltac:(lia)) as Hc.
  set (c := ceil_div cInstances cMaximumBins) in *.
  assert (Hfinal : Float_to_size_t (Float_ceil (S754_finite false mant ef)) = Some c
                   ∧ Float_lt (Float_of_size_t c) (Float_ceil (S754_finite false mant ef)) = false).
  { unfold Float_ceil. destruct (Z.leb_spec 0 ef) as [Hzero|Hneg].
    - replace ef with 0 in * by lia.
      assert (Hc' : Z.pos mant = c).
      { rewrite <- Hceil, <- HV. unfold U. replace (0 - (ex - ey - 53)) with (- (ex - ey - 53)) by lia.
        rewrite Z.div_mul, Z.mod_mul by lia. simpl. lia. }
      rewrite <- Hc'. rewrite Float_of_size_t_53 by done. split; [|apply Float_lt_irrefl].
      simpl. rewrite Z.mul_1_r. unfold SIZE_MAX, size_t_bits.
      destruct (Z.leb_spec (Z.pos mant) (2 ^ 64 - 1)); [done|lia].
    - assert (Hc' : (if Z.pos mant mod 2 ^ (- ef) =? 0 then Z.pos mant / 2 ^ (- ef)
                     else Z.pos mant / 2 ^ (- ef) + 1) = c).
      { rewrite <- Hceil, <- HV. unfold U.
        replace (- (ex - ey - 53)) with ((- ef) + (ef - (ex - ey - 53))) by lia.
        rewrite Z.pow_add_r by lia.
        assert (0 < 2 ^ (- ef)) by (apply Z.pow_pos_nonneg; lia).
        assert (0 < 2 ^ (ef - (ex - ey - 53))) by (apply Z.pow_pos_nonneg; lia).
        rewrite Z.div_mul_cancel_r by lia. rewrite Z.mul_mod_distr_r by lia.
        destruct (Z.eqb_spec (Z.pos mant mod 2 ^ (- ef)) 0) as [->|Hne]; [simpl; lia|].
        destruct (Z.eqb_spec (Z.pos mant mod 2 ^ (- ef) * 2 ^ (ef - (ex - ey - 53))) 0); [nia|lia]. }
      rewrite Hc'. fold (Float_of_size_t c). split; [|apply Float_lt_irrefl].
      apply Float_to_size_t_of_size_t. lia. }
  destruct Hfinal as [-> Hlt]. cbn [mbind option_bind].
  rewrite GetAvgLength_loop_done by done. cbn [mbind option_bind].
  unfold avgLength_spec. fold c. f_equal.
  destruct (Z.ltb_spec c cMinimumInstancesPerBin); lia.
Qed.

(** ** The average length *)

(** C7 fails on the code: for [2 ^ 53 + 1] instances and 2 bins the
    conversion of the count to binary64 rounds it down to [2 ^ 53], and
    [GetAvgLength] gives [2 ^ 52], which is below the exact ceiling
    [2 ^ 52 + 1] of the rational. *)
Theorem GetAvgLength_below_ceiling :
  GetAvgLength 9007199254740993 2 1 = Some 4503599627370496
  ∧ avgLength_spec 9007199254740993 2 1 = 4503599627370497.
Proof. split; vm_compute; reflexivity. Qed.

(** ** [Discretize] *)

(** The cut points that the assertion loop of the debug build accepts are
    increasing over any distance. *)
Lemma strictly_increasing_lookup cuts :
  strictly_increasing cuts →
  ∀ i j a b, cuts !! i = Some a → cuts !! j = Some b → (i < j)%nat → Float_lt a b = true.
Proof.
  intros Hinc i j. revert i. induction j as [|j IH]; intros i a b Ha Hb Hij; [lia|].
  destruct (lookup_lt_is_Some_2 cuts j) as [c Hc].
  { apply lookup_lt_Some in Hb. lia. }
  destruct (decide (i = j)) as [->|Hne].
  - rewrite Ha in Hc. injection Hc as ->. by apply (Hinc j).
  - apply (Float_lt_trans a c b); [apply (IH i); [done..|lia]|by apply (Hinc j)].
Qed.

(** On increasing cut points, a cut point that is not above [v] has only such
    cut points in front of it. *)
Lemma cut_le_downward cuts v i j a b :
  strictly_increasing cuts →
  cuts !! i = Some a → cuts !! j = Some b → (i ≤ j)%nat →
  Float_le b v = true → Float_le a v = true.
Proof.
  intros Hinc Ha Hb Hij Hle. destruct (decide (i = j)) as [->|Hne].
  - rewrite Ha in Hb. by injection Hb as ->.
  - apply (Float_lt_le_trans a b v); [|done].
    apply (strictly_increasing_lookup cuts Hinc i j); [done..|lia].
Qed.

(** The cut points not above [v] are the first [count_le cuts v] ones. *)
Lemma count_le_lookup cuts v :
  strictly_increasing cuts →
  ∀ j c, cuts !! j = Some c → (Z.of_nat j < count_le cuts v ↔ Float_le c v = true).
Proof.
  unfold count_le. induction cuts as [|x cuts IH]; intros Hinc j c Hc; [done|].
  assert (Hinc' : strictly_increasing cuts).
  { intros i a b Ha Hb. apply (Hinc (S i)); done. }
  destruct (Float_le x v) eqn:Hx.
  - rewrite filter_cons_True by done. destruct j as [|j]; simpl in Hc.
    + injection Hc as <-. simpl. split; [done|lia].
    + simpl length. rewrite <- (IH Hinc' j c Hc). lia.
  - rewrite filter_cons_False by (rewrite Hx; done).
    assert (Hnone : Forall (λ c, ¬ Float_le c v = true) cuts).
    { apply Forall_lookup. intros i a Ha Hle.
      rewrite (cut_le_downward (x :: cuts) v 0 (S i) x a) in Hx; done || lia. }
    assert (Hempty : filter (λ c, Float_le c v = true) cuts = []).
    { clear -Hnone. induction Hnone as [|a l Ha _ IHl]; [done|].
      by rewrite filter_cons_False. }
    rewrite Hempty. simpl. split; [lia|]. intros Hle.
    destruct j as [|j]; simpl in Hc; [by injection Hc as <-; congruence|].
    by destruct (Forall_lookup_1 _ _ _ _ Hnone Hc).
Qed.

Lemma count_le_range cuts v : 0 ≤ count_le cuts v ≤ Z.of_nat (length cuts).
Proof.
  unfold count_le. pose proof (length_filter (λ c, Float_le c v = true) cuts). lia.
Qed.

(** The index that has only cut points not above [v] in front of it and only
    cut points above [v] (or not comparable with it) from it on is the number
    of cut points not above [v]. *)
Lemma count_le_unique cuts v r :
  strictly_increasing cuts →
  0 ≤ r ≤ Z.of_nat (length cuts) →
  (∀ j c, cuts !! j = Some c → Z.of_nat j < r → Float_le c v = true) →
  (∀ j c, cuts !! j = Some c → r ≤ Z.of_nat j → Float_le c v = false) →
  r = count_le cuts v.
Proof.
  intros Hinc Hr Hlow Hhigh. pose proof (count_le_range cuts v) as Hcount.
  destruct (Z.lt_trichotomy r (count_le cuts v)) as [Hlt|[Heq|Hgt]]; [|done|].
  - destruct (lookup_lt_is_Some_2 cuts (Z.to_nat r)) as [c Hc]; [lia|].
    assert (Float_le c v = true) by (apply (count_le_lookup cuts v Hinc _ _ Hc); lia).
    assert (Float_le c v = false) by (apply (Hhigh _ _ Hc); lia). congruence.
  - destruct (lookup_lt_is_Some_2 cuts (Z.to_nat (count_le cuts v))) as [c Hc]; [lia|].
    assert (Float_le c v = true) as Hle by (apply (Hlow _ _ Hc); lia).
    apply (count_le_lookup cuts v Hinc _ _ Hc) in Hle. lia.
Qed.

Lemma load_Some {A} (a : list A) (i : Z) :
  0 ≤ i < Z.of_nat (length a) → ∃ x, load a i = Some x ∧ a !! Z.to_nat i = Some x.
Proof.
  intros Hi. unfold load.
  destruct (Z.leb_spec 0 i); [|lia]. destruct (Z.ltb_spec i (Z.of_nat (length a))); [|lia].
  simpl. destruct (lookup_lt_is_Some_2 a (Z.to_nat i)) as [x Hx]; [lia|]. eauto.
Qed.

(** The binary search, from a state in which the cut points in front of
    [low] are not above [val] and those behind [high] are. *)
Lemma Discretize_search_spec cuts val :
  strictly_increasing cuts →
  Z.of_nat (length cuts) ≤ INT64_MAX →
  ∀ fuel low high,
    0 ≤ low ≤ high → high < Z.of_nat (length cuts) →
    high - low < Z.of_nat fuel →
    (∀ j c, cuts !! j = Some c → Z.of_nat j < low → Float_le c val = true) →
    (∀ j c, cuts !! j = Some c → high < Z.of_nat j → Float_le c val = false) →
    ∃ middle midVal,
      Discretize_search fuel cuts val low high = Some (middle, midVal)
      ∧ (if Float_le midVal val then middle + 1 else middle) = count_le cuts val.
Proof.
  intros Hinc Hlen. induction fuel as [|fuel IH]; intros low high Hlow Hhigh Hfuel Hle Hgt;
    [lia|].
  simpl. rewrite Z.shiftr_div_pow2 by lia. change (2 ^ 1) with 2.
  set (middle := (low + high) `div` 2).
  assert (Hmid : low ≤ middle ≤ high).
  { unfold middle. split; [apply Z.div_le_lower_bound|apply Z.div_le_upper_bound]; lia. }
  assert (Hwrap : to_size_t middle = middle).
  { apply to_size_t_small. lia. }
  rewrite Hwrap. destruct (load_Some cuts middle) as (midVal & -> & HmidVal); [lia|]. simpl.
  destruct (Float_le midVal val) eqn:Hcmp.
  - assert (Hle' : ∀ j c, cuts !! j = Some c → Z.of_nat j < middle + 1 → Float_le c val = true).
    { intros j c Hc Hj.
      apply (cut_le_downward cuts val j (Z.to_nat middle) c midVal); [done..|lia|done]. }
    destruct (Z.leb_spec (middle + 1) high).
    + apply IH; [lia..|done|done].
    + exists middle, midVal. rewrite Hcmp. split; [done|].
      apply count_le_unique; [done|lia|done|]. intros j c Hc Hj. apply (Hgt j c Hc). lia.
  - assert (Hgt' : ∀ j c, cuts !! j = Some c → middle - 1 < Z.of_nat j → Float_le c val = false).
    { intros j c Hc Hj. destruct (Float_le c val) eqn:Hc'; [|done].
      rewrite (cut_le_downward cuts val (Z.to_nat middle) j midVal c) in Hcmp; [done..|lia|done]. }
    destruct (Z.leb_spec low (middle - 1)).
    + apply IH; [lia..|done|done].
    + exists middle, midVal. rewrite Hcmp. split; [done|].
      apply count_le_unique; [done|lia| |]; intros j c Hc Hj.
      * apply (Hle j c Hc). lia.
      * apply (Hgt' j c Hc). lia.
Qed.

(** The three loop bodies give the bin of the specification. *)
Lemma Discretize_noCuts_bin isMissing val :
  Discretize_noCuts isMissing val = Some (bin_index (negb (EBM_FALSE =? isMissing)) [] val).
Proof.
  unfold Discretize_noCuts, bin_index, count_le. simpl.
  by destruct (isnan val), (negb (EBM_FALSE =? isMissing)).
Qed.

Lemma Discretize_withMissing_bin cuts val :
  strictly_increasing cuts → (1 ≤ length cuts)%nat → Z.of_nat (length cuts) ≤ INT64_MAX →
  Discretize_withMissing cuts (Z.of_nat (length cuts) - 1) val
  = Some (bin_index true cuts val).
Proof.
  intros Hinc Hpos Hlen. unfold Discretize_withMissing, bin_index.
  destruct (isnan val); [done|]. cbn [negb].
  destruct (Discretize_search_spec cuts val Hinc Hlen
              (S (Z.to_nat (Z.of_nat (length cuts) - 1))) 0 (Z.of_nat (length cuts) - 1))
    as (middle & midVal & -> & Hbin); [lia..| | |].
  - intros j c _ Hj. lia.
  - intros j c Hc%lookup_lt_Some Hj. lia.
  - simpl. rewrite <- Hbin. destruct (Float_le midVal val); f_equal; lia.
Qed.

Lemma Discretize_noMissing_bin cuts val :
  strictly_increasing cuts → (1 ≤ length cuts)%nat → Z.of_nat (length cuts) ≤ INT64_MAX →
  Discretize_noMissing cuts (Z.of_nat (length cuts) - 1) val
  = Some (bin_index false cuts val).
Proof.
  intros Hinc Hpos Hlen. unfold Discretize_noMissing, bin_index.
  destruct (isnan val); [done|]. cbn [negb].
  destruct (Discretize_search_spec cuts val Hinc Hlen
              (S (Z.to_nat (Z.of_nat (length cuts) - 1))) 0 (Z.of_nat (length cuts) - 1))
    as (middle & midVal & -> & Hbin); [lia..| | |].
  - intros j c _ Hj. lia.
  - intros j c Hc%lookup_lt_Some Hj. lia.
  - simpl. by rewrite <- Hbin.
Qed.

(** The loop over the values, for a loop body that gives [f val] for every
    value. *)
Lemma Discretize_loop_spec bin (f : FloatEbmType → Z) values :
  (∀ val, bin val = Some (f val)) →
  ∀ fuel discretized p,
    (p < length values)%nat → (length values - p ≤ fuel)%nat →
    (length values ≤ length discretized)%nat →
    Discretize_loop fuel bin values discretized p p (length values)
    = Some (take p discretized ++ (f <$> drop p values) ++ drop (length values) discretized).
Proof.
  intros Hbin. induction fuel as [|fuel IH]; intros d p Hp Hfuel Hlen; [lia|].
  simpl. destruct (lookup_lt_is_Some_2 values p) as [val Hval]; [done|].
  rewrite Hval. simpl. rewrite Hbin. simpl. rewrite store_Some by lia. simpl.
  rewrite (drop_S _ _ _ Hval). case_decide as Hend.
  - rewrite IH by (rewrite ?length_insert; lia).
    rewrite (take_S_r _ _ (f val)) by (apply list_lookup_insert_eq; lia).
    rewrite take_insert_ge, drop_insert_lt by lia. by rewrite <- app_assoc.
  - assert (length values = S p) as Hlast by lia.
    rewrite (drop_ge values (S p)) by lia. simpl.
    rewrite Hlast. rewrite insert_take_drop by lia. done.
Qed.

Lemma to_ptrdiff_t_small z : 0 ≤ z ≤ INT64_MAX → to_ptrdiff_t z = z.
Proof.
  unfold to_ptrdiff_t, INT64_MAX. intros Hz.
  rewrite Z.mod_small by lia. lia.
Qed.

(** C2: on strictly increasing cut points [Discretize] gives every value that
    is a number the number [i] of cut points that are not above it, which is
    the one index with [cut[i-1] <= v < cut[i]] (no bound below for [i = 0], no
    bound above for [i = cutCount]); when missing values are expected every
    such index is shifted up by one and NaN gets 0, and otherwise NaN gets
    -1. *)
Theorem Discretize_bin_index isMissing cuts values discretized :
  strictly_increasing cuts →
  Z.of_nat (length cuts) ≤ INT64_MAX →
  Z.of_nat (length values) ≤ INT64_MAX →
  length discretized = length values →
  Discretize isMissing (Z.of_nat (length cuts)) cuts (Z.of_nat (length values)) values
    discretized
  = Some (bin_index (negb (EBM_FALSE =? isMissing)) cuts <$> values)
  ∧ bin_index true cuts S754_nan = 0
  ∧ bin_index false cuts S754_nan = -1
  ∧ ∀ v, isnan v = false →
      bin_index true cuts v = count_le cuts v + 1
      ∧ bin_index false cuts v = count_le cuts v
      ∧ 0 ≤ count_le cuts v ≤ Z.of_nat (length cuts)
      ∧ (∀ j c, cuts !! j = Some c → Z.of_nat j < count_le cuts v → Float_le c v = true)
      ∧ (∀ j c, cuts !! j = Some c → count_le cuts v ≤ Z.of_nat j →
           Float_le c v = false ∧ (isnan c = false → Float_lt v c = true))
      ∧ (∀ i, (i ≤ length cuts)%nat →
           (∀ c, cuts !! (i - 1)%nat = Some c → (0 < i)%nat → Float_le c v = true) →
           (∀ c, cuts !! i = Some c → Float_lt v c = true) →
           Z.of_nat i = count_le cuts v).
Proof.
  intros Hinc Hcuts Hvalues Hlen. split_and!; [|done|done|].
  - unfold Discretize. destruct (Z.ltb_spec 0 (Z.of_nat (length values))) as [Hpos|Hnone].
    2:{ destruct values; [|simpl in Hnone; lia]. by destruct discretized. }
    rewrite !to_size_t_small by lia. rewrite Nat2Z.id.
    set (bin := if 0 =? Z.of_nat (length cuts) then _ else _).
    rewrite (Discretize_loop_spec bin (bin_index (negb (EBM_FALSE =? isMissing)) cuts));
      [|intros val|lia..].
    + rewrite take_0, drop_0, drop_ge by lia. by rewrite app_nil_r.
    + unfold bin. destruct (Z.eqb_spec 0 (Z.of_nat (length cuts))) as [Hzero|Hnz].
      * destruct cuts; [|simpl in Hzero; lia]. apply Discretize_noCuts_bin.
      * rewrite to_ptrdiff_t_small by lia.
        destruct (negb (EBM_FALSE =? isMissing));
          [apply Discretize_withMissing_bin|apply Discretize_noMissing_bin]; done || lia.
  - intros v Hv. unfold bin_index. rewrite Hv. split_and!; try done.
    + apply count_le_range.
    + apply count_le_range.
    + intros j c Hc Hj. by apply (count_le_lookup cuts v Hinc j c Hc).
    + intros j c Hc Hj.
      assert (Hnot : Float_le c v = false).
      { destruct (Float_le c v) eqn:Hle; [|done].
        apply (count_le_lookup cuts v Hinc j c Hc) in Hle. lia. }
      split; [done|]. intros Hnan. by apply Float_not_le_lt.
    + intros i Hi Hbelow Habove. apply count_le_unique; [done|lia| |].
      * intros j c Hc Hj.
        destruct (lookup_lt_is_Some_2 cuts (i - 1)) as [b Hb]; [lia|].
        apply (cut_le_downward cuts v j (i - 1) c b); [done..|lia|].
        apply Hbelow; [done|lia].
      * intros j c Hc Hj. destruct (Float_le c v) eqn:Hle; [|done].
        destruct (lookup_lt_is_Some_2 cuts i) as [b Hb].
        { apply lookup_lt_Some in Hc. lia. }
        assert (Float_le b v = true)
          by (apply (cut_le_downward cuts v i j b c); [done..|lia|done]).
        assert (Float_le b v = false) by (by apply Float_lt_not_le, Habove).
        congruence.
Qed.

Lemma Discretize_bin_index_witness :
  Discretize EBM_TRUE 3 (Float_of_size_t <$> [2; 4; 6]) 4
    ((Float_of_size_t <$> [1; 4; 7]) ++ [S754_nan]) [9; 9; 9; 9]
  = Some [1; 3; 4; 0].
Proof.
  destruct (Discretize_bin_index EBM_TRUE (Float_of_size_t <$> [2; 4; 6])
              ((Float_of_size_t <$> [1; 4; 7]) ++ [S754_nan]) [9; 9; 9; 9])
    as [Hrun _].
  - intros [|[|[|i]]] a b; simpl; intros [= <-] [= <-]; reflexivity.
  - unfold INT64_MAX. simpl. lia.
  - unfold INT64_MAX. simpl. lia.
  - reflexivity.
  - exact Hrun.
Defined.

(** ** [std::sort] *)

Section std_sort.
Context {A : Type} (comp : A → A → bool).

Lemma std_sort_insert_Permutation x l : std_sort_insert comp x l ≡ₚ x :: l.
Proof.
  induction l as [|y l IH]; simpl; [done|].
  destruct (comp y x); [|done]. rewrite IH. apply Permutation_swap.
Qed.

Lemma std_sort_Permutation l : std_sort comp l ≡ₚ l.
Proof.
  induction l as [|x l IH]; simpl; [done|].
  rewrite std_sort_insert_Permutation. by rewrite IH.
Qed.

Lemma std_sort_length l : length (std_sort comp l) = length l.
Proof. apply Permutation_length, std_sort_Permutation. Qed.

(** A comparison that never orders two elements both ways and for which
    "not less than" is transitive. *)
Hypothesis comp_asym : ∀ x y, comp x y = true → comp y x = false.
Hypothesis comp_trans : ∀ x y z, comp y x = false → comp z y = false → comp z x = false.

Lemma std_sort_insert_sorted x l :
  StronglySorted (λ a b, comp b a = false) l →
  StronglySorted (λ a b, comp b a = false) (std_sort_insert comp x l).
Proof.
  induction 1 as [|y l Hsorted IH Hy]; simpl; [repeat constructor|].
  destruct (comp y x) eqn:Hyx.
  - constructor; [done|].
    rewrite std_sort_insert_Permutation. constructor; [by apply comp_asym|done].
  - constructor; [by constructor|]. constructor; [done|].
    eapply Forall_impl; [exact Hy|]. intros z Hz. simpl in Hz. by apply (comp_trans x y z).
Qed.

Lemma std_sort_sorted l : StronglySorted (λ a b, comp b a = false) (std_sort comp l).
Proof.
  induction l as [|x l IH]; simpl; [constructor|]. by apply std_sort_insert_sorted.
Qed.

(** Where the comparison orders any two different elements of the array,
    the sorted array is the only sorted permutation of the array. *)
Lemma std_sort_unique l l' :
  (∀ x y, x ∈ l → y ∈ l → comp x y = false → comp y x = false → x = y) →
  l' ≡ₚ l → StronglySorted (λ a b, comp b a = false) l' → l' = std_sort comp l.
Proof.
  intros Htotal Hperm Hsorted.
  apply (StronglySorted_unique_strong (λ a b, comp b a = false)); [|done| |].
  - intros x1 x2 Hx1 Hx2 H1 H2. apply Htotal; [by rewrite <- Hperm| |done|done].
    by rewrite <- (std_sort_Permutation l).
  - apply std_sort_sorted.
  - by rewrite std_sort_Permutation.
Qed.
End std_sort.

Lemma std_sort_range_Permutation {A} (comp : A → A → bool) a n :
  std_sort_range comp a n ≡ₚ a.
Proof.
  unfold std_sort_range. rewrite std_sort_Permutation. by rewrite take_drop.
Qed.

(** ** The comparisons of the two orderings *)

Section Comparisons.
Variable aSplittingRange : list SplittingRange.

Lemma CountItemsAscending_less_false p q :
  CountItemsAscending_less aSplittingRange q p = false
  ↔ CountItems_le (deref aSplittingRange p) (deref aSplittingRange q).
Proof.
  unfold CountItemsAscending_less, CountItems_le.
  destruct (Z.eqb_spec (m_cSplittableItems (deref aSplittingRange q))
              (m_cSplittableItems (deref aSplittingRange p))).
  - rewrite Nat.ltb_ge. split; [intros; right; split; [done|lia]|intros [|[]]; lia].
  - rewrite Z.ltb_ge. split; [lia|intros [|[]]; lia].
Qed.

Lemma CountItems_le_key p q :
  CountItems_le (deref aSplittingRange p) (deref aSplittingRange q) →
  CountItems_key aSplittingRange p ≤ CountItems_key aSplittingRange q.
Proof. unfold CountItems_le, CountItems_key. lia. Qed.

Lemma CountItemsAscending_less_asym p q :
  CountItemsAscending_less aSplittingRange p q = true →
  CountItemsAscending_less aSplittingRange q p = false.
Proof.
  intros Hpq. apply CountItemsAscending_less_false. revert Hpq.
  unfold CountItemsAscending_less, CountItems_le.
  destruct (Z.eqb_spec (m_cSplittableItems (deref aSplittingRange p))
              (m_cSplittableItems (deref aSplittingRange q))).
  - rewrite Nat.ltb_lt. lia.
  - rewrite Z.ltb_lt. lia.
Qed.

Lemma CountItemsAscending_less_trans p q r :
  CountItemsAscending_less aSplittingRange q p = false →
  CountItemsAscending_less aSplittingRange r q = false →
  CountItemsAscending_less aSplittingRange r p = false.
Proof.
  rewrite !CountItemsAscending_less_false. unfold CountItems_le. lia.
Qed.

Lemma UnsplittableDescending_less_false p q :
  UnsplittableDescending_less aSplittingRange q p = false
  ↔ Unsplittable_ge (deref aSplittingRange p) (deref aSplittingRange q).
Proof.
  unfold UnsplittableDescending_less, Unsplittable_ge.
  destruct (Z.eqb_spec (m_cUnsplittableEitherSideMax (deref aSplittingRange q))
              (m_cUnsplittableEitherSideMax (deref aSplittingRange p)));
    [destruct (Z.eqb_spec (m_cUnsplittableEitherSideMin (deref aSplittingRange q))
                 (m_cUnsplittableEitherSideMin (deref aSplittingRange p)))|].
  - rewrite Nat.ltb_ge. lia.
  - rewrite Z.ltb_ge. lia.
  - rewrite Z.ltb_ge. lia.
Qed.

Lemma Unsplittable_ge_key p q :
  Unsplittable_ge (deref aSplittingRange p) (deref aSplittingRange q) →
  Unsplittable_key_ge (Unsplittable_key aSplittingRange p) (Unsplittable_key aSplittingRange q).
Proof. unfold Unsplittable_ge, Unsplittable_key_ge, Unsplittable_key. simpl. lia. Qed.

Lemma UnsplittableDescending_less_asym p q :
  UnsplittableDescending_less aSplittingRange p q = true →
  UnsplittableDescending_less aSplittingRange q p = false.
Proof.
  intros Hpq. apply UnsplittableDescending_less_false. revert Hpq.
  unfold UnsplittableDescending_less, Unsplittable_ge.
  destruct (Z.eqb_spec (m_cUnsplittableEitherSideMax (deref aSplittingRange p))
              (m_cUnsplittableEitherSideMax (deref aSplittingRange q)));
    [destruct (Z.eqb_spec (m_cUnsplittableEitherSideMin (deref aSplittingRange p))
                 (m_cUnsplittableEitherSideMin (deref aSplittingRange q)))|].
  - rewrite Nat.ltb_lt. lia.
  - rewrite Z.ltb_lt. lia.
  - rewrite Z.ltb_lt. lia.
Qed.

Lemma UnsplittableDescending_less_trans p q r :
  UnsplittableDescending_less aSplittingRange q p = false →
  UnsplittableDescending_less aSplittingRange r q = false →
  UnsplittableDescending_less aSplittingRange r p = false.
Proof.
  rewrite !UnsplittableDescending_less_false. unfold Unsplittable_ge. lia.
Qed.
End Comparisons.

(** ** The shuffle of the blocks of equal keys *)

Lemma insert_cons_Permutation {A} (l : list A) j x y :
  l !! j = Some y → y :: <[j:=x]> l ≡ₚ x :: l.
Proof.
  revert j. induction l as [|z l IH]; intros [|j] Hy; simpl in *; try done.
  - injection Hy as ->. apply Permutation_swap.
  - rewrite Permutation_swap. rewrite (IH j Hy). apply Permutation_swap.
Qed.

(** Exchanging two elements of an array permutes it. *)
Lemma swap_Permutation {A} (l : list A) i j x y :
  l !! i = Some x → l !! j = Some y → <[j:=x]> (<[i:=y]> l) ≡ₚ l.
Proof.
  revert i j. induction l as [|a l IH]; intros [|i] [|j] Hx Hy; simpl in *; try done.
  - injection Hx as ->. by injection Hy as ->.
  - injection Hx as ->. by apply insert_cons_Permutation.
  - injection Hy as ->. by apply insert_cons_Permutation.
  - f_equiv. by apply IH.
Qed.

(** Exchanging two elements with the same key leaves the keys in place. *)
Lemma swap_fmap {A K} (key : A → K) (l : list A) i j x y :
  l !! i = Some x → l !! j = Some y → key x = key y →
  key <$> <[j:=x]> (<[i:=y]> l) = key <$> l.
Proof.
  intros Hx Hy Hkey. rewrite !list_fmap_insert.
  rewrite (list_insert_id (key <$> l) i (key y)).
  - apply list_insert_id. rewrite list_lookup_fmap, Hy. simpl. congruence.
  - rewrite list_lookup_fmap, Hx. simpl. congruence.
Qed.

Lemma exchange_Permutation {A} i j (l : list A) : exchange i j l ≡ₚ l.
Proof.
  unfold exchange. destruct (l !! i) eqn:Hi; [|done]. destruct (l !! j) eqn:Hj; [|done].
  by apply swap_Permutation.
Qed.

(** The exchange inside a part of an array is the part of the array after
    the exchange. *)
Lemma exchange_take_drop {A} (l : list A) iStart c iSwap x y :
  (iSwap < c)%nat → l !! iStart = Some x → l !! (iStart + iSwap)%nat = Some y →
  exchange 0 iSwap (take c (drop iStart l))
  = take c (drop iStart (<[(iStart + iSwap)%nat:=x]> (<[iStart:=y]> l))).
Proof.
  intros Hswap Hx Hy. unfold exchange.
  rewrite !lookup_take_lt, !lookup_drop by lia.
  rewrite Nat.add_0_r, Hx, Hy.
  rewrite drop_insert_ge by lia. rewrite drop_insert_ge by lia.
  replace (iStart + iSwap - iStart)%nat with iSwap by lia.
  replace (iStart - iStart)%nat with 0%nat by lia.
  rewrite take_insert_lt by lia. by rewrite take_insert_lt by lia.
Qed.

Section FairOrderProperties.
Context {RandomStream : Type}.
Variable Next : RandomStream → nat → nat * RandomStream.
Context {K : Type} `{EqDecision K}.
Variable key : nat → K.

(** The random stream gives an index below the bound it is asked for. *)
Hypothesis Next_bound : ∀ rs n, (1 ≤ n)%nat → ((Next rs n).1 < n)%nat.

Lemma ShuffleEqualRange_unfold c rs ap iStart :
  ShuffleEqualRange Next (S (S c)) rs ap iStart
  = let '(iSwap, rs) := Next rs (S (S c)) in
    pTmp ← ap !! iStart;
    pSwap ← ap !! (iStart + iSwap)%nat;
    ap' ← store ap iStart pSwap;
    ap' ← store ap' (iStart + iSwap)%nat pTmp;
    ShuffleEqualRange Next (S c) rs ap' (S iStart).
Proof. reflexivity. Qed.

(** The shuffle of a block of [c] elements with the key [k]: it ends behind
    the block less one, permutes the array and leaves every key in place. *)
Lemma ShuffleEqualRange_spec c : ∀ rs ap iStart k,
  (1 ≤ c)%nat → (iStart + c ≤ length ap)%nat →
  (∀ j, (iStart ≤ j < iStart + c)%nat → (key <$> ap) !! j = Some k) →
  ∃ rs' ap',
    ShuffleEqualRange Next c rs ap iStart = Some (rs', ap', (iStart + c - 1)%nat)
    ∧ ap' ≡ₚ ap ∧ key <$> ap' = key <$> ap.
Proof.
  induction c as [|c IH]; intros rs ap iStart k Hc Hlen Hblock; [lia|].
  destruct c as [|c].
  { exists rs, ap. split_and!; try done. simpl. do 3 f_equal. lia. }
  rewrite ShuffleEqualRange_unfold. pose proof (Next_bound rs (S (S c))) as Hswap.
  destruct (Next rs (S (S c))) as [iSwap rs1]. simpl in Hswap.
  destruct (lookup_lt_is_Some_2 ap iStart) as [pTmp HpTmp]; [lia|].
  destruct (lookup_lt_is_Some_2 ap (iStart + iSwap)) as [pSwap HpSwap]; [lia|].
  rewrite HpTmp, HpSwap. cbn [mbind option_bind].
  rewrite store_Some by lia. cbn [mbind option_bind].
  rewrite store_Some by (rewrite length_insert; lia). cbn [mbind option_bind].
  assert (Hkeys : key pTmp = key pSwap).
  { pose proof (Hblock iStart) as H1. pose proof (Hblock (iStart + iSwap)%nat) as H2.
    rewrite list_lookup_fmap, HpTmp in H1. rewrite list_lookup_fmap, HpSwap in H2.
    simpl in *. specialize (H1 ltac:(lia)). specialize (H2 ltac:(lia)). congruence. }
  pose proof (swap_Permutation ap iStart (iStart + iSwap) pTmp pSwap HpTmp HpSwap) as Hperm.
  pose proof (swap_fmap key ap iStart (iStart + iSwap) pTmp pSwap HpTmp HpSwap Hkeys) as Hfmap.
  destruct (IH rs1 (<[(iStart + iSwap)%nat:=pTmp]> (<[iStart:=pSwap]> ap)) (S iStart) k)
    as (rs' & ap' & Hrun & Hperm' & Hfmap'); [lia|rewrite !length_insert; lia| |].
  { intros j Hj. rewrite Hfmap. apply Hblock. lia. }
  exists rs', ap'. split_and!.
  - rewrite Hrun. do 3 f_equal. lia.
  - by rewrite Hperm'.
  - by rewrite Hfmap'.
Qed.

(** The loop over the array, from a state in which the elements from
    [iStart] up to [i] have the key [cItems]: it leaves a last block of equal
    keys to shuffle, has permuted the array and left every key in place. *)
Lemma ShuffleRanges_for_spec fuel : ∀ i rs ap iStart cItems,
  (iStart < i ≤ length ap)%nat → (length ap - i ≤ fuel)%nat →
  (∀ j, (iStart ≤ j < i)%nat → (key <$> ap) !! j = Some cItems) →
  ∃ rs' ap' iStart' k,
    ShuffleRanges_for Next key fuel (length ap) i rs ap iStart cItems
    = Some (rs', ap', iStart')
    ∧ (iStart' < length ap)%nat
    ∧ (∀ j, (iStart' ≤ j < length ap)%nat → (key <$> ap') !! j = Some k)
    ∧ ap' ≡ₚ ap ∧ key <$> ap' = key <$> ap.
Proof.
  induction fuel as [|fuel IH]; intros i rs ap iStart cItems Hi Hfuel Hblock.
  - simpl. rewrite decide_False by lia. exists rs, ap, iStart, cItems.
    split_and!; try done; [lia|]. intros j Hj. apply Hblock. lia.
  - cbn [ShuffleRanges_for]. case_decide as Hlt.
    2:{ exists rs, ap, iStart, cItems. split_and!; try done; [lia|].
        intros j Hj. apply Hblock. lia. }
    destruct (lookup_lt_is_Some_2 ap i) as [p Hp]; [done|]. rewrite Hp. simpl.
    case_decide as Hkey.
    + destruct (ShuffleEqualRange_spec (i - iStart) rs ap iStart cItems)
        as (rs1 & ap1 & Hrun & Hperm & Hfmap); [lia..| |].
      { intros j Hj. apply Hblock. lia. }
      rewrite Hrun. simpl.
      assert (Hlen : length ap1 = length ap) by by apply Permutation_length.
      destruct (IH (S i) rs1 ap1 i (key p))
        as (rs' & ap' & iStart' & k & Hrun' & Hstart & Hlast & Hperm' & Hfmap');
        [lia..| |].
      { intros j Hj. replace j with i by lia. by rewrite Hfmap, list_lookup_fmap, Hp. }
      rewrite Hlen in *. exists rs', ap', iStart', k. split_and!; try done.
      * by rewrite Hperm'.
      * by rewrite Hfmap'.
    + destruct (IH (S i) rs ap iStart cItems)
        as (rs' & ap' & iStart' & k & Hrun' & Hstart & Hlast & Hperm' & Hfmap');
        [lia..| |].
      { intros j Hj. destruct (decide (j = i)) as [->|Hne]; [|apply Hblock; lia].
        by rewrite list_lookup_fmap, Hp, Hkey. }
      exists rs', ap', iStart', k. by split_and!.
Qed.

(** The body of the two sorting functions: the result is the sorted array
    with every key in its place and the pointers permuted. *)
Lemma SortSplittingRanges_spec less rs ap :
  (1 ≤ length ap)%nat →
  ∃ rs' ap',
    SortSplittingRanges Next key less rs (length ap) ap = Some (rs', ap')
    ∧ ap' ≡ₚ ap ∧ key <$> ap' = key <$> std_sort less ap.
Proof.
  intros Hc. unfold SortSplittingRanges, ShuffleRanges, std_sort_range.
  rewrite take_ge, drop_ge, app_nil_r by lia.
  pose proof (std_sort_length less ap) as Hlen.
  pose proof (std_sort_Permutation less ap) as Hperm.
  destruct (lookup_lt_is_Some_2 (std_sort less ap) 0) as [p0 Hp0]; [lia|].
  rewrite Hp0. simpl. rewrite <- Hlen.
  destruct (ShuffleRanges_for_spec (length (std_sort less ap)) 1 rs (std_sort less ap) 0 (key p0))
    as (rs1 & ap1 & iStart & k & Hrun & Hstart & Hlast & Hperm1 & Hfmap1); [lia..| |].
  { intros j Hj. replace j with 0%nat by lia. by rewrite list_lookup_fmap, Hp0. }
  rewrite Hrun. simpl.
  assert (Hlen1 : length ap1 = length (std_sort less ap)) by by apply Permutation_length.
  destruct (ShuffleEqualRange_spec (length (std_sort less ap) - iStart) rs1 ap1 iStart k)
    as (rs' & ap' & Hrun' & Hperm' & Hfmap'); [lia..| |].
  { intros j Hj. apply Hlast. lia. }
  rewrite Hrun'. simpl. exists rs', ap'. split_and!; try done.
  - by rewrite Hperm', Hperm1.
  - by rewrite Hfmap', Hfmap1.
Qed.

Lemma FisherYates_unfold c rs block :
  FisherYates Next (S (S c)) rs block
  = let '(iSwap, rs) := Next rs (S (S c)) in
    match exchange 0 iSwap block with
    | [] => (rs, [])
    | p :: rest => let '(rs, rest) := FisherYates Next (S c) rs rest in (rs, p :: rest)
    end.
Proof. reflexivity. Qed.

(** The shuffle of a block permutes the block. *)
Lemma FisherYates_Permutation c : ∀ rs block, (FisherYates Next c rs block).2 ≡ₚ block.
Proof.
  induction c as [|c IH]; intros rs block; [done|].
  destruct c as [|c]; [done|].
  rewrite FisherYates_unfold. destruct (Next rs (S (S c))) as [iSwap rs1].
  pose proof (exchange_Permutation 0 iSwap block) as Hperm.
  destruct (exchange 0 iSwap block) as [|p rest]; [done|].
  specialize (IH rs1 rest). destruct (FisherYates Next (S c) rs1 rest) as [rs2 rest'].
  simpl in *. by rewrite IH.
Qed.

(** The shuffled blocks are permutations of the blocks, in their places. *)
Lemma ShuffleBlocks_blocks bs : ∀ rs,
  ∃ shuffled, (ShuffleBlocks Next rs bs).2 = concat shuffled ∧ Forall2 (≡ₚ) shuffled bs.
Proof.
  induction bs as [|block bs IH]; intros rs; simpl.
  { exists []. by split. }
  pose proof (FisherYates_Permutation (length block) rs block) as Hperm.
  destruct (FisherYates Next (length block) rs block) as [rs1 block'].
  destruct (IH rs1) as (shuffled & Heq & Hall).
  destruct (ShuffleBlocks Next rs1 bs) as [rs2 l]. simpl in *. subst l.
  exists (block' :: shuffled). split; [done|]. by constructor.
Qed.

Lemma ShuffleBlocks_cons rs block bs :
  ShuffleBlocks Next rs (block :: bs)
  = ((ShuffleBlocks Next (FisherYates Next (length block) rs block).1 bs).1,
     (FisherYates Next (length block) rs block).2
       ++ (ShuffleBlocks Next (FisherYates Next (length block) rs block).1 bs).2).
Proof.
  simpl. destruct (FisherYates Next (length block) rs block) as [rs1 block'].
  simpl. by destruct (ShuffleBlocks Next rs1 bs).
Qed.

Lemma blocks_cons p l : ∃ block bs, blocks key (p :: l) = (p :: block) :: bs.
Proof.
  simpl. destruct (blocks key l) as [|[|q block] bs]; [by eauto..|].
  case_decide; by eauto.
Qed.

Lemma blocks_equal_keys k block :
  block ≠ [] → Forall (λ p, key p = k) block → blocks key block = [block].
Proof.
  induction block as [|p block IH]; intros Hne Hall; [done|].
  apply Forall_cons in Hall as [Hp Hall].
  destruct block as [|q block]; [done|].
  change (blocks key (p :: q :: block))
    with (match blocks key (q :: block) with
          | (q :: block) :: bs =>
              if decide (key p = key q) then (p :: q :: block) :: bs
              else [p] :: (q :: block) :: bs
          | _ => [[p]]
          end).
  rewrite IH by done. apply Forall_cons in Hall as [Hq _].
  rewrite decide_True by congruence. done.
Qed.

Lemma blocks_app k block q l :
  block ≠ [] → Forall (λ p, key p = k) block → key q ≠ k →
  blocks key (block ++ q :: l) = block :: blocks key (q :: l).
Proof.
  induction block as [|p block IH]; intros Hne Hall Hq; [done|].
  apply Forall_cons in Hall as [Hp Hall].
  destruct block as [|p' block].
  - simpl app. destruct (blocks_cons q l) as (b & bs & Heq).
    change (blocks key (p :: q :: l))
      with (match blocks key (q :: l) with
            | (q :: block) :: bs =>
                if decide (key p = key q) then (p :: q :: block) :: bs
                else [p] :: (q :: block) :: bs
            | _ => [[p]]
            end).
    rewrite Heq. rewrite decide_False by congruence. done.
  - change (blocks key ((p :: p' :: block) ++ q :: l))
      with (match blocks key ((p' :: block) ++ q :: l) with
            | (q :: block) :: bs =>
                if decide (key p = key q) then (p :: q :: block) :: bs
                else [p] :: (q :: block) :: bs
            | _ => [[p]]
            end).
    rewrite IH by done. apply Forall_cons in Hall as [Hp' _].
    rewrite decide_True by congruence. done.
Qed.

(** [blocks] gives the maximal blocks of equal keys. *)
Lemma blocks_maximal l : maximal_blocks key l (blocks key l).
Proof.
  induction l as [|p l (Hconcat & Hblock & Hnext)]; [split_and!; try done|].
  - intros block Hin. by apply elem_of_nil in Hin.
  - simpl. destruct (blocks key l) as [|[|q block] bs] eqn:Hbs.
    + simpl in Hconcat. subst l. split; [done|]. split.
      * intros block ->%list_elem_of_singleton. split; [done|].
        by intros p1 p2 ->%list_elem_of_singleton ->%list_elem_of_singleton.
      * intros [|i] ????; done.
    + destruct (Hblock []) as [Hne _]; [by left|done].
    + assert (Hq : ∀ p', p' ∈ q :: block → key p' = key q).
      { intros p' Hp'. destruct (Hblock (q :: block)) as [_ Heq]; [by left|].
        apply Heq; [done|by left]. }
      case_decide as Hkey.
      * split_and!.
        -- simpl in *. by rewrite Hconcat.
        -- intros b [->|Hb]%elem_of_cons; [|apply Hblock; by right].
           split; [done|]. intros p1 p2 Hp1 Hp2.
           assert (∀ p', p' ∈ p :: q :: block → key p' = key q) as Hall.
           { intros p' [->|Hp']%elem_of_cons; [done|by apply Hq]. }
           by rewrite (Hall p1), (Hall p2).
        -- intros [|i] b b' p1 p2 Hb Hb' Hp1 Hp2.
           ++ simpl in Hb, Hb'. injection Hb as <-.
              assert (key p1 = key q) as ->.
              { apply elem_of_cons in Hp1 as [->|Hp1]; [done|by apply Hq]. }
              apply (Hnext 0%nat (q :: block) b' q p2); [done|done|by left|done].
           ++ by apply (Hnext (S i) b b' p1 p2).
      * split_and!.
        -- simpl in *. by rewrite Hconcat.
        -- intros b [->|Hb]%elem_of_cons; [|by apply Hblock].
           split; [done|].
           by intros p1 p2 ->%list_elem_of_singleton ->%list_elem_of_singleton.
        -- intros [|i] b b' p1 p2 Hb Hb' Hp1 Hp2.
           ++ simpl in Hb, Hb'. injection Hb as <-. injection Hb' as <-.
              apply list_elem_of_singleton in Hp1 as ->. by rewrite (Hq p2).
           ++ by apply (Hnext i b b' p1 p2).
Qed.

(** The loop that shuffles the [c] elements from [iStart] on is the shuffle
    of that block, and leaves the array in front of it and behind it. *)
Lemma ShuffleEqualRange_FisherYates c : ∀ rs ap iStart,
  (1 ≤ c)%nat → (iStart + c ≤ length ap)%nat →
  ShuffleEqualRange Next c rs ap iStart
  = Some ((FisherYates Next c rs (take c (drop iStart ap))).1,
          take iStart ap ++ (FisherYates Next c rs (take c (drop iStart ap))).2
            ++ drop (iStart + c) ap,
          (iStart + c - 1)%nat).
Proof.
  induction c as [|c IH]; intros rs ap iStart Hc Hlen; [lia|].
  destruct c as [|c].
  { simpl ShuffleEqualRange. simpl FisherYates. unfold fst, snd.
    rewrite app_assoc, take_take_drop, take_drop. do 2 f_equal. lia. }
  rewrite ShuffleEqualRange_unfold, FisherYates_unfold.
  pose proof (Next_bound rs (S (S c))) as Hswap.
  destruct (Next rs (S (S c))) as [iSwap rs1]. simpl in Hswap. specialize (Hswap ltac:(lia)).
  destruct (lookup_lt_is_Some_2 ap iStart) as [pTmp HpTmp]; [lia|].
  destruct (lookup_lt_is_Some_2 ap (iStart + iSwap)) as [pSwap HpSwap]; [lia|].
  rewrite HpTmp, HpSwap. cbn [mbind option_bind].
  rewrite store_Some by lia. cbn [mbind option_bind].
  rewrite store_Some by (rewrite length_insert; lia). cbn [mbind option_bind].
  rewrite (exchange_take_drop ap iStart (S (S c)) iSwap pTmp pSwap) by done.
  set (ap2 := <[(iStart + iSwap)%nat:=pTmp]> (<[iStart:=pSwap]> ap)).
  assert (Hlen2 : length ap2 = length ap) by (unfold ap2; by rewrite !length_insert).
  destruct (lookup_lt_is_Some_2 ap2 iStart) as [p Hp]; [lia|].
  rewrite (drop_S ap2 p iStart Hp). rewrite firstn_cons.
  rewrite IH by lia.
  destruct (FisherYates Next (S c) rs1 (take (S c) (drop (S iStart) ap2))) as [rs2 rest].
  unfold fst, snd. f_equal. f_equal; [|lia]. f_equal.
  rewrite (take_S_r ap2 iStart p Hp), <- app_assoc. simpl.
  assert (take iStart ap2 = take iStart ap) as ->.
  { unfold ap2. rewrite take_insert_ge by lia. by rewrite take_insert_ge by lia. }
  assert (drop (S (iStart + S c)) ap2 = drop (iStart + S (S c)) ap) as ->.
  { unfold ap2. rewrite drop_insert_lt by lia. rewrite drop_insert_lt by lia.
    f_equal. lia. }
  done.
Qed.

(** The shuffle of the last block: from [iStart] to the end of the array
    every key is [k]. *)
Lemma ShuffleEqualRange_last rs ap iStart k :
  (iStart < length ap)%nat →
  (∀ j, (iStart ≤ j < length ap)%nat → (key <$> ap) !! j = Some k) →
  ('(rs, ap, _) ← ShuffleEqualRange Next (length ap - iStart) rs ap iStart; Some (rs, ap))
  = Some ((ShuffleBlocks Next rs (blocks key (drop iStart ap))).1,
          take iStart ap ++ (ShuffleBlocks Next rs (blocks key (drop iStart ap))).2).
Proof.
  intros Hstart Hblock.
  rewrite ShuffleEqualRange_FisherYates by lia. cbn [mbind option_bind].
  rewrite (blocks_equal_keys k).
  - rewrite ShuffleBlocks_cons, length_drop.
    rewrite take_ge by (rewrite length_drop; lia).
    destruct (FisherYates Next (length ap - iStart) rs (drop iStart ap)) as [rs1 block].
    simpl. rewrite drop_ge by lia. done.
  - intros Hnil. apply (f_equal length) in Hnil. rewrite length_drop in Hnil.
    simpl in Hnil. lia.
  - apply Forall_forall. intros p Hp. apply list_elem_of_lookup in Hp as [j Hj].
    rewrite lookup_drop in Hj. pose proof (lookup_lt_Some _ _ _ Hj) as Hlt.
    specialize (Hblock (iStart + j)%nat ltac:(lia)).
    rewrite list_lookup_fmap, Hj in Hblock. simpl in Hblock. congruence.
Qed.

(** The loop over the array and the shuffle of the last block behind it,
    from a state in which the elements from [iStart] up to [i] have the key
    [cItems]: the blocks of equal keys from [iStart] on are shuffled, one
    after the other. *)
Lemma ShuffleRanges_for_blocks fuel : ∀ n i rs ap iStart cItems,
  length ap = n →
  (iStart < i ≤ n)%nat → (n - i ≤ fuel)%nat →
  (∀ j, (iStart ≤ j < i)%nat → (key <$> ap) !! j = Some cItems) →
  ('(rs, ap, iStart) ← ShuffleRanges_for Next key fuel n i rs ap iStart cItems;
   '(rs, ap, _) ← ShuffleEqualRange Next (n - iStart) rs ap iStart;
   Some (rs, ap))
  = Some ((ShuffleBlocks Next rs (blocks key (drop iStart ap))).1,
          take iStart ap ++ (ShuffleBlocks Next rs (blocks key (drop iStart ap))).2).
Proof.
  assert (Hlast : ∀ n i rs ap iStart cItems,
    length ap = n → (iStart < i ≤ n)%nat → ¬ (i < n)%nat →
    (∀ j, (iStart ≤ j < i)%nat → (key <$> ap) !! j = Some cItems) →
    ('(rs, ap, _) ← ShuffleEqualRange Next (n - iStart) rs ap iStart; Some (rs, ap))
    = Some ((ShuffleBlocks Next rs (blocks key (drop iStart ap))).1,
            take iStart ap ++ (ShuffleBlocks Next rs (blocks key (drop iStart ap))).2)).
  { intros n i rs ap iStart cItems <- Hi Hge Hblock.
    apply (ShuffleEqualRange_last rs ap iStart cItems); [lia|].
    intros j Hj. apply Hblock. lia. }
  induction fuel as [|fuel IH]; intros n i rs ap iStart cItems Hlen Hi Hfuel Hblock.
  { simpl ShuffleRanges_for. rewrite decide_False by lia. cbn [mbind option_bind].
    apply (Hlast n i rs ap iStart cItems); [done|done|lia|done]. }
  cbn [ShuffleRanges_for]. case_decide as Hlt.
  2:{ cbn [mbind option_bind]. by apply (Hlast n i rs ap iStart cItems). }
  destruct (lookup_lt_is_Some_2 ap i) as [p Hp]; [lia|]. rewrite Hp. cbn [mbind option_bind].
  case_decide as Hkey.
  2:{ apply IH; [done|lia|lia|].
      intros j Hj. destruct (decide (j = i)) as [->|Hne]; [|apply Hblock; lia].
      rewrite list_lookup_fmap, Hp. simpl. by rewrite Hkey. }
  rewrite ShuffleEqualRange_FisherYates by lia. cbn [mbind option_bind].
  set (block := take (i - iStart) (drop iStart ap)).
  assert (Hblock_len : length block = (i - iStart)%nat).
  { unfold block. rewrite length_take, length_drop. lia. }
  assert (Hsplit : drop iStart ap = block ++ p :: drop (S i) ap).
  { unfold block. rewrite <- (drop_S ap p i Hp).
    rewrite <- (take_drop (i - iStart) (drop iStart ap)) at 1.
    rewrite drop_drop. do 2 f_equal. lia. }
  rewrite Hsplit. rewrite (blocks_app cItems block p (drop (S i) ap)).
  2:{ intros Hnil. rewrite Hnil in Hblock_len. simpl in Hblock_len. lia. }
  2:{ apply Forall_forall. intros q Hq. apply list_elem_of_lookup in Hq as [j Hj].
      pose proof (lookup_lt_Some _ _ _ Hj) as Hj_lt. rewrite Hblock_len in Hj_lt.
      unfold block in Hj. rewrite lookup_take_lt, lookup_drop in Hj by lia.
      specialize (Hblock (iStart + j)%nat ltac:(lia)).
      rewrite list_lookup_fmap, Hj in Hblock. simpl in Hblock. congruence. }
  2:{ congruence. }
  rewrite ShuffleBlocks_cons, Hblock_len.
  pose proof (FisherYates_Permutation (i - iStart) rs block) as Hperm.
  destruct (FisherYates Next (i - iStart) rs block) as [rs1 block'].
  unfold fst, snd in Hperm |- *.
  assert (Hlen' : length block' = (i - iStart)%nat).
  { by rewrite (Permutation_length Hperm). }
  replace (iStart + (i - iStart))%nat with i by lia.
  set (ap1 := take iStart ap ++ block' ++ drop i ap).
  assert (Htake1 : take i ap1 = take iStart ap ++ block').
  { unfold ap1. rewrite app_assoc. apply take_app_length'.
    rewrite length_app, length_take. lia. }
  assert (Hdrop1 : drop i ap1 = drop i ap).
  { unfold ap1. rewrite app_assoc. apply drop_app_length'.
    rewrite length_app, length_take. lia. }
  assert (Hlen1 : length ap1 = n).
  { unfold ap1. rewrite !length_app, length_take, length_drop. lia. }
  assert (Hp1 : ap1 !! i = Some p).
  { rewrite <- (Nat.add_0_r i), <- lookup_drop, Hdrop1, lookup_drop, Nat.add_0_r. done. }
  rewrite (IH n (S i) rs1 ap1 i (key p)); [|done|lia|lia|].
  2:{ intros j Hj. replace j with i by lia. by rewrite list_lookup_fmap, Hp1. }
  rewrite Htake1, Hdrop1, (drop_S ap p i Hp).
  destruct (ShuffleBlocks Next rs1 (blocks key (p :: drop (S i) ap))) as [rs2 l].
  unfold fst, snd. by rewrite <- app_assoc.
Qed.

(** The shuffling part of the two sorting functions, on whatever array
    [std::sort] has left: every maximal block of equal keys is shuffled, one
    block after the other, with the indices drawn from the random stream. *)
Lemma ShuffleRanges_blocks rs ap :
  (1 ≤ length ap)%nat →
  ShuffleRanges Next key rs (length ap) ap = Some (ShuffleBlocks Next rs (blocks key ap)).
Proof.
  intros Hlen. unfold ShuffleRanges.
  destruct (lookup_lt_is_Some_2 ap 0) as [p0 Hp0]; [lia|]. rewrite Hp0. cbn [mbind option_bind].
  rewrite (ShuffleRanges_for_blocks (length ap) (length ap) 1 rs ap 0 (key p0)); [|done|lia|lia|].
  - rewrite drop_0. simpl. by destruct (ShuffleBlocks Next rs (blocks key ap)).
  - intros j Hj. replace j with 0%nat by lia. by rewrite list_lookup_fmap, Hp0.
Qed.

(** The body of the two sorting functions: the array and the random stream
    that it leaves are those of the shuffle of the blocks of the sorted
    array. *)
Lemma SortSplittingRanges_blocks less rs ap :
  (1 ≤ length ap)%nat →
  SortSplittingRanges Next key less rs (length ap) ap
  = Some (ShuffleBlocks Next rs (blocks key (std_sort less ap))).
Proof.
  intros Hlen. unfold SortSplittingRanges, std_sort_range.
  rewrite take_ge, drop_ge, app_nil_r by lia.
  rewrite <- (std_sort_length less ap).
  apply ShuffleRanges_blocks. by rewrite std_sort_length.
Qed.
End FairOrderProperties.

Lemma StronglySorted_impl {A} (R1 R2 : relation A) l :
  (∀ x y, R1 x y → R2 x y) → StronglySorted R1 l → StronglySorted R2 l.
Proof.
  intros Himpl. induction 1 as [|x l Hsorted IH Hx]; constructor; [done|].
  eapply Forall_impl; [exact Hx|]. intros y. apply Himpl.
Qed.

Lemma StronglySorted_fmap_inv {A B} (f : A → B) (R : relation B) l :
  StronglySorted R (f <$> l) → StronglySorted (λ x y, R (f x) (f y)) l.
Proof.
  induction l as [|x l IH]; simpl; [constructor|].
  intros [Hsorted Hx]%StronglySorted_inv. constructor; [by apply IH|].
  rewrite Forall_fmap in Hx. exact Hx.
Qed.

(** C8: on a nonempty array of pointers and a random stream that draws below
    its bound, [SortSplittingRangesByCountItemsAscending] gives a permutation
    of the pointers.  Before the shuffle the array is sorted in ascending order
    of [m_cSplittableItems], with ties in the order of the position of the
    range.  The array and the random stream that the function leaves are those
    of the shuffle of the specification: the sorted array is cut into its
    maximal blocks of equal keys, and every block is shuffled in its place,
    one block after the other, by exchanging the first of the remaining
    elements with the one at the index that the random stream draws among
    them.  So the result is made of permutations of the blocks in the places
    of the blocks, every index holds a pointer with the key that the sorted
    array has there, and the result is in ascending order of the key.  The
    same holds of [SortSplittingRangesByUnsplittableDescending] for its
    compound key, in descending order.  The shuffling part of the two
    functions does this on every array of that length, whatever order
    [std::sort] has left the pointers in. *)
Theorem SortSplittingRanges_fair_order {RandomStream : Type}
    (Next : RandomStream → nat → nat * RandomStream) (aSplittingRange : list SplittingRange)
    (rs : RandomStream) (cSplittingRanges : nat) (apSplittingRange : list nat) :
  (∀ rs n, (1 ≤ n)%nat → ((Next rs n).1 < n)%nat) →
  (1 ≤ cSplittingRanges)%nat →
  length apSplittingRange = cSplittingRanges →
  (let key := CountItems_key aSplittingRange in
   let sorted := std_sort (CountItemsAscending_less aSplittingRange) apSplittingRange in
   ∃ rs' ap',
     SortSplittingRangesByCountItemsAscending Next aSplittingRange rs cSplittingRanges
       apSplittingRange = Some (rs', ap')
     ∧ ap' ≡ₚ apSplittingRange
     ∧ sorted ≡ₚ apSplittingRange
     ∧ StronglySorted
         (λ p q, CountItems_le (deref aSplittingRange p) (deref aSplittingRange q)) sorted
     ∧ maximal_blocks key sorted (blocks key sorted)
     ∧ ShuffleBlocks Next rs (blocks key sorted) = (rs', ap')
     ∧ (∃ shuffled, ap' = concat shuffled ∧ Forall2 (≡ₚ) shuffled (blocks key sorted))
     ∧ key <$> ap' = key <$> sorted
     ∧ StronglySorted (λ p q, key p ≤ key q) ap')
  ∧ (let key := Unsplittable_key aSplittingRange in
     let sorted := std_sort (UnsplittableDescending_less aSplittingRange) apSplittingRange in
     ∃ rs' ap',
       SortSplittingRangesByUnsplittableDescending Next aSplittingRange rs cSplittingRanges
         apSplittingRange = Some (rs', ap')
       ∧ ap' ≡ₚ apSplittingRange
       ∧ sorted ≡ₚ apSplittingRange
       ∧ StronglySorted
           (λ p q, Unsplittable_ge (deref aSplittingRange p) (deref aSplittingRange q)) sorted
       ∧ maximal_blocks key sorted (blocks key sorted)
       ∧ ShuffleBlocks Next rs (blocks key sorted) = (rs', ap')
       ∧ (∃ shuffled, ap' = concat shuffled ∧ Forall2 (≡ₚ) shuffled (blocks key sorted))
       ∧ key <$> ap' = key <$> sorted
       ∧ StronglySorted (λ p q, Unsplittable_key_ge (key p) (key q)) ap')
  ∧ (∀ ap, length ap = cSplittingRanges →
       ShuffleRanges Next (CountItems_key aSplittingRange) rs cSplittingRanges ap
       = Some (ShuffleBlocks Next rs (blocks (CountItems_key aSplittingRange) ap))
       ∧ ShuffleRanges Next (Unsplittable_key aSplittingRange) rs cSplittingRanges ap
         = Some (ShuffleBlocks Next rs (blocks (Unsplittable_key aSplittingRange) ap))).
Proof.
  intros Hnext Hc Hlen. subst cSplittingRanges. split_and!.
  - intros key sorted.
    destruct (SortSplittingRanges_spec Next key Hnext
                (CountItemsAscending_less aSplittingRange) rs apSplittingRange Hc)
      as (rs' & ap' & Hrun & Hperm & Hkeys).
    pose proof (SortSplittingRanges_blocks Next key Hnext
                  (CountItemsAscending_less aSplittingRange) rs apSplittingRange Hc)
      as Hblocks.
    rewrite Hrun in Hblocks. injection Hblocks as Hblocks. fold sorted in Hblocks, Hkeys.
    assert (Hsorted : StronglySorted
              (λ p q, CountItems_le (deref aSplittingRange p) (deref aSplittingRange q))
              sorted).
    { eapply StronglySorted_impl;
        [|apply std_sort_sorted;
          [apply CountItemsAscending_less_asym|apply CountItemsAscending_less_trans]].
      intros p q. apply CountItemsAscending_less_false. }
    exists rs', ap'. split_and!; try done.
    + apply std_sort_Permutation.
    + apply blocks_maximal.
    + destruct (ShuffleBlocks_blocks Next (blocks key sorted) rs) as (shuffled & Heq & Hall).
      rewrite <- Hblocks in Heq. by exists shuffled.
    + apply (StronglySorted_fmap_inv key Z.le). rewrite Hkeys.
      eapply StronglySorted_fmap; [|exact Hsorted]. intros p q. apply CountItems_le_key.
  - intros key sorted.
    destruct (SortSplittingRanges_spec Next key Hnext
                (UnsplittableDescending_less aSplittingRange) rs apSplittingRange Hc)
      as (rs' & ap' & Hrun & Hperm & Hkeys).
    pose proof (SortSplittingRanges_blocks Next key Hnext
                  (UnsplittableDescending_less aSplittingRange) rs apSplittingRange Hc)
      as Hblocks.
    rewrite Hrun in Hblocks. injection Hblocks as Hblocks. fold sorted in Hblocks, Hkeys.
    assert (Hsorted : StronglySorted
              (λ p q, Unsplittable_ge (deref aSplittingRange p) (deref aSplittingRange q))
              sorted).
    { eapply StronglySorted_impl;
        [|apply std_sort_sorted;
          [apply UnsplittableDescending_less_asym|apply UnsplittableDescending_less_trans]].
      intros p q. apply UnsplittableDescending_less_false. }
    exists rs', ap'. split_and!; try done.
    + apply std_sort_Permutation.
    + apply blocks_maximal.
    + destruct (ShuffleBlocks_blocks Next (blocks key sorted) rs) as (shuffled & Heq & Hall).
      rewrite <- Hblocks in Heq. by exists shuffled.
    + apply (StronglySorted_fmap_inv key Unsplittable_key_ge). rewrite Hkeys.
      eapply StronglySorted_fmap; [|exact Hsorted]. intros p q. apply Unsplittable_ge_key.
  - intros ap Hlen. rewrite <- Hlen.
    split; apply ShuffleRanges_blocks; first [done | by rewrite Hlen].
Qed.

Lemma SortSplittingRanges_fair_order_witness :
  std_sort (CountItemsAscending_less table4) [0; 1; 2; 3]%nat = [1; 0; 2; 3]%nat
  ∧ SortSplittingRangesByCountItemsAscending Next_remainder table4 5%nat 4 [0; 1; 2; 3]%nat
    = Some (269%nat, [1; 3; 2; 0]%nat)
  ∧ std_sort (UnsplittableDescending_less table4) [0; 1; 2; 3]%nat = [1; 3; 2; 0]%nat
  ∧ SortSplittingRangesByUnsplittableDescending Next_remainder table4 5%nat 4 [0; 1; 2; 3]%nat
    = Some (38%nat, [1; 2; 3; 0]%nat).
Proof.
  destruct (SortSplittingRanges_fair_order Next_remainder table4 5%nat 4 [0; 1; 2; 3]%nat)
    as ((rs1 & ap1 & Hrun1 & _ & _ & _ & _ & Hshuffle1 & _)
        & (rs2 & ap2 & Hrun2 & _ & _ & _ & _ & Hshuffle2 & _) & _).
  - intros rs n Hn. simpl. apply Nat.mod_upper_bound. lia.
  - lia.
  - reflexivity.
  - vm_compute in Hshuffle1, Hshuffle2.
    injection Hshuffle1 as <- <-. injection Hshuffle2 as <- <-.
    split_and!; [reflexivity|exact Hrun1|reflexivity|exact Hrun2].
Defined.

(** ** The two scans stay inside the values and the table *)

Lemma ptr_diff_small p q :
  (q ≤ p)%nat → Z.of_nat p ≤ INT64_MAX → ptr_diff p q = Z.of_nat p - Z.of_nat q.
Proof. intros Hq Hp. unfold ptr_diff. apply to_size_t_small. lia. Qed.

Lemma CountSplittingRanges_unfold fuel vals pValuesEnd avgLength cMin st :
  CountSplittingRanges (S fuel) vals pValuesEnd avgLength cMin st
  = if decide (pValuesEnd = pScan st) then Some st
    else
      val ← vals !! pScan st;
      CountSplittingRanges fuel vals pValuesEnd avgLength cMin
        (if Float_ne val (rangeValue st) then
           if avgLength <=? ptr_diff (pScan st) (pStartEqualRange st) then
             {| rangeValue := val; pSplittableValuesStart := pScan st;
                pStartEqualRange := pScan st; pScan := S (pScan st);
                cSplittingRanges :=
                  if negb (Nat.eqb 0 (pSplittableValuesStart st))
                     || (cMin <=? ptr_diff (pStartEqualRange st) (pSplittableValuesStart st))
                  then to_size_t (cSplittingRanges st + 1) else cSplittingRanges st |}
           else
             {| rangeValue := val; pSplittableValuesStart := pSplittableValuesStart st;
                pStartEqualRange := pScan st; pScan := S (pScan st);
                cSplittingRanges := cSplittingRanges st |}
         else
           {| rangeValue := rangeValue st; pSplittableValuesStart := pSplittableValuesStart st;
              pStartEqualRange := pStartEqualRange st; pScan := S (pScan st);
              cSplittingRanges := cSplittingRanges st |}).
Proof. reflexivity. Qed.

(** The first scan runs to the end of the values, keeps its variables in
    order and only counts up. *)
Lemma CountSplittingRanges_spec vals n avgLength cMin :
  (n ≤ length vals)%nat → Z.of_nat n ≤ INT64_MAX →
  ∀ fuel st,
    scan_inv n st → (n - pScan st ≤ fuel)%nat →
    ∃ st', CountSplittingRanges fuel vals n avgLength cMin st = Some st'
           ∧ scan_inv n st' ∧ pScan st' = n
           ∧ cSplittingRanges st ≤ cSplittingRanges st'.
Proof.
  intros Hn Hmax. induction fuel as [|fuel IH]; intros st Hinv Hfuel.
  - exists st. destruct Hinv as (? & ? & ? & ?). simpl. rewrite decide_True by lia.
    split_and!; try done; lia.
  - rewrite CountSplittingRanges_unfold. destruct Hinv as (H1 & H2 & H3 & H4).
    case_decide as Hend; [exists st; by split_and!|].
    destruct (lookup_lt_is_Some_2 vals (pScan st)) as [val Hval]; [lia|].
    rewrite Hval. cbn [mbind option_bind].
    match goal with |- context [CountSplittingRanges fuel _ _ _ _ ?s] => set (st1 := s) end.
    assert (Hinv1 : scan_inv n st1 ∧ pScan st1 = S (pScan st)
                    ∧ cSplittingRanges st ≤ cSplittingRanges st1).
    { unfold st1, scan_inv.
      destruct (Float_ne val (rangeValue st)); [|simpl; lia].
      destruct (avgLength <=? _); [|simpl; lia].
      destruct (negb _ || _); simpl; [|lia].
      rewrite to_size_t_small by lia. lia. }
    destruct Hinv1 as (Hinv1 & Hscan1 & Hcount1).
    destruct (IH st1 Hinv1) as (st' & Hrun & Hinv' & Hend' & Hcount'); [lia|].
    exists st'. split_and!; try done. lia.
Qed.

Lemma AssignSplittingRange_Some tst cSplittable cEqualRangeItems advance :
  (t_pSplittingRange tst < length (t_aSplittingRange tst))%nat →
  (t_ppSplittingRange tst < length (t_apSplittingRange tst))%nat →
  ∃ tst',
    AssignSplittingRange tst cSplittable cEqualRangeItems advance = Some tst'
    ∧ t_rangeValue tst' = t_rangeValue tst
    ∧ t_pSplittableValuesStart tst' = t_pSplittableValuesStart tst
    ∧ t_pStartEqualRange tst' = t_pStartEqualRange tst
    ∧ t_pScan tst' = t_pScan tst
    ∧ t_pSplittingRange tst'
      = (if advance then S (t_pSplittingRange tst) else t_pSplittingRange tst)
    ∧ t_ppSplittingRange tst'
      = (if advance then S (t_ppSplittingRange tst) else t_ppSplittingRange tst)
    ∧ length (t_aSplittingRange tst') = length (t_aSplittingRange tst)
    ∧ length (t_apSplittingRange tst') = length (t_apSplittingRange tst).
Proof.
  intros Ha Hap. unfold AssignSplittingRange.
  rewrite store_Some by done. cbn [mbind option_bind].
  rewrite store_Some by done. cbn [mbind option_bind].
  eexists. split; [reflexivity|]. simpl. by rewrite !length_insert.
Qed.

Lemma FillSplittingRanges_unfold fuel vals pValuesEnd avgLength cMin st :
  FillSplittingRanges (S fuel) vals pValuesEnd avgLength cMin st
  = if decide (pValuesEnd = t_pScan st) then Some st
    else
      val ← vals !! t_pScan st;
      st' ←
        (if Float_ne val (t_rangeValue st) then
           if avgLength <=? ptr_diff (t_pScan st) (t_pStartEqualRange st) then
             st1 ←
               (if negb (Nat.eqb 0 (t_pSplittableValuesStart st))
                   || (cMin <=? ptr_diff (t_pStartEqualRange st) (t_pSplittableValuesStart st))
                then
                  AssignSplittingRange st
                    (ptr_diff (t_pStartEqualRange st) (t_pSplittableValuesStart st))
                    (ptr_diff (t_pScan st) (t_pStartEqualRange st)) true
                else Some st);
             Some (TableState_step st1 val true true)
           else Some (TableState_step st val true false)
         else Some (TableState_step st val false false));
      FillSplittingRanges fuel vals pValuesEnd avgLength cMin st'.
Proof. reflexivity. Qed.

(** The second scan follows the first one and fills a record for every range
    that the first one counts, inside a table that has room for the counted
    ranges. *)
Lemma FillSplittingRanges_spec vals n avgLength cMin :
  (n ≤ length vals)%nat → Z.of_nat n ≤ INT64_MAX →
  ∀ fuel st tst st',
    scan_inv n st → scan_sim st tst → (n - pScan st ≤ fuel)%nat →
    CountSplittingRanges fuel vals n avgLength cMin st = Some st' →
    cSplittingRanges st' ≤ Z.of_nat (length (t_aSplittingRange tst)) →
    length (t_apSplittingRange tst) = length (t_aSplittingRange tst) →
    ∃ tst',
      FillSplittingRanges fuel vals n avgLength cMin tst = Some tst'
      ∧ scan_sim st' tst'
      ∧ length (t_aSplittingRange tst') = length (t_aSplittingRange tst)
      ∧ length (t_apSplittingRange tst') = length (t_aSplittingRange tst).
Proof.
  intros Hn Hmax. induction fuel as [|fuel IH];
    intros st tst st' Hinv Hsim Hfuel Hrun Hroom Hlens.
  - destruct Hinv as (? & ? & ? & ?), Hsim as (? & ? & ? & Hscan & ? & ?).
    simpl in *. rewrite decide_True in Hrun by lia. injection Hrun as <-.
    rewrite decide_True by lia. exists tst. by split_and!.
  - rewrite CountSplittingRanges_unfold in Hrun. rewrite FillSplittingRanges_unfold.
    pose proof Hinv as (H1 & H2 & H3 & H4).
    pose proof Hsim as (S1 & S2 & S3 & S4 & S5 & S6).
    rewrite S1, S2, S3, S4.
    case_decide as Hend.
    { injection Hrun as <-. exists tst. by split_and!. }
    destruct (lookup_lt_is_Some_2 vals (pScan st)) as [val Hval]; [lia|].
    rewrite Hval in *. cbn [mbind option_bind] in *.
    match type of Hrun with
    | CountSplittingRanges fuel _ _ _ _ ?s = _ => set (st1 := s) in *
    end.
    destruct (CountSplittingRanges_spec vals n avgLength cMin Hn Hmax (S fuel) st Hinv Hfuel)
      as (st'' & Hrun'' & _).
    assert (Hinv1 : scan_inv n st1 ∧ pScan st1 = S (pScan st)).
    { unfold st1, scan_inv.
      destruct (Float_ne val (rangeValue st)); [|simpl; lia].
      destruct (avgLength <=? _); [|simpl; lia].
      destruct (negb _ || _); simpl; [|lia].
      rewrite to_size_t_small by lia. lia. }
    destruct Hinv1 as [Hinv1 Hscan1].
    destruct (CountSplittingRanges_spec vals n avgLength cMin Hn Hmax fuel st1 Hinv1)
      as (st1' & Hrun1 & _ & _ & Hmono); [lia|].
    rewrite Hrun in Hrun1. injection Hrun1 as <-.
    assert (Hstep : ∃ tst1,
              (if Float_ne val (rangeValue st) then
                 if avgLength <=? ptr_diff (pScan st) (pStartEqualRange st) then
                   st1 ←
                     (if negb (Nat.eqb 0 (pSplittableValuesStart st))
                         || (cMin <=? ptr_diff (pStartEqualRange st) (pSplittableValuesStart st))
                      then
                        AssignSplittingRange tst
                          (ptr_diff (pStartEqualRange st) (pSplittableValuesStart st))
                          (ptr_diff (pScan st) (pStartEqualRange st)) true
                      else Some tst);
                   Some (TableState_step st1 val true true)
                 else Some (TableState_step tst val true false)
               else Some (TableState_step tst val false false)) = Some tst1
              ∧ scan_sim st1 tst1
              ∧ length (t_aSplittingRange tst1) = length (t_aSplittingRange tst)
              ∧ length (t_apSplittingRange tst1) = length (t_aSplittingRange tst)).
    { unfold st1 in *. clear st1.
      destruct (Float_ne val (rangeValue st)).
      2:{ eexists. split; [reflexivity|]. unfold scan_sim. simpl. split_and!; first [done|congruence|lia]. }
      destruct (avgLength <=? _).
      2:{ eexists. split; [reflexivity|]. unfold scan_sim. simpl.
          split_and!; first [done|congruence|lia]. }
      destruct (negb _ || _).
      2:{ cbn [mbind option_bind]. eexists. split; [reflexivity|].
          unfold scan_sim. simpl. split_and!; first [done|congruence|lia]. }
      simpl in Hmono. rewrite to_size_t_small in Hmono by lia.
      destruct (AssignSplittingRange_Some tst
                  (ptr_diff (pStartEqualRange st) (pSplittableValuesStart st))
                  (ptr_diff (pScan st) (pStartEqualRange st)) true)
        as (tst1 & -> & A1 & A2 & A3 & A4 & A5 & A6 & A7 & A8); [lia..|].
      cbn [mbind option_bind]. eexists. split; [reflexivity|].
      unfold scan_sim. simpl. rewrite to_size_t_small by lia.
      rewrite A4, A5, A6, A7, A8. split_and!; first [done|congruence|lia]. }
    destruct Hstep as (tst1 & -> & Hsim1 & Hlen1 & Hlen1').
    cbn [mbind option_bind].
    destruct (IH st1 tst1 st' Hinv1 Hsim1) as (tst' & Hfill & Hsim' & Hl & Hl');
      [lia|done|lia|lia|].
    exists tst'. split_and!; try done; lia.
Qed.

Lemma CheckForSplitPoint_Some vals checkValue pLast :
  (pLast < length vals)%nat →
  ∀ fuel p, (S pLast - p ≤ fuel)%nat →
    is_Some (CheckForSplitPoint fuel vals checkValue p pLast).
Proof.
  intros Hlast. induction fuel as [|fuel IH]; intros p Hfuel; simpl.
  - rewrite decide_False by lia. done.
  - case_decide as Hp; [|done].
    destruct (lookup_lt_is_Some_2 vals p) as [val Hval]; [lia|].
    rewrite Hval. cbn [mbind option_bind]. destruct (Float_ne checkValue val); [done|].
    apply IH. lia.
Qed.

(** After the first scan the code either leaves with no cut point or goes on
    with at least one splitting range and no fewer than the scan has counted. *)
Lemma DecideSplittingRanges_spec vals n cMin st :
  (n ≤ length vals)%nat → Z.of_nat n ≤ INT64_MAX →
  1 ≤ cMin → 2 * cMin ≤ Z.of_nat n →
  scan_inv n st →
  ∃ c, DecideSplittingRanges vals n cMin st = Some c
       ∧ ∀ cSplittingRanges', c = Some cSplittingRanges' →
           1 ≤ cSplittingRanges' ≤ INT64_MAX
           ∧ ((pSplittableValuesStart st = 0%nat ∧ cSplittingRanges' = 1)
              ∨ (pSplittableValuesStart st ≠ 0%nat
                 ∧ cMin ≤ Z.of_nat n - Z.of_nat (pSplittableValuesStart st)
                 ∧ cSplittingRanges' = cSplittingRanges st + 1)
              ∨ (pSplittableValuesStart st ≠ 0%nat
                 ∧ Z.of_nat n - Z.of_nat (pSplittableValuesStart st) < cMin
                 ∧ cSplittingRanges' = cSplittingRanges st)).
Proof.
  intros Hn Hmax Hmin Htwice (H1 & H2 & H3 & H4). unfold DecideSplittingRanges.
  destruct (Nat.eqb_spec 0 (pSplittableValuesStart st)) as [Hstart|Hstart].
  - unfold ptr_sub. rewrite !decide_True by lia. cbn [mbind option_bind].
    destruct (lookup_lt_is_Some_2 vals (Z.to_nat cMin - 1)) as [checkValue Hcheck]; [lia|].
    rewrite Hcheck. cbn [mbind option_bind].
    destruct (CheckForSplitPoint_Some vals checkValue (n - Z.to_nat cMin) ltac:(lia) n
                (Z.to_nat cMin)) as [found Hfound]; [lia|].
    rewrite Hfound. cbn [mbind option_bind]. eexists. split; [reflexivity|].
    intros c Hc. destruct found; [|done]. injection Hc as <-.
    unfold INT64_MAX. split; [lia|]. left. split; [lia|done].
  - rewrite ptr_diff_small by lia.
    destruct (Z.leb_spec cMin (Z.of_nat n - Z.of_nat (pSplittableValuesStart st))).
    + eexists. split; [reflexivity|]. intros c [= <-].
      rewrite to_size_t_small by lia. split; [lia|]. right. left. split_and!; [lia|lia|done].
    + destruct (Z.eqb_spec 0 (cSplittingRanges st)).
      * eexists. split; [reflexivity|]. done.
      * eexists. split; [reflexivity|]. intros c [= <-]. split; [lia|].
        right. right. split_and!; [lia|lia|done].
Qed.

(** The table is built inside its two arrays. *)
Lemma BuildSplittingRanges_Some vals n cMaximumBins avgLength cMin st c :
  (1 ≤ n)%nat → (n ≤ length vals)%nat → Z.of_nat n ≤ INT64_MAX →
  1 ≤ cMin → cMin ≤ avgLength →
  (∃ first,
     vals !! 0%nat = Some first
     ∧ CountSplittingRanges n vals n avgLength cMin
         {| rangeValue := first; pSplittableValuesStart := 0%nat;
            pStartEqualRange := 0%nat; pScan := 1%nat; cSplittingRanges := 0 |} = Some st) →
  scan_inv n st → pScan st = n →
  1 ≤ c ≤ INT64_MAX →
  (pSplittableValuesStart st = 0%nat ∧ c = 1)
  ∨ (pSplittableValuesStart st ≠ 0%nat
     ∧ cMin ≤ Z.of_nat n - Z.of_nat (pSplittableValuesStart st)
     ∧ c = cSplittingRanges st + 1)
  ∨ (pSplittableValuesStart st ≠ 0%nat
     ∧ Z.of_nat n - Z.of_nat (pSplittableValuesStart st) < cMin
     ∧ c = cSplittingRanges st) →
  is_Some (BuildSplittingRanges vals n cMaximumBins avgLength cMin c).
Proof.
  intros Hpos Hn Hmax Hmin Havg (first & Hfirst & Hcount) Hinv Hend Hc Hcases.
  unfold BuildSplittingRanges. rewrite Hfirst. cbn [mbind option_bind].
  pose proof Hinv as (H1 & H2 & H3 & H4).
  match goal with
  | |- context [FillSplittingRanges n vals n avgLength cMin ?t] => set (tst0 := t)
  end.
  destruct (FillSplittingRanges_spec vals n avgLength cMin Hn Hmax n
              {| rangeValue := first; pSplittableValuesStart := 0%nat;
                 pStartEqualRange := 0%nat; pScan := 1%nat; cSplittingRanges := 0 |}
              tst0 st)
    as (tst & -> & (S1 & S2 & S3 & S4 & S5 & S6) & Hla & Hlap).
  { unfold scan_inv. simpl. lia. }
  { unfold scan_sim. simpl. by split_and!. }
  { simpl. lia. }
  { done. }
  { simpl. rewrite length_replicate. lia. }
  { simpl. by rewrite !length_replicate. }
  simpl in Hla, Hlap. rewrite length_replicate in Hla, Hlap.
  cbn [mbind option_bind]. unfold FinishSplittingRanges.
  rewrite S2, S3. rewrite !ptr_diff_small by lia.
  assert (Hassign : ∀ x y, (Z.of_nat (t_pSplittingRange tst) < c) →
            ∃ tst', AssignSplittingRange tst x y false = Some tst'
                    ∧ length (t_aSplittingRange tst') = Z.to_nat c).
  { intros x y Hlt.
    destruct (AssignSplittingRange_Some tst x y false)
      as (tst' & -> & _ & _ & _ & _ & _ & _ & A7 & _); [lia..|].
    exists tst'. split; [done|]. lia. }
  assert (Hflag : ∀ tst', length (t_aSplittingRange tst') = Z.to_nat c →
            is_Some (rLast ← t_aSplittingRange tst' !! Z.to_nat (c - 1);
                     a ← store (t_aSplittingRange tst') (Z.to_nat (c - 1))
                           {| m_pSplittableValuesStart := m_pSplittableValuesStart rLast;
                              m_cSplittableItems := m_cSplittableItems rLast;
                              m_cUnsplittablePriorItems := m_cUnsplittablePriorItems rLast;
                              m_cUnsplittableSubsequentItems := m_cUnsplittableSubsequentItems rLast;
                              m_cUnsplittableEitherSideMax := m_cUnsplittableEitherSideMax rLast;
                              m_cUnsplittableEitherSideMin := m_cUnsplittableEitherSideMin rLast;
                              m_cSplitsAssigned := m_cSplitsAssigned rLast;
                              m_flags := Z.lor (m_flags rLast) k_LastSplittingRange |};
                     Some {| t_rangeValue := t_rangeValue tst';
                             t_pSplittableValuesStart := t_pSplittableValuesStart tst';
                             t_pStartEqualRange := t_pStartEqualRange tst';
                             t_pScan := t_pScan tst';
                             t_pSplittingRange := t_pSplittingRange tst';
                             t_ppSplittingRange := t_ppSplittingRange tst';
                             t_cRemainingSplittingRanges := t_cRemainingSplittingRanges tst';
                             t_cTotalSplittable := t_cTotalSplittable tst';
                             t_cEqualRangeItemsPrior := t_cEqualRangeItemsPrior tst';
                             t_aSplittingRange := a;
                             t_apSplittingRange := t_apSplittingRange tst' |})).
  { intros tst' Hlen.
    destruct (lookup_lt_is_Some_2 (t_aSplittingRange tst') (Z.to_nat (c - 1))) as [r Hr]; [lia|].
    rewrite Hr. cbn [mbind option_bind]. rewrite store_Some by lia. done. }
  destruct (Z.leb_spec avgLength (Z.of_nat n - Z.of_nat (pStartEqualRange st))) as [Hlong|Hshort].
  - destruct (Nat.eqb_spec 0 (pSplittableValuesStart st)) as [Hstart|Hstart]; cbn [negb orb].
    + destruct (Z.leb_spec cMin (Z.of_nat (pStartEqualRange st)
                                 - Z.of_nat (pSplittableValuesStart st))).
      * destruct (Hassign (Z.of_nat (pStartEqualRange st) - Z.of_nat (pSplittableValuesStart st))
                    (Z.of_nat n - Z.of_nat (pStartEqualRange st))) as (tst' & -> & Hlen); [lia|].
        cbn [mbind option_bind]. by apply Hflag.
      * cbn [mbind option_bind]. apply Hflag. lia.
    + destruct (Hassign (Z.of_nat (pStartEqualRange st) - Z.of_nat (pSplittableValuesStart st))
                  (Z.of_nat n - Z.of_nat (pStartEqualRange st))) as (tst' & -> & Hlen); [lia|].
      cbn [mbind option_bind]. by apply Hflag.
  - destruct (Z.eqb_spec (Z.of_nat (t_pSplittingRange tst)) c) as [Heq|Hne]; cbn [negb].
    + cbn [mbind option_bind]. apply Hflag. lia.
    + destruct (Hassign (Z.of_nat n - Z.of_nat (pSplittableValuesStart st))
                  (Z.of_nat n - Z.of_nat (pStartEqualRange st))) as (tst' & -> & Hlen); [lia|].
      cbn [mbind option_bind]. by apply Hflag.
Qed.

Lemma GetCountBinsMax_loop_Some d : ∀ fuel cMaximumBins,
  (d < fuel)%nat →
  is_Some (GetCountBinsMax_loop fuel (2 ^ (Z.of_nat d + 4)) cMaximumBins).
Proof.
  induction d as [|d IH]; intros fuel cMax Hfuel.
  all: destruct fuel as [|fuel]; [lia|]; simpl.
  all: destruct (_ =? cMax); [done|].
  - done.
  - rewrite Z.shiftr_div_pow2 by lia. change (2 ^ 1) with 2.
    replace (2 ^ (Z.of_nat (S d) + 4) `div` 2) with (2 ^ (Z.of_nat d + 4)).
    2:{ replace (Z.of_nat (S d) + 4) with (Z.succ (Z.of_nat d + 4)) by lia.
        rewrite Z.pow_succ_r by lia. rewrite Z.mul_comm, Z.div_mul; lia. }
    destruct (8 =? _); [done|]. apply IH. lia.
Qed.

Lemma GetCountBinsMax_Some bMissing countMaximumBins :
  is_Some (GetCountBinsMax bMissing countMaximumBins).
Proof.
  unfold GetCountBinsMax. destruct bMissing; [|done].
  change (to_size_t (Z.shiftr (to_size_t (Z.lnot 0)) 1 + 1)) with (2 ^ (Z.of_nat 59 + 4)).
  change (Z.to_nat size_t_bits) with 64%nat.
  apply GetCountBinsMax_loop_Some. lia.
Qed.

Lemma GetAvgLength_ge cInstances cMaximumBins cMin avgLength :
  GetAvgLength cInstances cMaximumBins cMin = Some avgLength → cMin ≤ avgLength.
Proof.
  unfold GetAvgLength. destruct (Float_to_size_t _) as [a|]; [|done].
  cbn [mbind option_bind]. destruct (GetAvgLength_loop _ _ _) as [a'|]; [|done].
  cbn [mbind option_bind]. intros [= <-]. destruct (Z.ltb_spec a' cMin); lia.
Qed.

Lemma std_sort_range_length {A} (comp : A → A → bool) a n :
  length (std_sort_range comp a n) = length a.
Proof. apply Permutation_length, std_sort_range_Permutation. Qed.

(** A call on a buffer of [countInstances] values, with parameters of the
    [IntEbmType] range that are not negative, returns, provided the
    floating-point computation of the average length has a defined result:
    every access of the two scans, of the check for a split point and of the
    table is inside its array. *)
Lemma GenerateQuantileCutPoints_returns env randomSeed countInstances countMaximumBins
    countMinimumInstancesPerBin mem :
  0 ≤ countInstances ≤ INT64_MAX →
  Z.of_nat (length (singleFeatureValues mem)) = countInstances →
  0 ≤ countMaximumBins ≤ INT64_MAX →
  0 ≤ countMinimumInstancesPerBin ≤ INT64_MAX →
  (∀ bMissing cMaximumBins,
     2 ≤ countMaximumBins →
     1 ≤ Z.of_nat (length (nonmissing (singleFeatureValues mem))) →
     GetCountBinsMax bMissing countMaximumBins = Some cMaximumBins →
     is_Some (GetAvgLength (Z.of_nat (length (nonmissing (singleFeatureValues mem))))
                cMaximumBins
                (if countMinimumInstancesPerBin <=? 0 then 1 else countMinimumInstancesPerBin))) →
  is_Some (GenerateQuantileCutPoints env randomSeed countInstances countMaximumBins
             countMinimumInstancesPerBin mem).
Proof.
  intros Hn Hlen Hbins Hmin Havg. unfold GenerateQuantileCutPoints.
  rewrite !IsNumberConvertable_size_t_true by lia. cbn [negb].
  rewrite (to_size_t_small countInstances) by lia.
  destruct (Z.eqb_spec 0 countInstances) as [|Hnz]; [done|].
  destruct (RemoveMissingValues_spec (singleFeatureValues mem) (Z.to_nat countInstances))
    as (filtered & Hrun & Hlen' & _); [lia..|].
  rewrite take_ge in Hrun by lia. rewrite Hrun. cbn [mbind option_bind].
  set (n := length (nonmissing (singleFeatureValues mem))) in *.
  assert (Hle : (n ≤ length (singleFeatureValues mem))%nat) by apply length_filter.
  rewrite ptr_diff_small by lia. rewrite Z.sub_0_r.
  destruct (Z.eqb_spec 0 (Z.of_nat n)) as [|Hpos]; [done|].
  unfold CutSortedValues.
  set (vals := std_sort_range Float_lt filtered n).
  assert (Hvals : length vals = length (singleFeatureValues mem)).
  { unfold vals. by rewrite std_sort_range_length. }
  destruct (lookup_lt_is_Some_2 vals 0) as [first Hfirst]; [lia|].
  rewrite Hfirst. cbn [mbind option_bind].
  unfold ptr_sub. rewrite decide_True by lia. cbn [mbind option_bind].
  destruct (lookup_lt_is_Some_2 vals (n - 1)) as [last Hlast]; [lia|].
  rewrite Hlast. cbn [mbind option_bind].
  destruct (Z.leb_spec countMaximumBins 1) as [|Htwo]; [done|].
  set (cMin := if countMinimumInstancesPerBin <=? 0 then 1 else countMinimumInstancesPerBin) in *.
  assert (HcMin : 1 ≤ cMin ≤ INT64_MAX).
  { unfold cMin. destruct (Z.leb_spec countMinimumInstancesPerBin 0); unfold INT64_MAX in *; lia. }
  replace (if countMinimumInstancesPerBin <=? 0 then 1
           else to_size_t countMinimumInstancesPerBin) with cMin.
  2:{ unfold cMin. destruct (countMinimumInstancesPerBin <=? 0); [done|].
      by rewrite to_size_t_small by lia. }
  assert (Hshift : to_size_t (Z.shiftl cMin 1) = 2 * cMin).
  { rewrite Z.shiftl_mul_pow2 by lia. change (2 ^ 1) with 2.
    unfold to_size_t, size_t_bits. unfold INT64_MAX in HcMin.
    rewrite Z.mod_small; lia. }
  rewrite Hshift. destruct (Z.ltb_spec (Z.of_nat n) (2 * cMin)) as [|Htwice]; [done|].
  destruct (GetCountBinsMax_Some
              (negb (Nat.eqb (Z.to_nat countInstances) n)) countMaximumBins)
    as [cMaximumBins HcMax].
  rewrite HcMax. cbn [mbind option_bind].
  destruct (Havg _ _ ltac:(lia) ltac:(lia) HcMax) as [avgLength Hlength].
  rewrite Hlength. cbn [mbind option_bind].
  pose proof (GetAvgLength_ge _ _ _ _ Hlength) as Havg_ge.
  destruct (CountSplittingRanges_spec vals n avgLength cMin ltac:(lia) ltac:(lia) n
              {| rangeValue := first; pSplittableValuesStart := 0%nat;
                 pStartEqualRange := 0%nat; pScan := 1%nat; cSplittingRanges := 0 |})
    as (st & Hcount & Hinv & Hend & _).
  { unfold scan_inv. simpl. lia. }
  { simpl. lia. }
  rewrite Hcount. cbn [mbind option_bind].
  destruct (DecideSplittingRanges_spec vals n cMin st) as (c & -> & Hc); [lia..|done|].
  cbn [mbind option_bind]. destruct c as [c|]; [|done].
  destruct (Hc c eq_refl) as [Hrange Hcases].
  unfold AssignCuts. destruct (RandomStream_construct env randomSeed) as [|[|]]; [done| |done].
  destruct (IsMultiplyError _ _); [done|]. destruct (malloc_succeeds env _); [|done].
  cbn [negb].
  destruct (BuildSplittingRanges_Some vals n cMaximumBins avgLength cMin st c)
    as [tst ->]; try done; try lia.
  exists first. by split.
Qed.

Lemma GetCountBinsMax_loop_range fuel : ∀ cBits cMaximumBins cResult,
  1 ≤ cMaximumBins ≤ SIZE_MAX →
  GetCountBinsMax_loop fuel cBits cMaximumBins = Some cResult →
  cMaximumBins - 1 ≤ cResult ≤ cMaximumBins.
Proof.
  induction fuel as [|fuel IH]; intros cBits cMax cResult Hrange; simpl; [done|].
  destruct (cBits =? cMax).
  - intros [= <-]. unfold to_size_t. rewrite Z.mod_small; [lia|].
    unfold SIZE_MAX in Hrange. lia.
  - destruct (8 =? _); [intros [= <-]; lia|]. by apply IH.
Qed.

Lemma GetCountBinsMax_range bMissing countMaximumBins cMaximumBins :
  1 ≤ countMaximumBins ≤ INT64_MAX →
  GetCountBinsMax bMissing countMaximumBins = Some cMaximumBins →
  countMaximumBins - 1 ≤ cMaximumBins ≤ countMaximumBins.
Proof.
  intros Hrange. unfold GetCountBinsMax. rewrite (to_size_t_small countMaximumBins) by lia.
  destruct bMissing; [|intros [= <-]; lia].
  apply GetCountBinsMax_loop_range. unfold INT64_MAX, SIZE_MAX, size_t_bits in *. lia.
Qed.

(** A call on fewer than [2 ^ 52] values with fewer than [2 ^ 53] bins
    returns. *)
Lemma GenerateQuantileCutPoints_returns_small env randomSeed countInstances countMaximumBins
    countMinimumInstancesPerBin mem :
  0 ≤ countInstances ≤ INT64_MAX →
  Z.of_nat (length (singleFeatureValues mem)) = countInstances →
  0 ≤ countMaximumBins ≤ INT64_MAX →
  0 ≤ countMinimumInstancesPerBin ≤ INT64_MAX →
  countInstances < 2 ^ 52 → countMaximumBins < 2 ^ 53 →
  is_Some (GenerateQuantileCutPoints env randomSeed countInstances countMaximumBins
             countMinimumInstancesPerBin mem).
Proof.
  intros Hn Hlen Hbins Hmin Hsmall Hfew.
  apply GenerateQuantileCutPoints_returns; try done.
  intros bMissing cMaximumBins Htwo Hpos HcMax.
  pose proof (GetCountBinsMax_range bMissing countMaximumBins cMaximumBins ltac:(lia) HcMax).
  pose proof (length_filter (λ v, isnan v = false) (singleFeatureValues mem)).
  fold (nonmissing (singleFeatureValues mem)) in *.
  rewrite GetAvgLength_exact; [done|lia|lia].
Qed.

(** *** The call on a buffer with missing values *)

(** C3: on a buffer of [n >= 1] values, [RemoveMissingValues] returns the
    number of the values that are not NaN and leaves those values, in their
    order, in front of the buffer; and when a call of
    [GenerateQuantileCutPoints] on the buffer returns, the had-missing flag is
    [EBM_TRUE] if and only if a value was NaN, which is when the returned
    length is below [n], and [EBM_FALSE] otherwise.  For fewer than [2 ^ 52]
    values and fewer than [2 ^ 53] bins the call is proved to return. *)
Theorem RemoveMissingValues_compacts env randomSeed countInstances countMaximumBins
    countMinimumInstancesPerBin values cuts c m mn mx :
  1 ≤ countInstances ≤ INT64_MAX →
  Z.of_nat (length values) = countInstances →
  0 ≤ countMaximumBins ≤ INT64_MAX →
  0 ≤ countMinimumInstancesPerBin ≤ INT64_MAX →
  ∃ values',
    RemoveMissingValues values (length values)
    = Some (values', length (nonmissing values))
    ∧ length values' = length values
    ∧ take (length (nonmissing values)) values' = nonmissing values
    ∧ match GenerateQuantileCutPoints env randomSeed countInstances countMaximumBins
              countMinimumInstancesPerBin (Build_Memory values cuts c m mn mx) with
      | Some (_, mem') =>
          (isMissing mem' = EBM_TRUE ↔ Exists (λ v, isnan v = true) values)
          ∧ (isMissing mem' = EBM_TRUE ↔ (length (nonmissing values) < length values)%nat)
          ∧ (isMissing mem' = EBM_FALSE ↔ ¬ Exists (λ v, isnan v = true) values)
      | None => True
      end
    ∧ (countInstances < 2 ^ 52 → countMaximumBins < 2 ^ 53 →
       is_Some (GenerateQuantileCutPoints env randomSeed countInstances countMaximumBins
                  countMinimumInstancesPerBin (Build_Memory values cuts c m mn mx))).
Proof.
  intros Hn Hlen Hbins Hmin.
  destruct (RemoveMissingValues_spec values (length values))
    as (values' & Hrun & Hlen' & Htake & _); [lia..|].
  rewrite (take_ge values (length values)) in Hrun, Htake by lia.
  exists values'. split_and!; try done.
  2:{ intros Hsmall Hfew. apply GenerateQuantileCutPoints_returns_small; simpl; lia. }
  destruct (GenerateQuantileCutPoints_outcome env randomSeed countInstances countMaximumBins
              countMinimumInstancesPerBin values) as (o & Hsound & Hsize & Hrun').
  rewrite Hrun'.
  assert (Hflag : ∀ flag vals minVal maxVal,
            outcome_values countInstances values flag vals minVal maxVal →
            (flag = EBM_TRUE ↔ Exists (λ v, isnan v = true) values)
            ∧ (flag = EBM_TRUE ↔ (length (nonmissing values) < length values)%nat)
            ∧ (flag = EBM_FALSE ↔ ¬ Exists (λ v, isnan v = true) values)).
  { intros flag vals minVal maxVal. unfold outcome_values.
    rewrite to_size_t_small by lia.
    destruct (Z.eqb_spec 0 countInstances) as [|_]; [lia|].
    replace (Z.to_nat countInstances) with (length values) by lia.
    rewrite Hrun. intros (filtered & pValuesEnd & [= <- <-] & -> & _).
    rewrite <- nonmissing_length_lt. pose proof (length_filter (λ v, isnan v = false) values).
    fold (nonmissing values) in *.
    destruct (Nat.eqb_spec (length values) (length (nonmissing values))) as [Heq|Hne];
      unfold EBM_TRUE, EBM_FALSE; split_and!; split; try done; lia. }
  destruct o as [| |flag vals minVal maxVal|flag vals minVal maxVal]; simpl.
  - done.
  - destruct Hsize as [Hsize _]. specialize (Hsize eq_refl).
    rewrite !IsNumberConvertable_size_t_true in Hsize by lia. done.
  - destruct Hsound as [_ Hvals]. by apply Hflag in Hvals.
  - by apply Hflag in Hsound.
Qed.

Lemma RemoveMissingValues_compacts_witness :
  ∃ values',
    RemoveMissingValues [Float_of_size_t 1; S754_nan; Float_of_size_t 2] 3
    = Some (values', 2%nat)
    ∧ length values' = 3%nat
    ∧ take 2 values' = [Float_of_size_t 1; Float_of_size_t 2].
Proof.
  destruct (RemoveMissingValues_compacts env_ok 0 3 4 1
              [Float_of_size_t 1; S754_nan; Float_of_size_t 2] [] 7 7 S754_nan S754_nan)
    as (values' & Hrun & Hlength & Htake & _); [unfold INT64_MAX; simpl; lia..|].
  exists values'. split_and!; [exact Hrun|exact Hlength|exact Htake].
Defined.

(** * Further properties of the code *)

(** ** [RemoveMissingValues] on its own *)

Lemma nonmissing_Forall l : Forall (λ v, isnan v = false) (nonmissing l).
Proof.
  apply Forall_forall. intros v Hv. unfold nonmissing in Hv.
  by apply list_elem_of_filter in Hv as [Hv _].
Qed.

(** X1: on values without a NaN, [RemoveMissingValues] writes nothing: the
    buffer is as it was and the returned pointer is [pValuesEnd]. *)
Theorem RemoveMissingValues_no_missing a pEnd :
  (1 ≤ pEnd)%nat → (pEnd ≤ length a)%nat →
  Forall (λ v, isnan v = false) (take pEnd a) →
  RemoveMissingValues a pEnd = Some (a, pEnd).
Proof.
  intros H1 Hlen Hall.
  destruct (RemoveMissingValues_spec a pEnd H1 Hlen) as (a' & Hrun & Hlen' & Htake & Hdrop).
  rewrite (nonmissing_all _ Hall) in Hrun, Htake.
  rewrite length_take_le in Hrun, Htake by done.
  rewrite Hrun. do 2 f_equal.
  by rewrite <- (take_drop pEnd a'), Htake, Hdrop, take_drop.
Qed.

Lemma RemoveMissingValues_no_missing_witness :
  RemoveMissingValues (Float_of_size_t <$> [3; 1; 2]) 2
  = Some (Float_of_size_t <$> [3; 1; 2], 2%nat).
Proof.
  apply RemoveMissingValues_no_missing; [simpl; lia..|].
  vm_compute. by repeat constructor.
Defined.

(** X2: [RemoveMissingValues] on the first [pValuesEnd] elements of a buffer
    returns a pointer that is not behind [pValuesEnd], leaves every element
    from [pValuesEnd] on as it was, has only numbers in front of the returned
    pointer, and a second call on its result changes nothing. *)
Theorem RemoveMissingValues_frame a pEnd :
  (1 ≤ pEnd)%nat → (pEnd ≤ length a)%nat →
  ∃ a' pCopyTo,
    RemoveMissingValues a pEnd = Some (a', pCopyTo)
    ∧ (pCopyTo ≤ pEnd)%nat
    ∧ length a' = length a
    ∧ (∀ i, (pEnd ≤ i)%nat → a' !! i = a !! i)
    ∧ Forall (λ v, isnan v = false) (take pCopyTo a')
    ∧ ((1 ≤ pCopyTo)%nat → RemoveMissingValues a' pCopyTo = Some (a', pCopyTo)).
Proof.
  intros H1 Hlen.
  destruct (RemoveMissingValues_spec a pEnd H1 Hlen) as (a' & Hrun & Hlen' & Htake & Hdrop).
  assert (length (nonmissing (take pEnd a)) ≤ pEnd)%nat as Hle.
  { unfold nonmissing. etrans; [apply length_filter|]. rewrite length_take. lia. }
  assert (Forall (λ v, isnan v = false) (take (length (nonmissing (take pEnd a))) a'))
    as Hnum by (rewrite Htake; apply nonmissing_Forall).
  eexists _, _. split_and!; [done|done|done| |done|].
  - intros i Hi. replace i with (pEnd + (i - pEnd))%nat by lia.
    by rewrite <- !lookup_drop, Hdrop.
  - intros Hp. set (p := length (nonmissing (take pEnd a))) in *.
    destruct (RemoveMissingValues_spec a' p Hp ltac:(lia))
      as (a'' & Hrun' & Hlen'' & Htake' & Hdrop').
    rewrite (nonmissing_all _ Hnum) in Hrun', Htake'.
    rewrite length_take_le in Hrun', Htake' by lia.
    rewrite Hrun'. do 2 f_equal.
    by rewrite <- (take_drop p a''), Htake', Hdrop', take_drop.
Qed.

Lemma RemoveMissingValues_frame_witness :
  ∃ a' pCopyTo,
    RemoveMissingValues [S754_nan; Float_of_size_t 1; S754_nan; Float_of_size_t 2] 3
    = Some (a', pCopyTo)
    ∧ (pCopyTo ≤ 3)%nat
    ∧ a' !! 3%nat = Some (Float_of_size_t 2).
Proof.
  destruct (RemoveMissingValues_frame
              [S754_nan; Float_of_size_t 1; S754_nan; Float_of_size_t 2] 3)
    as (a' & p & Hrun & Hp & _ & Hframe & _); [simpl; lia..|].
  exists a', p. split_and!; [done|done|]. by rewrite Hframe by lia.
Defined.

(** ** The value buffer and the extreme values after [GenerateQuantileCutPoints] *)

Lemma Float_le_refl a : isnan a = false → Float_le a a = true.
Proof.
  intros Ha. destruct (Float_le a a) eqn:Hle; [done|].
  pose proof (Float_lt_irrefl a) as Hirr.
  by rewrite (Float_not_le_lt a a Ha Ha Hle) in Hirr.
Qed.

Lemma Float_not_lt_le a b :
  isnan a = false → isnan b = false → Float_lt b a = false → Float_le a b = true.
Proof.
  intros Ha Hb Hlt. destruct (Float_le a b) eqn:Hle; [done|].
  by rewrite (Float_not_le_lt a b Ha Hb Hle) in Hlt.
Qed.

Lemma StronglySorted_lookup_lt {A} (R : relation A) l i j a b :
  StronglySorted R l → l !! i = Some a → l !! j = Some b → (i < j)%nat → R a b.
Proof.
  intros Hsorted. revert i j. induction Hsorted as [|x l Hl IH Hx]; intros i j Hi Hj Hij.
  - done.
  - destruct j as [|j]; [lia|]. destruct i as [|i]; simpl in *.
    + injection Hi as <-. rewrite Forall_forall in Hx. apply Hx.
      by eapply list_elem_of_lookup_2.
    + eapply IH; [done..|lia].
Qed.

Lemma StronglySorted_Forall_impl {A} (R1 R2 : relation A) (P : A → Prop) l :
  (∀ x y, P x → P y → R1 x y → R2 x y) →
  Forall P l → StronglySorted R1 l → StronglySorted R2 l.
Proof.
  intros HR HP Hsorted. induction Hsorted as [|x l Hl IH Hx]; [constructor|].
  apply Forall_cons in HP as [HPx HPl]. constructor; [by apply IH|].
  rewrite Forall_forall in *. intros y Hy. apply HR; auto.
Qed.

Lemma Float_lt_le_lt a b c :
  Float_lt a b = true → Float_le b c = true → Float_lt a c = true.
Proof.
  unfold Float_lt, Float_le, SFltb, SFleb. intros Hab Hbc.
  rewrite (SFcompare_lt_le_trans a b c); [done| |].
  - by destruct (SFcompare a b) as [[]|].
  - destruct (SFcompare b c) as [[]|]; auto; done.
Qed.

Lemma Float_le_trans a b c :
  isnan a = false → isnan c = false →
  Float_le a b = true → Float_le b c = true → Float_le a c = true.
Proof.
  intros Ha Hc Hab Hbc. destruct (Float_le a c) eqn:Hac; [done|].
  pose proof (Float_not_le_lt a c Ha Hc Hac) as Hca.
  pose proof (Float_lt_le_lt c a b Hca Hab) as Hcb.
  by rewrite (Float_lt_not_le c b Hcb) in Hbc.
Qed.

Lemma Float_le_not_lt a b : Float_le a b = true → Float_lt b a = false.
Proof.
  intros Hab. destruct (Float_lt b a) eqn:Hba; [|done].
  by rewrite (Float_lt_not_le b a Hba) in Hab.
Qed.

Lemma Float_le_not_nan a b : Float_le a b = true → isnan a = false ∧ isnan b = false.
Proof. by destruct a, b. Qed.

(** [std::sort] puts in order the elements of a list on which the comparison
    is a strict weak ordering, as [<] is on the binary64 numbers that are not
    NaN. *)
Lemma std_sort_insert_sorted_on {A} (comp : A → A → bool) (P : A → Prop) x l :
  (∀ x y, P x → P y → comp x y = true → comp y x = false) →
  (∀ x y z, P x → P y → P z → comp y x = false → comp z y = false → comp z x = false) →
  P x → Forall P l →
  StronglySorted (λ a b, comp b a = false) l →
  StronglySorted (λ a b, comp b a = false) (std_sort_insert comp x l).
Proof.
  intros Hasym Htrans Hx HP Hsorted.
  induction Hsorted as [|y l Hsorted IH Hy]; simpl; [repeat constructor|].
  apply Forall_cons in HP as [HPy HPl].
  destruct (comp y x) eqn:Hyx.
  - constructor; [by apply IH|].
    rewrite std_sort_insert_Permutation. constructor; [by apply Hasym|done].
  - constructor; [by constructor|]. constructor; [done|].
    rewrite Forall_forall in *. intros z Hz. apply (Htrans x y z); auto.
Qed.

Lemma std_sort_sorted_on {A} (comp : A → A → bool) (P : A → Prop) l :
  (∀ x y, P x → P y → comp x y = true → comp y x = false) →
  (∀ x y z, P x → P y → P z → comp y x = false → comp z y = false → comp z x = false) →
  Forall P l →
  StronglySorted (λ a b, comp b a = false) (std_sort comp l).
Proof.
  intros Hasym Htrans HP. induction HP as [|x l Hx HP IH]; simpl; [constructor|].
  apply (std_sort_insert_sorted_on comp P); try done.
  by rewrite std_sort_Permutation.
Qed.

Lemma std_sort_Float_lt_sorted l :
  Forall (λ v, isnan v = false) l →
  StronglySorted (λ a b, Float_le a b = true) (std_sort Float_lt l).
Proof.
  intros Hnum.
  apply (StronglySorted_Forall_impl (λ a b, Float_lt b a = false)
           (λ a b, Float_le a b = true) (λ v, isnan v = false)).
  - intros x y Hx Hy. by apply Float_not_lt_le.
  - by rewrite std_sort_Permutation.
  - apply (std_sort_sorted_on Float_lt (λ v, isnan v = false)); [| |done].
    + intros x y _ _ Hxy. apply Float_le_not_lt.
      destruct (Float_le x y) eqn:Hle; [done|].
      by rewrite (Float_lt_le_trans x y y Hxy) in Hle
        by (apply Float_le_refl; by destruct y, x).
    + intros x y z Hx Hy Hz Hyx Hzy. apply Float_le_not_lt.
      apply (Float_le_trans x y z); [done|done|by apply Float_not_lt_le..].
Qed.

(** What every returning call on at least one value, with counts that fit,
    leaves in the value buffer and in the two extreme values. *)
Lemma GenerateQuantileCutPoints_values env randomSeed countInstances countMaximumBins
    countMinimumInstancesPerBin values cuts c m mn mx s mem' :
  1 ≤ countInstances ≤ INT64_MAX →
  Z.of_nat (length values) = countInstances →
  0 ≤ countMaximumBins ≤ INT64_MAX →
  0 ≤ countMinimumInstancesPerBin ≤ INT64_MAX →
  GenerateQuantileCutPoints env randomSeed countInstances countMaximumBins
    countMinimumInstancesPerBin (Build_Memory values cuts c m mn mx) = Some (s, mem') →
  take (length (nonmissing values)) (singleFeatureValues mem')
  = std_sort Float_lt (nonmissing values)
  ∧ length (singleFeatureValues mem') = length values
  ∧ match nonmissing values with
    | [] => minValue mem' = Float_zero ∧ maxValue mem' = Float_zero
    | _ :: _ =>
        singleFeatureValues mem' !! 0%nat = Some (minValue mem')
        ∧ singleFeatureValues mem' !! (length (nonmissing values) - 1)%nat
          = Some (maxValue mem')
    end.
Proof.
  intros Hn Hlen HcMax HcMin Hrun.
  destruct (GenerateQuantileCutPoints_outcome env randomSeed countInstances countMaximumBins
              countMinimumInstancesPerBin values) as (o & Hsound & Hsize & Ho).
  rewrite Ho in Hrun.
  assert (outcome_values countInstances values (isMissing mem') (singleFeatureValues mem')
            (minValue mem') (maxValue mem')) as Hvalues.
  { destruct o as [| |flag vals minVal maxVal|flag vals minVal maxVal]; simpl in *.
    - done.
    - destruct Hsize as [Hsize _]. specialize (Hsize eq_refl).
      rewrite !IsNumberConvertable_size_t_true in Hsize by lia. done.
    - injection Hrun as <- <-. simpl. by destruct Hsound.
    - injection Hrun as <- <-. by simpl. }
  unfold outcome_values in Hvalues.
  rewrite to_size_t_small in Hvalues by lia.
  destruct (0 =? countInstances) eqn:Hzero; [lia|].
  destruct Hvalues as (filtered & pValuesEnd & Hfilter & _ & Hrest).
  replace (Z.to_nat countInstances) with (length values) in Hfilter by lia.
  destruct (RemoveMissingValues_spec values (length values))
    as (a' & Hspec & Hlen' & Htake & _); [lia..|].
  rewrite firstn_all in *. rewrite Hfilter in Hspec. injection Hspec as <- ->.
  assert (ptr_diff (length (nonmissing values)) 0 = Z.of_nat (length (nonmissing values)))
    as Hdiff.
  { assert (length (nonmissing values) ≤ length values)%nat by apply length_filter.
    rewrite ptr_diff_small; lia. }
  rewrite Hdiff in Hrest.
  destruct (nonmissing values) as [|v0 l0] eqn:Hnm.
  - simpl in Hrest. destruct Hrest as (-> & -> & ->). by rewrite Hlen'.
  - destruct (0 =? Z.of_nat (length (v0 :: l0))) eqn:Hz;
      [apply Z.eqb_eq in Hz; simpl in Hz; lia|].
    destruct Hrest as (Hvals & Hmin & _ & Hmax).
    rewrite Hvals. split_and!.
    + unfold std_sort_range. rewrite Htake.
      rewrite take_app_length'; [done|]. by rewrite std_sort_length.
    + by rewrite std_sort_range_length.
    + by rewrite <- Hvals.
    + by rewrite <- Hvals.
Qed.

(** X3: every returning call of [GenerateQuantileCutPoints] on at least one
    value leaves the buffer with its length, with the values that are numbers
    in front, and these in ascending order: the front of the buffer is a
    permutation of the numbers among the values in which no value is above a
    later one. *)
Theorem GenerateQuantileCutPoints_sorts_values env randomSeed countInstances countMaximumBins
    countMinimumInstancesPerBin values cuts c m mn mx s mem' :
  1 ≤ countInstances ≤ INT64_MAX →
  Z.of_nat (length values) = countInstances →
  0 ≤ countMaximumBins ≤ INT64_MAX →
  0 ≤ countMinimumInstancesPerBin ≤ INT64_MAX →
  GenerateQuantileCutPoints env randomSeed countInstances countMaximumBins
    countMinimumInstancesPerBin (Build_Memory values cuts c m mn mx) = Some (s, mem') →
  length (singleFeatureValues mem') = length values
  ∧ take (length (nonmissing values)) (singleFeatureValues mem') ≡ₚ nonmissing values
  ∧ StronglySorted (λ a b, Float_le a b = true)
      (take (length (nonmissing values)) (singleFeatureValues mem')).
Proof.
  intros Hn Hlen HcMax HcMin Hrun.
  destruct (GenerateQuantileCutPoints_values _ _ _ _ _ _ _ _ _ _ _ _ _ Hn Hlen HcMax HcMin Hrun)
    as (Htake & Hlen' & _).
  rewrite Htake. split_and!; [done|apply std_sort_Permutation|].
  apply std_sort_Float_lt_sorted, nonmissing_Forall.
Qed.

Lemma GenerateQuantileCutPoints_sorts_values_witness :
  ∃ mem',
    GenerateQuantileCutPoints env_ok 0 3 4 1
      (Build_Memory [Float_of_size_t 3; S754_nan; Float_of_size_t 1] [] 7 7 S754_nan S754_nan)
    = Some (0, mem')
    ∧ take 2 (singleFeatureValues mem') ≡ₚ [Float_of_size_t 3; Float_of_size_t 1]
    ∧ StronglySorted (λ a b, Float_le a b = true) (take 2 (singleFeatureValues mem')).
Proof.
  eexists. split; [vm_compute; reflexivity|].
  assert (GenerateQuantileCutPoints env_ok 0 3 4 1
            (Build_Memory [Float_of_size_t 3; S754_nan; Float_of_size_t 1] [] 7 7
               S754_nan S754_nan)
          = Some (0, Build_Memory [Float_of_size_t 1; Float_of_size_t 3; Float_of_size_t 1] []
                       0 1 (Float_of_size_t 1) (Float_of_size_t 3))) as Hrun
    by (vm_compute; reflexivity).
  destruct (GenerateQuantileCutPoints_sorts_values env_ok 0 3 4 1
              [Float_of_size_t 3; S754_nan; Float_of_size_t 1] [] 7 7 S754_nan S754_nan
              0 _ ltac:(vm_compute; split; congruence) eq_refl
              ltac:(vm_compute; split; congruence) ltac:(vm_compute; split; congruence) Hrun)
    as (_ & Hperm & Hsorted).
  split; [exact Hperm|exact Hsorted].
Defined.

(** X4: when at least one value is a number, every returning call of
    [GenerateQuantileCutPoints] reports as the minimum and the maximum two of
    the numbers among the values, and every number among the values lies
    between them. *)
Theorem GenerateQuantileCutPoints_extremes env randomSeed countInstances countMaximumBins
    countMinimumInstancesPerBin values cuts c m mn mx s mem' :
  1 ≤ countInstances ≤ INT64_MAX →
  Z.of_nat (length values) = countInstances →
  0 ≤ countMaximumBins ≤ INT64_MAX →
  0 ≤ countMinimumInstancesPerBin ≤ INT64_MAX →
  GenerateQuantileCutPoints env randomSeed countInstances countMaximumBins
    countMinimumInstancesPerBin (Build_Memory values cuts c m mn mx) = Some (s, mem') →
  nonmissing values ≠ [] →
  minValue mem' ∈ nonmissing values
  ∧ maxValue mem' ∈ nonmissing values
  ∧ ∀ v, v ∈ values → isnan v = false →
      Float_le (minValue mem') v = true ∧ Float_le v (maxValue mem') = true.
Proof.
  intros Hn Hlen HcMax HcMin Hrun Hsome.
  destruct (GenerateQuantileCutPoints_values _ _ _ _ _ _ _ _ _ _ _ _ _ Hn Hlen HcMax HcMin Hrun)
    as (Htake & Hlen' & Hext).
  destruct (nonmissing values) as [|v0 l0] eqn:Hnm; [done|]. rewrite <- Hnm in *.
  destruct Hext as [Hmin Hmax].
  assert (1 ≤ length (nonmissing values))%nat as Hpos by (rewrite Hnm; simpl; lia).
  set (sorted := std_sort Float_lt (nonmissing values)) in *.
  assert (sorted ≡ₚ nonmissing values) as Hperm by apply std_sort_Permutation.
  assert (Forall (λ v, isnan v = false) sorted) as Hnum
    by (rewrite Hperm; apply nonmissing_Forall).
  assert (StronglySorted (λ a b, Float_le a b = true) sorted) as Hsorted
    by (apply std_sort_Float_lt_sorted, nonmissing_Forall).
  assert (sorted !! 0%nat = Some (minValue mem')) as Hmin'.
  { rewrite <- Htake, lookup_take_lt by lia. done. }
  assert (sorted !! (length (nonmissing values) - 1)%nat = Some (maxValue mem')) as Hmax'.
  { rewrite <- Htake, lookup_take_lt by lia. done. }
  rewrite Forall_forall in Hnum.
  split_and!.
  - rewrite <- Hperm. by eapply list_elem_of_lookup_2.
  - rewrite <- Hperm. by eapply list_elem_of_lookup_2.
  - intros v Hv Hvnum.
    assert (v ∈ sorted) as Hin.
    { rewrite Hperm. unfold nonmissing. by apply list_elem_of_filter. }
    apply list_elem_of_lookup_1 in Hin as [i Hi].
    assert (i < length sorted)%nat as Hilen by (by eapply lookup_lt_Some).
    rewrite Hperm in Hilen.
    assert (isnan (minValue mem') = false) as Hminnum
      by (apply Hnum; by eapply list_elem_of_lookup_2).
    assert (isnan (maxValue mem') = false) as Hmaxnum
      by (apply Hnum; by eapply list_elem_of_lookup_2).
    split.
    + destruct (decide (i = 0%nat)) as [->|Hne].
      * rewrite Hmin' in Hi. injection Hi as ->. by apply Float_le_refl.
      * apply (StronglySorted_lookup_lt (λ a b, Float_le a b = true) sorted 0 i);
          [done..|lia].
    + destruct (decide (i = length (nonmissing values) - 1)%nat) as [->|Hne].
      * rewrite Hmax' in Hi. injection Hi as ->. by apply Float_le_refl.
      * apply (StronglySorted_lookup_lt (λ a b, Float_le a b = true) sorted i
                 (length (nonmissing values) - 1)); [done..|lia].
Qed.

Lemma GenerateQuantileCutPoints_extremes_witness :
  ∃ mem',
    GenerateQuantileCutPoints env_ok 0 3 4 1
      (Build_Memory [Float_of_size_t 3; S754_nan; Float_of_size_t 1] [] 7 7 S754_nan S754_nan)
    = Some (0, mem')
    ∧ minValue mem' ∈ [Float_of_size_t 3; Float_of_size_t 1]
    ∧ maxValue mem' ∈ [Float_of_size_t 3; Float_of_size_t 1].
Proof.
  eexists. split; [vm_compute; reflexivity|].
  assert (GenerateQuantileCutPoints env_ok 0 3 4 1
            (Build_Memory [Float_of_size_t 3; S754_nan; Float_of_size_t 1] [] 7 7
               S754_nan S754_nan)
          = Some (0, Build_Memory [Float_of_size_t 1; Float_of_size_t 3; Float_of_size_t 1] []
                       0 1 (Float_of_size_t 1) (Float_of_size_t 3))) as Hrun
    by (vm_compute; reflexivity).
  destruct (GenerateQuantileCutPoints_extremes env_ok 0 3 4 1
              [Float_of_size_t 3; S754_nan; Float_of_size_t 1] [] 7 7 S754_nan S754_nan
              0 _ ltac:(vm_compute; split; congruence) eq_refl
              ltac:(vm_compute; split; congruence) ltac:(vm_compute; split; congruence) Hrun
              ltac:(vm_compute; congruence))
    as (Hmin & Hmax & _).
  split; [exact Hmin|exact Hmax].
Defined.

(** ** The failures of [GenerateQuantileCutPoints] come from its environment *)

(** The first scan counts no more splitting ranges than there are values, so
    the size of the table is far from overflowing. *)
Lemma GenerateQuantileCutPoints_status env randomSeed countInstances countMaximumBins
    countMinimumInstancesPerBin mem :
  0 ≤ countInstances < 2 ^ 52 →
  Z.of_nat (length (singleFeatureValues mem)) = countInstances →
  0 ≤ countMaximumBins < 2 ^ 53 →
  0 ≤ countMinimumInstancesPerBin ≤ INT64_MAX →
  ∃ s mem',
    GenerateQuantileCutPoints env randomSeed countInstances countMaximumBins
      countMinimumInstancesPerBin mem = Some (s, mem')
    ∧ (s = 0
       ∨ (s = 1
          ∧ (RandomStream_construct env randomSeed ≠ Constructed true
             ∨ ∃ cSplittingRanges,
                 1 ≤ cSplittingRanges ≤ countInstances
                 ∧ malloc_succeeds env
                     (cSplittingRanges * (sizeof_SplittingRange + sizeof_pointer))
                   = false))).
Proof.
  intros Hn Hlen Hbins Hmin. unfold GenerateQuantileCutPoints.
  assert (2 ^ 53 < INT64_MAX) as Hint by (unfold INT64_MAX; lia).
  assert (2 ^ 52 < 2 ^ 53) as Hpow by lia.
  rewrite !IsNumberConvertable_size_t_true by lia. cbn [negb].
  rewrite (to_size_t_small countInstances) by lia.
  destruct (Z.eqb_spec 0 countInstances) as [|Hnz]; [by eexists _, _; eauto|].
  destruct (RemoveMissingValues_spec (singleFeatureValues mem) (Z.to_nat countInstances))
    as (filtered & Hrun & Hlen' & _); [lia..|].
  rewrite take_ge in Hrun by lia. rewrite Hrun. cbn [mbind option_bind].
  set (n := length (nonmissing (singleFeatureValues mem))) in *.
  assert (Hle : (n ≤ length (singleFeatureValues mem))%nat) by apply length_filter.
  rewrite ptr_diff_small by lia. rewrite Z.sub_0_r.
  destruct (Z.eqb_spec 0 (Z.of_nat n)) as [|Hpos]; [by eexists _, _; eauto|].
  unfold CutSortedValues.
  set (vals := std_sort_range Float_lt filtered n).
  assert (Hvals : length vals = length (singleFeatureValues mem)).
  { unfold vals. by rewrite std_sort_range_length. }
  destruct (lookup_lt_is_Some_2 vals 0) as [first Hfirst]; [lia|].
  rewrite Hfirst. cbn [mbind option_bind].
  unfold ptr_sub. rewrite decide_True by lia. cbn [mbind option_bind].
  destruct (lookup_lt_is_Some_2 vals (n - 1)) as [last Hlast]; [lia|].
  rewrite Hlast. cbn [mbind option_bind].
  destruct (Z.leb_spec countMaximumBins 1) as [|Htwo]; [by eexists _, _; eauto|].
  set (cMin := if countMinimumInstancesPerBin <=? 0 then 1 else countMinimumInstancesPerBin) in *.
  assert (HcMin : 1 ≤ cMin ≤ INT64_MAX).
  { unfold cMin. destruct (Z.leb_spec countMinimumInstancesPerBin 0); unfold INT64_MAX in *; lia. }
  replace (if countMinimumInstancesPerBin <=? 0 then 1
           else to_size_t countMinimumInstancesPerBin) with cMin.
  2:{ unfold cMin. destruct (countMinimumInstancesPerBin <=? 0); [done|].
      by rewrite to_size_t_small by lia. }
  assert (Hshift : to_size_t (Z.shiftl cMin 1) = 2 * cMin).
  { rewrite Z.shiftl_mul_pow2 by lia. change (2 ^ 1) with 2.
    unfold to_size_t, size_t_bits. unfold INT64_MAX in HcMin.
    rewrite Z.mod_small; lia. }
  rewrite Hshift.
  destruct (Z.ltb_spec (Z.of_nat n) (2 * cMin)) as [|Htwice]; [by eexists _, _; eauto|].
  destruct (GetCountBinsMax_Some
              (negb (Nat.eqb (Z.to_nat countInstances) n)) countMaximumBins)
    as [cMaximumBins HcMax].
  rewrite HcMax. cbn [mbind option_bind].
  pose proof (GetCountBinsMax_range _ countMaximumBins cMaximumBins ltac:(lia) HcMax) as HcRange.
  rewrite GetAvgLength_exact by lia. cbn [mbind option_bind].
  set (avgLength := avgLength_spec (Z.of_nat n) cMaximumBins cMin).
  assert (cMin ≤ avgLength) as Havg_ge by (unfold avgLength, avgLength_spec; lia).
  destruct (CountSplittingRanges_spec vals n avgLength cMin ltac:(lia) ltac:(lia) n
              {| rangeValue := first; pSplittableValuesStart := 0%nat;
                 pStartEqualRange := 0%nat; pScan := 1%nat; cSplittingRanges := 0 |})
    as (st & Hcount & Hinv & Hend & _).
  { unfold scan_inv. simpl. lia. }
  { simpl. lia. }
  rewrite Hcount. cbn [mbind option_bind].
  destruct (DecideSplittingRanges_spec vals n cMin st) as (c & -> & Hc); [lia..|done|].
  cbn [mbind option_bind]. destruct c as [c|]; [|by eexists _, _; eauto].
  destruct (Hc c eq_refl) as [Hrange Hcases].
  assert (c ≤ Z.of_nat n) as Hcn.
  { destruct Hinv as (? & ? & ? & ?). lia. }
  unfold AssignCuts.
  destruct (RandomStream_construct env randomSeed) as [|[|]] eqn:Hconstruct;
    [eexists _, _; split; [done|]; right; split; [done|]; by left| |
     eexists _, _; split; [done|]; right; split; [done|]; by left].
  unfold IsMultiplyError, SIZE_MAX, size_t_bits, sizeof_SplittingRange, sizeof_pointer.
  destruct (Z.ltb_spec (2 ^ 64 - 1) (c * (64 + 8))) as [|_]; [lia|].
  destruct (malloc_succeeds env _) eqn:Hmalloc; cbn [negb].
  - destruct (BuildSplittingRanges_Some vals n cMaximumBins avgLength cMin st c)
      as [tst ->]; try done; try lia.
    + exists first. by split.
    + cbn [mbind option_bind]. by eexists _, _; eauto.
  - eexists _, _. split; [done|]. right. split; [done|]. right.
    exists c. split; [lia|done].
Qed.

(** X5: when the random stream is constructed and the allocation of the table
    succeeds, a call of [GenerateQuantileCutPoints] on fewer than [2 ^ 52]
    values with fewer than [2 ^ 53] bins returns the status 0: the status 1
    comes from a count that does not fit, from the random stream or from the
    allocation, never from the values. *)
Theorem GenerateQuantileCutPoints_succeeds env randomSeed countInstances countMaximumBins
    countMinimumInstancesPerBin mem :
  0 ≤ countInstances < 2 ^ 52 →
  Z.of_nat (length (singleFeatureValues mem)) = countInstances →
  0 ≤ countMaximumBins < 2 ^ 53 →
  0 ≤ countMinimumInstancesPerBin ≤ INT64_MAX →
  RandomStream_construct env randomSeed = Constructed true →
  (∀ cSplittingRanges,
     1 ≤ cSplittingRanges ≤ countInstances →
     malloc_succeeds env (cSplittingRanges * (sizeof_SplittingRange + sizeof_pointer)) = true) →
  ∃ mem',
    GenerateQuantileCutPoints env randomSeed countInstances countMaximumBins
      countMinimumInstancesPerBin mem = Some (0, mem').
Proof.
  intros Hn Hlen Hbins Hmin Hconstruct Hmalloc.
  destruct (GenerateQuantileCutPoints_status env randomSeed countInstances countMaximumBins
              countMinimumInstancesPerBin mem Hn Hlen Hbins Hmin)
    as (s & mem' & Hrun & [->|(_ & [Hfail|(c & Hc & Hfail)])]).
  - by exists mem'.
  - done.
  - by rewrite Hmalloc in Hfail.
Qed.

Lemma GenerateQuantileCutPoints_succeeds_witness :
  ∃ mem', GenerateQuantileCutPoints env_ok 0 4 2 1 (memory_1234 7) = Some (0, mem').
Proof.
  apply GenerateQuantileCutPoints_succeeds; try done; vm_compute; split; congruence.
Defined.

(** ** [Discretize] on a part of its buffers *)

(** The loop over the first [n] values, for a loop body that gives every
    value a result that [P] relates to it: the results are written over the
    first [n] elements of the output and nothing else is written. *)
Lemma Discretize_loop_run bin (P : FloatEbmType → Z → Prop) values n :
  (n ≤ length values)%nat →
  (∀ val, ∃ b, bin val = Some b ∧ P val b) →
  ∀ fuel discretized p,
    (p < n)%nat → (n - p ≤ fuel)%nat → (n ≤ length discretized)%nat →
    ∃ bs, Discretize_loop fuel bin values discretized p p n
          = Some (take p discretized ++ bs ++ drop n discretized)
          ∧ Forall2 P (take (n - p) (drop p values)) bs.
Proof.
  intros Hn Hbin. induction fuel as [|fuel IH]; intros d p Hp Hfuel Hlen; [lia|].
  simpl. destruct (lookup_lt_is_Some_2 values p) as [val Hval]; [lia|].
  rewrite Hval. simpl. destruct (Hbin val) as (b & -> & Hb). simpl.
  rewrite store_Some by lia. simpl.
  rewrite (drop_S _ _ _ Hval). replace (n - p)%nat with (S (n - S p)) by lia.
  rewrite firstn_cons. case_decide as Hend.
  - destruct (IH (<[p:=b]> d) (S p)) as (bs & -> & Hbs); [rewrite ?length_insert; lia..|].
    exists (b :: bs). split; [|by constructor].
    rewrite (take_S_r _ _ b) by (apply list_lookup_insert_eq; lia).
    rewrite take_insert_ge, drop_insert_lt by lia. by rewrite <- app_assoc.
  - assert (n = S p) as -> by lia. exists [b]. split.
    + by rewrite insert_take_drop by lia.
    + replace (S p - S p)%nat with 0%nat by lia. rewrite take_0. by repeat constructor.
Qed.

Lemma Forall2_fmap_eq {A B} (f : A → B) l bs :
  Forall2 (λ v b, b = f v) l bs → bs = f <$> l.
Proof. induction 1 as [|v b l bs -> _ IH]; simpl; by f_equal. Qed.

(** The binary search reads only cut points between [low] and [high]. *)
Lemma Discretize_search_take cuts k val :
  (k ≤ length cuts)%nat → Z.of_nat k ≤ INT64_MAX →
  ∀ fuel low high,
    0 ≤ low ≤ high → high < Z.of_nat k →
    Discretize_search fuel cuts val low high
    = Discretize_search fuel (take k cuts) val low high.
Proof.
  intros Hk Hmax. induction fuel as [|fuel IH]; intros low high Hlow Hhigh; [done|].
  simpl. rewrite Z.shiftr_div_pow2 by lia. change (2 ^ 1) with 2.
  set (middle := (low + high) `div` 2).
  assert (Hmid : low ≤ middle ≤ high).
  { unfold middle. split; [apply Z.div_le_lower_bound|apply Z.div_le_upper_bound]; lia. }
  rewrite (to_size_t_small middle) by lia.
  assert (load (take k cuts) middle = load cuts middle) as ->.
  { unfold load. rewrite length_take_le by done.
    destruct (Z.leb_spec 0 middle); [|lia].
    destruct (Z.ltb_spec middle (Z.of_nat k)); [|lia].
    destruct (Z.ltb_spec middle (Z.of_nat (length cuts))); [|lia].
    simpl. apply lookup_take_lt. lia. }
  destruct (load cuts middle) as [midVal|]; [|done]. simpl.
  destruct (Float_le midVal val).
  - destruct (Z.leb_spec (middle + 1) high); [|done]. apply IH; lia.
  - destruct (Z.leb_spec low (middle - 1)); [|done]. apply IH; lia.
Qed.

(** The binary search stays between [low] and [high] on any cut points,
    increasing or not. *)
Lemma Discretize_search_bounds cuts val :
  Z.of_nat (length cuts) ≤ INT64_MAX →
  ∀ fuel low high,
    0 ≤ low ≤ high → high < Z.of_nat (length cuts) →
    high - low < Z.of_nat fuel →
    ∃ middle midVal,
      Discretize_search fuel cuts val low high = Some (middle, midVal)
      ∧ low ≤ middle ≤ high.
Proof.
  intros Hmax. induction fuel as [|fuel IH]; intros low high Hlow Hhigh Hfuel; [lia|].
  simpl. rewrite Z.shiftr_div_pow2 by lia. change (2 ^ 1) with 2.
  set (middle := (low + high) `div` 2).
  assert (Hmid : low ≤ middle ≤ high).
  { unfold middle. split; [apply Z.div_le_lower_bound|apply Z.div_le_upper_bound]; lia. }
  rewrite (to_size_t_small middle) by lia.
  destruct (load_Some cuts middle) as (midVal & -> & _); [lia|]. simpl.
  destruct (Float_le midVal val).
  - destruct (Z.leb_spec (middle + 1) high).
    + destruct (IH (middle + 1) high) as (m & v & -> & Hm); [lia..|].
      exists m, v. split; [done|lia].
    + exists middle, midVal. by split.
  - destruct (Z.leb_spec low (middle - 1)).
    + destruct (IH low (middle - 1)) as (m & v & -> & Hm); [lia..|].
      exists m, v. split; [done|lia].
    + exists middle, midVal. by split.
Qed.

(** [Discretize] with [countCutPoints] cut points on [countInstances] values,
    in buffers that may be longer. *)
Lemma Discretize_run isMissing k cuts n values discretized :
  (k ≤ length cuts)%nat → Z.of_nat k ≤ INT64_MAX →
  strictly_increasing (take k cuts) →
  (n ≤ length values)%nat → Z.of_nat n ≤ INT64_MAX →
  (n ≤ length discretized)%nat →
  Discretize isMissing (Z.of_nat k) cuts (Z.of_nat n) values discretized
  = Some ((bin_index (negb (EBM_FALSE =? isMissing)) (take k cuts) <$> take n values)
          ++ drop n discretized).
Proof.
  intros Hk Hkmax Hinc Hn Hnmax Hlen. unfold Discretize.
  destruct (Z.ltb_spec 0 (Z.of_nat n)) as [Hpos|Hnone].
  2:{ assert (n = 0%nat) as -> by lia. by rewrite take_0, drop_0. }
  rewrite !to_size_t_small by lia. rewrite Nat2Z.id.
  set (bin := if 0 =? Z.of_nat k then _ else _).
  destruct (Discretize_loop_run bin
              (λ v b, b = bin_index (negb (EBM_FALSE =? isMissing)) (take k cuts) v)
              values n Hn) with (fuel := n) (discretized := discretized) (p := 0%nat)
    as (bs & -> & Hbs); [|lia..|].
  - intros val. eexists. split; [|reflexivity]. unfold bin.
    destruct (Z.eqb_spec 0 (Z.of_nat k)) as [Hzero|Hnz].
    + assert (k = 0%nat) as -> by lia. rewrite take_0. apply Discretize_noCuts_bin.
    + rewrite to_ptrdiff_t_small by lia.
      pose proof (length_take_le cuts k Hk) as Hlen_take.
      destruct (negb (EBM_FALSE =? isMissing)).
      * rewrite <- (Discretize_withMissing_bin (take k cuts) val) by (done || lia).
        rewrite Hlen_take. unfold Discretize_withMissing.
        destruct (isnan val); [done|]. cbn [negb].
        by rewrite (Discretize_search_take cuts k val Hk Hkmax) by lia.
      * rewrite <- (Discretize_noMissing_bin (take k cuts) val) by (done || lia).
        rewrite Hlen_take. unfold Discretize_noMissing.
        destruct (isnan val); [done|]. cbn [negb].
        by rewrite (Discretize_search_take cuts k val Hk Hkmax) by lia.
  - rewrite take_0, drop_0, Nat.sub_0_r in *. simpl.
    by rewrite (Forall2_fmap_eq _ _ _ Hbs).
Qed.

(** X6: [Discretize] reads the first [countCutPoints] cut points and the
    first [countInstances] values only, writes the bins of these values over
    the first [countInstances] elements of the output and leaves the elements
    behind them as they were. *)
Theorem Discretize_prefix isMissing k cuts n values discretized :
  (k ≤ length cuts)%nat → Z.of_nat k ≤ INT64_MAX →
  strictly_increasing (take k cuts) →
  (n ≤ length values)%nat → Z.of_nat n ≤ INT64_MAX →
  (n ≤ length discretized)%nat →
  ∃ out,
    Discretize isMissing (Z.of_nat k) cuts (Z.of_nat n) values discretized = Some out
    ∧ take n out = bin_index (negb (EBM_FALSE =? isMissing)) (take k cuts) <$> take n values
    ∧ drop n out = drop n discretized
    ∧ length out = length discretized.
Proof.
  intros Hk Hkmax Hinc Hn Hnmax Hlen.
  rewrite (Discretize_run isMissing k cuts n values discretized) by done.
  eexists. split; [done|].
  assert (length (bin_index (negb (EBM_FALSE =? isMissing)) (take k cuts) <$> take n values)
          = n) as Hbs by (rewrite length_fmap, length_take; lia).
  split_and!.
  - by rewrite take_app_length'.
  - by rewrite drop_app_length'.
  - rewrite length_app, Hbs, length_drop. lia.
Qed.

Lemma Discretize_prefix_witness :
  ∃ out,
    Discretize EBM_FALSE 2 (Float_of_size_t <$> [2; 4; 1]) 2
      (Float_of_size_t <$> [5; 3; 9]) [7; 7; 7] = Some out
    ∧ take 2 out = [2; 1] ∧ drop 2 out = [7].
Proof.
  destruct (Discretize_prefix EBM_FALSE 2 (Float_of_size_t <$> [2; 4; 1]) 2
              (Float_of_size_t <$> [5; 3; 9]) [7; 7; 7])
    as (out & Hrun & Htake & Hdrop & _).
  - simpl. lia.
  - unfold INT64_MAX. lia.
  - intros [|[|i]] a b; simpl; intros [= <-] [= <-]; reflexivity.
  - simpl. lia.
  - unfold INT64_MAX. lia.
  - simpl. lia.
  - exists out. split; [exact Hrun|]. split; [exact Htake|exact Hdrop].
Defined.

(** X7: on cut points in any order [Discretize] stays inside its buffers and
    returns; a number gets a bin from 0 to [countCutPoints], shifted up by
    one when missing values are expected, and NaN gets 0 or -1.  The
    assertions on [middle] of the source hold without the order of the cut
    points that the debug build asserts. *)
Theorem Discretize_in_range isMissing k cuts n values discretized :
  (k ≤ length cuts)%nat → Z.of_nat (length cuts) ≤ INT64_MAX →
  (n ≤ length values)%nat → Z.of_nat n ≤ INT64_MAX →
  (n ≤ length discretized)%nat →
  ∃ bs,
    Discretize isMissing (Z.of_nat k) cuts (Z.of_nat n) values discretized
    = Some (bs ++ drop n discretized)
    ∧ Forall2 (λ v b,
         if isnan v then b = (if EBM_FALSE =? isMissing then -1 else 0)
         else if EBM_FALSE =? isMissing then 0 ≤ b ≤ Z.of_nat k
              else 1 ≤ b ≤ Z.of_nat k + 1)
        (take n values) bs.
Proof.
  intros Hk Hmax Hn Hnmax Hlen. unfold Discretize.
  destruct (Z.ltb_spec 0 (Z.of_nat n)) as [Hpos|Hnone].
  2:{ assert (n = 0%nat) as -> by lia. exists []. rewrite take_0, drop_0. by split. }
  rewrite !to_size_t_small by lia. rewrite Nat2Z.id.
  set (bin := if 0 =? Z.of_nat k then _ else _).
  destruct (Discretize_loop_run bin
              (λ v b, if isnan v then b = (if EBM_FALSE =? isMissing then -1 else 0)
                      else if EBM_FALSE =? isMissing then 0 ≤ b ≤ Z.of_nat k
                           else 1 ≤ b ≤ Z.of_nat k + 1)
              values n Hn) with (fuel := n) (discretized := discretized) (p := 0%nat)
    as (bs & -> & Hbs); [|lia..|].
  - intros val. unfold bin.
    destruct (Z.eqb_spec 0 (Z.of_nat k)) as [Hzero|Hnz].
    + eexists. split; [reflexivity|].
      destruct (isnan val), (EBM_FALSE =? isMissing); simpl; lia.
    + rewrite to_ptrdiff_t_small by lia.
      destruct (EBM_FALSE =? isMissing); cbn [negb];
        unfold Discretize_withMissing, Discretize_noMissing;
        destruct (isnan val); cbn [negb]; try (by eexists).
      * destruct (Discretize_search_bounds cuts val Hmax
                    (S (Z.to_nat (Z.of_nat k - 1))) 0 (Z.of_nat k - 1))
          as (middle & midVal & -> & Hmid); [lia..|].
        eexists. split; [reflexivity|]. destruct (Float_le midVal val); lia.
      * destruct (Discretize_search_bounds cuts val Hmax
                    (S (Z.to_nat (Z.of_nat k - 1))) 0 (Z.of_nat k - 1))
          as (middle & midVal & -> & Hmid); [lia..|].
        eexists. split; [reflexivity|]. destruct (Float_le midVal val); lia.
  - rewrite take_0, drop_0, Nat.sub_0_r in *. simpl. by exists bs.
Qed.

Lemma Discretize_in_range_witness :
  ∃ bs,
    Discretize EBM_TRUE 3 (Float_of_size_t <$> [6; 2; 4]) 2
      [Float_of_size_t 5; S754_nan] [7; 7] = Some (bs ++ [])
    ∧ length bs = 2%nat.
Proof.
  destruct (Discretize_in_range EBM_TRUE 3 (Float_of_size_t <$> [6; 2; 4]) 2
              [Float_of_size_t 5; S754_nan] [7; 7])
    as (bs & Hrun & Hbs).
  - simpl. lia.
  - unfold INT64_MAX. simpl. lia.
  - simpl. lia.
  - unfold INT64_MAX. lia.
  - simpl. lia.
  - exists bs. split; [exact Hrun|]. by apply Forall2_length in Hbs.
Defined.

(** The number of cut points that are not above a value does not go down when
    the value goes up. *)
Lemma count_le_mono cuts v w :
  Float_le v w = true → count_le cuts v ≤ count_le cuts w.
Proof.
  intros Hvw. unfold count_le. apply inj_le.
  destruct (Float_le_not_nan v w Hvw) as [_ Hw].
  induction cuts as [|c cuts IH]; [done|].
  destruct (Float_le c v) eqn:Hcv.
  - destruct (Float_le_not_nan c v Hcv) as [Hc _].
    rewrite !filter_cons_True; [simpl; lia|by apply (Float_le_trans c v w)|done].
  - rewrite (filter_cons_False _ c) by (rewrite Hcv; done).
    destruct (Float_le c w) eqn:Hcw.
    + rewrite filter_cons_True by done. simpl. lia.
    + rewrite filter_cons_False by (rewrite Hcw; done). done.
Qed.

(** X8: [Discretize] keeps the order of the values: of two numbers among the
    values, the one that is not above the other does not get the higher
    bin. *)
Theorem Discretize_monotone isMissing cuts values discretized out i j v w bv bw :
  strictly_increasing cuts →
  Z.of_nat (length cuts) ≤ INT64_MAX →
  Z.of_nat (length values) ≤ INT64_MAX →
  length discretized = length values →
  Discretize isMissing (Z.of_nat (length cuts)) cuts (Z.of_nat (length values)) values
    discretized = Some out →
  values !! i = Some v → values !! j = Some w →
  out !! i = Some bv → out !! j = Some bw →
  Float_le v w = true →
  bv ≤ bw.
Proof.
  intros Hinc Hcuts Hvalues Hlen Hrun Hv Hw Hbv Hbw Hvw.
  rewrite (Discretize_run isMissing (length cuts) cuts (length values) values discretized)
    in Hrun; [|lia|done|by rewrite firstn_all|lia|done|lia].
  rewrite !firstn_all, drop_ge, app_nil_r in Hrun by lia. injection Hrun as <-.
  rewrite list_lookup_fmap, Hv in Hbv. rewrite list_lookup_fmap, Hw in Hbw.
  injection Hbv as <-. injection Hbw as <-.
  destruct (Float_le_not_nan v w Hvw) as [Hvnum Hwnum].
  unfold bin_index. rewrite Hvnum, Hwnum.
  pose proof (count_le_mono cuts v w Hvw). destruct (negb _); lia.
Qed.

Lemma Discretize_monotone_witness :
  ∃ bv bw,
    Discretize EBM_FALSE 2 (Float_of_size_t <$> [2; 4]) 2 (Float_of_size_t <$> [5; 3]) [7; 7]
    = Some [bw; bv]
    ∧ bv ≤ bw.
Proof.
  exists 1, 2. split; [vm_compute; reflexivity|].
  apply (Discretize_monotone EBM_FALSE (Float_of_size_t <$> [2; 4])
           (Float_of_size_t <$> [5; 3]) [7; 7] [2; 1] 1 0 (Float_of_size_t 3)
           (Float_of_size_t 5) 1 2).
  - intros [|[|k]] a b; simpl; intros [= <-] [= <-]; reflexivity.
  - unfold INT64_MAX. simpl. lia.
  - unfold INT64_MAX. simpl. lia.
  - reflexivity.
  - vm_compute. reflexivity.
  - reflexivity.
  - reflexivity.
  - reflexivity.
  - reflexivity.
  - vm_compute. reflexivity.
Defined.

(** A cut point that is a number has exactly the cut points up to itself not
    above it. *)
Lemma count_le_cut cuts i c :
  strictly_increasing cuts → cuts !! i = Some c → isnan c = false →
  count_le cuts c = Z.of_nat i + 1.
Proof.
  intros Hinc Hc Hnum. symmetry. apply count_le_unique; [done| | |].
  - apply lookup_lt_Some in Hc. lia.
  - intros j b Hb Hj. apply (cut_le_downward cuts c j i b c); [done..|lia|].
    by apply Float_le_refl.
  - intros j b Hb Hj. apply Float_lt_not_le.
    apply (strictly_increasing_lookup cuts Hinc i j); [done..|lia].
Qed.

(** X9: the cut points are inclusive lower bounds: [Discretize] on the cut
    points themselves gives the cut point of index [i] the bin [i + 1], and
    [i + 2] when missing values are expected. *)
Theorem Discretize_cut_points isMissing cuts discretized :
  strictly_increasing cuts →
  Forall (λ c, isnan c = false) cuts →
  Z.of_nat (length cuts) ≤ INT64_MAX →
  length discretized = length cuts →
  Discretize isMissing (Z.of_nat (length cuts)) cuts (Z.of_nat (length cuts)) cuts discretized
  = Some ((λ i, Z.of_nat i + (if EBM_FALSE =? isMissing then 1 else 2))
          <$> seq 0 (length cuts)).
Proof.
  intros Hinc Hnum Hmax Hlen.
  rewrite (Discretize_run isMissing (length cuts) cuts (length cuts) cuts discretized);
    [|lia|done|by rewrite firstn_all|lia|done|lia].
  rewrite !firstn_all, drop_ge, app_nil_r by lia. f_equal.
  apply list_eq. intros i. rewrite !list_lookup_fmap.
  destruct (cuts !! i) as [c|] eqn:Hc; simpl.
  - rewrite lookup_seq_lt by (by eapply lookup_lt_Some). simpl. f_equal.
    rewrite Forall_forall in Hnum.
    assert (isnan c = false) as Hcnum by (apply Hnum; by eapply list_elem_of_lookup_2).
    unfold bin_index. rewrite Hcnum, (count_le_cut cuts i c) by done.
    destruct (EBM_FALSE =? isMissing); simpl; lia.
  - rewrite lookup_seq_ge; [done|]. by apply lookup_ge_None.
Qed.

Lemma Discretize_cut_points_witness :
  Discretize EBM_FALSE 3 (Float_of_size_t <$> [2; 4; 6]) 3 (Float_of_size_t <$> [2; 4; 6])
    [7; 7; 7]
  = Some [1; 2; 3].
Proof.
  assert (strictly_increasing (Float_of_size_t <$> [2; 4; 6])) as Hinc.
  { intros [|[|[|k]]] a b; simpl; intros [= <-] [= <-]; reflexivity. }
  assert (Forall (λ c, isnan c = false) (Float_of_size_t <$> [2; 4; 6])) as Hnum.
  { vm_compute. by repeat constructor. }
  assert (Z.of_nat (length (Float_of_size_t <$> [2; 4; 6])) ≤ INT64_MAX) as Hmax.
  { unfold INT64_MAX. simpl. lia. }
  exact (Discretize_cut_points EBM_FALSE (Float_of_size_t <$> [2; 4; 6]) [7; 7; 7]
           Hinc Hnum Hmax eq_refl).
Defined.

(** ** [Discretize] after [GenerateQuantileCutPoints] *)

Lemma GenerateQuantileCutPoints_outputs env randomSeed countInstances countMaximumBins
    countMinimumInstancesPerBin values cuts c m mn mx s mem' :
  1 ≤ countInstances ≤ INT64_MAX →
  Z.of_nat (length values) = countInstances →
  0 ≤ countMaximumBins ≤ INT64_MAX →
  0 ≤ countMinimumInstancesPerBin ≤ INT64_MAX →
  GenerateQuantileCutPoints env randomSeed countInstances countMaximumBins
    countMinimumInstancesPerBin (Build_Memory values cuts c m mn mx) = Some (s, mem') →
  cutPointsLowerBoundInclusive mem' = cuts
  ∧ (s = 0 → countCutPoints mem' = 0)
  ∧ isMissing mem'
    = (if Nat.eqb (length values) (length (nonmissing values)) then EBM_FALSE else EBM_TRUE).
Proof.
  intros Hn Hlen HcMax HcMin Hrun.
  destruct (GenerateQuantileCutPoints_outcome env randomSeed countInstances countMaximumBins
              countMinimumInstancesPerBin values) as (o & Hsound & Hsize & Ho).
  rewrite Ho in Hrun.
  assert (∀ flag vals minVal maxVal,
            outcome_values countInstances values flag vals minVal maxVal →
            flag = (if Nat.eqb (length values) (length (nonmissing values))
                    then EBM_FALSE else EBM_TRUE)) as Hflag.
  { intros flag vals minVal maxVal. unfold outcome_values.
    rewrite to_size_t_small by lia.
    destruct (Z.eqb_spec 0 countInstances) as [|_]; [lia|].
    replace (Z.to_nat countInstances) with (length values) by lia.
    destruct (RemoveMissingValues_spec values (length values))
      as (a' & Hspec & _); [lia..|].
    rewrite firstn_all in Hspec. rewrite Hspec.
    by intros (filtered & pValuesEnd & [= <- <-] & -> & _). }
  destruct o as [| |flag vals minVal maxVal|flag vals minVal maxVal]; simpl in *.
  - done.
  - destruct Hsize as [Hsize _]. specialize (Hsize eq_refl).
    rewrite !IsNumberConvertable_size_t_true in Hsize by lia. done.
  - injection Hrun as <- <-. simpl. destruct Hsound as [_ Hsound].
    split_and!; [done|done|by eapply Hflag].
  - injection Hrun as <- <-. simpl. split_and!; [done|done|by eapply Hflag].
Qed.

(** X10: [Discretize] with the outputs of a successful call of
    [GenerateQuantileCutPoints] on the same values: every NaN gets the bin 0
    and every number gets the had-missing flag as its bin, 1 when there is a
    NaN among the values and 0 when there is none; the bin -1 of an
    unexpected missing value does not occur. *)
Theorem Discretize_after_GenerateQuantileCutPoints env randomSeed countInstances
    countMaximumBins countMinimumInstancesPerBin values cuts c m mn mx mem' discretized :
  1 ≤ countInstances ≤ INT64_MAX →
  Z.of_nat (length values) = countInstances →
  0 ≤ countMaximumBins ≤ INT64_MAX →
  0 ≤ countMinimumInstancesPerBin ≤ INT64_MAX →
  GenerateQuantileCutPoints env randomSeed countInstances countMaximumBins
    countMinimumInstancesPerBin (Build_Memory values cuts c m mn mx) = Some (0, mem') →
  length discretized = length values →
  Discretize (isMissing mem') (countCutPoints mem') (cutPointsLowerBoundInclusive mem')
    countInstances values discretized
  = Some ((λ v, if isnan v then 0 else isMissing mem') <$> values)
  ∧ (isMissing mem' = EBM_TRUE ↔ Exists (λ v, isnan v = true) values)
  ∧ (isMissing mem' = EBM_FALSE ↔ Forall (λ v, isnan v = false) values).
Proof.
  intros Hn Hlen HcMax HcMin Hrun Hd.
  destruct (GenerateQuantileCutPoints_outputs _ _ _ _ _ _ _ _ _ _ _ _ _ Hn Hlen HcMax HcMin Hrun)
    as (_ & Hcount & Hflag).
  rewrite (Hcount eq_refl). clear Hcount.
  assert (Forall (λ v, isnan v = false) values ↔ ¬ Exists (λ v, isnan v = true) values)
    as Hall.
  { rewrite <- Forall_Exists_neg. apply Forall_iff. intros v. by destruct (isnan v). }
  assert ((isMissing mem' = EBM_TRUE ↔ Exists (λ v, isnan v = true) values)
          ∧ (isMissing mem' = EBM_FALSE ↔ Forall (λ v, isnan v = false) values))
    as [Htrue Hfalse].
  { rewrite Hall, <- nonmissing_length_lt, Hflag.
    assert (length (nonmissing values) ≤ length values)%nat by apply length_filter.
    destruct (Nat.eqb_spec (length values) (length (nonmissing values)));
      unfold EBM_TRUE, EBM_FALSE; split; split; try done; lia. }
  split_and!; [|done|done].
  rewrite <- Hlen. change 0 with (Z.of_nat 0) at 1.
  rewrite (Discretize_run (isMissing mem') 0 (cutPointsLowerBoundInclusive mem')
             (length values) values discretized); [|lia|by unfold INT64_MAX| |lia..].
  2:{ rewrite take_0. by intros i a b [=]. }
  rewrite take_0, firstn_all, drop_ge, app_nil_r by lia. f_equal.
  apply Forall_fmap_ext, Forall_forall. intros v Hv.
  unfold bin_index, count_le. simpl.
  destruct (isnan v) eqn:Hvnan.
  - destruct (Z.eqb_spec EBM_FALSE (isMissing mem')) as [Heq|]; [|done].
    symmetry in Heq. apply Hfalse in Heq. rewrite Forall_forall in Heq.
    rewrite (Heq v Hv) in Hvnan. done.
  - destruct (Z.eqb_spec EBM_FALSE (isMissing mem')) as [Heq|Hne]; simpl; [done|].
    rewrite Hflag in *.
    by destruct (Nat.eqb (length values) (length (nonmissing values))).
Qed.

Lemma Discretize_after_GenerateQuantileCutPoints_witness :
  ∃ mem',
    GenerateQuantileCutPoints env_ok 0 3 4 1
      (Build_Memory [Float_of_size_t 3; S754_nan; Float_of_size_t 1] [] 7 7 S754_nan S754_nan)
    = Some (0, mem')
    ∧ Discretize (isMissing mem') (countCutPoints mem') (cutPointsLowerBoundInclusive mem')
        3 [Float_of_size_t 3; S754_nan; Float_of_size_t 1] [9; 9; 9]
      = Some [1; 0; 1].
Proof.
  eexists. split; [vm_compute; reflexivity|].
  assert (GenerateQuantileCutPoints env_ok 0 3 4 1
            (Build_Memory [Float_of_size_t 3; S754_nan; Float_of_size_t 1] [] 7 7
               S754_nan S754_nan)
          = Some (0, Build_Memory [Float_of_size_t 1; Float_of_size_t 3; Float_of_size_t 1] []
                       0 1 (Float_of_size_t 1) (Float_of_size_t 3))) as Hrun
    by (vm_compute; reflexivity).
  destruct (Discretize_after_GenerateQuantileCutPoints env_ok 0 3 4 1
              [Float_of_size_t 3; S754_nan; Float_of_size_t 1] [] 7 7 S754_nan S754_nan
              _ [9; 9; 9] ltac:(vm_compute; split; congruence) eq_refl
              ltac:(vm_compute; split; congruence) ltac:(vm_compute; split; congruence)
              Hrun eq_refl)
    as (Hbins & _).
  exact Hbins.
Defined.

(** ** The comparisons handed to [std::sort] *)

(** X11: the two comparisons that the sorting functions hand to [std::sort]
    are strict weak orderings, as [std::sort] requires: no pointer is below
    itself, "below" is transitive, and so is "not below"; two pointers that
    are not ordered either way point to ranges with the same keys and the
    same start. *)
Theorem less_strict_weak_ordering (aSplittingRange : list SplittingRange) :
  (∀ p, CountItemsAscending_less aSplittingRange p p = false)
  ∧ (∀ p q r, CountItemsAscending_less aSplittingRange p q = true
              → CountItemsAscending_less aSplittingRange q r = true
              → CountItemsAscending_less aSplittingRange p r = true)
  ∧ (∀ p q r, CountItemsAscending_less aSplittingRange p q = false
              → CountItemsAscending_less aSplittingRange q r = false
              → CountItemsAscending_less aSplittingRange p r = false)
  ∧ (∀ p q, CountItemsAscending_less aSplittingRange p q = false
            → CountItemsAscending_less aSplittingRange q p = false
            → CountItems_key aSplittingRange p = CountItems_key aSplittingRange q
              ∧ m_pSplittableValuesStart (deref aSplittingRange p)
                = m_pSplittableValuesStart (deref aSplittingRange q))
  ∧ (∀ p, UnsplittableDescending_less aSplittingRange p p = false)
  ∧ (∀ p q r, UnsplittableDescending_less aSplittingRange p q = true
              → UnsplittableDescending_less aSplittingRange q r = true
              → UnsplittableDescending_less aSplittingRange p r = true)
  ∧ (∀ p q r, UnsplittableDescending_less aSplittingRange p q = false
              → UnsplittableDescending_less aSplittingRange q r = false
              → UnsplittableDescending_less aSplittingRange p r = false)
  ∧ (∀ p q, UnsplittableDescending_less aSplittingRange p q = false
            → UnsplittableDescending_less aSplittingRange q p = false
            → Unsplittable_key aSplittingRange p = Unsplittable_key aSplittingRange q
              ∧ m_pSplittableValuesStart (deref aSplittingRange p)
                = m_pSplittableValuesStart (deref aSplittingRange q)).
Proof.
  unfold CountItemsAscending_less, UnsplittableDescending_less, CountItems_key,
    Unsplittable_key.
  split_and!;
    [intros p|intros p q r|intros p q r|intros p q|intros p|intros p q r|intros p q r|intros p q].
  all: repeat match goal with
         | |- context [Z.eqb ?x ?y] => destruct (Z.eqb_spec x y)
         | |- context [Z.ltb ?x ?y] => destruct (Z.ltb_spec x y)
         | |- context [Nat.ltb ?x ?y] => destruct (Nat.ltb_spec x y)
         end.
  all: try (intros; congruence).
  all: try (intros; exfalso; lia).
  all: try (intros; split; [first [lia|f_equal; lia]|lia]).
Qed.

(** ** The orderings without ties *)

Section DistinctKeys.
Context {RandomStream : Type}.
Variable Next : RandomStream → nat → nat * RandomStream.
Context {K : Type} `{EqDecision K}.
Variable key : nat → K.

(** Where no two neighbouring pointers have the same key, every block has
    one element and the loop over the array shuffles nothing. *)
Lemma ShuffleRanges_for_distinct ap rs :
  NoDup (key <$> ap) →
  ∀ fuel i p,
    (1 ≤ i ≤ length ap)%nat → (length ap - i ≤ fuel)%nat →
    ap !! (i - 1)%nat = Some p →
    ShuffleRanges_for Next key fuel (length ap) i rs ap (i - 1) (key p)
    = Some (rs, ap, (length ap - 1)%nat).
Proof.
  intros Hdistinct. induction fuel as [|fuel IH]; intros i p Hi Hfuel Hp.
  - assert (i = length ap) as -> by lia. simpl. by rewrite decide_False by lia.
  - simpl. case_decide as Hend; [|by replace i with (length ap) by lia].
    destruct (lookup_lt_is_Some_2 ap i) as [q Hq]; [done|].
    rewrite Hq. cbn [mbind option_bind].
    rewrite decide_True.
    2:{ intros Heq.
        assert ((i - 1)%nat = i); [|lia].
        apply (NoDup_lookup (key <$> ap) _ _ (key p)); [done|..].
        - by rewrite list_lookup_fmap, Hp.
        - by rewrite list_lookup_fmap, Hq, Heq. }
    replace (i - (i - 1))%nat with 1%nat by lia. cbn [ShuffleEqualRange mbind option_bind].
    pose proof (IH (S i) q) as IH'. replace (S i - 1)%nat with i in IH' by lia.
    apply IH'; [lia|lia|done].
Qed.

Lemma SortSplittingRanges_distinct less rs ap :
  (1 ≤ length ap)%nat → NoDup (key <$> ap) →
  SortSplittingRanges Next key less rs (length ap) ap = Some (rs, std_sort less ap).
Proof.
  intros Hc Hdistinct. unfold SortSplittingRanges, ShuffleRanges, std_sort_range.
  rewrite take_ge, drop_ge, app_nil_r by lia.
  pose proof (std_sort_length less ap) as Hlen.
  assert (NoDup (key <$> std_sort less ap)) as Hsorted.
  { by rewrite std_sort_Permutation. }
  destruct (lookup_lt_is_Some_2 (std_sort less ap) 0) as [p0 Hp0]; [lia|].
  rewrite Hp0. cbn [mbind option_bind]. rewrite <- Hlen.
  rewrite (ShuffleRanges_for_distinct (std_sort less ap) rs Hsorted _ 1 p0); [|lia|lia|done].
  cbn [mbind option_bind].
  replace (length (std_sort less ap) - (length (std_sort less ap) - 1))%nat with 1%nat by lia.
  done.
Qed.
End DistinctKeys.

(** X12: on pointers to ranges that all differ in the key, the two sorting
    functions do not draw from the random stream: they give the stream back
    as it was, with the array in the order of [std::sort]. *)
Theorem SortSplittingRanges_without_ties {RandomStream : Type}
    (Next : RandomStream → nat → nat * RandomStream) (aSplittingRange : list SplittingRange)
    (rs : RandomStream) (cSplittingRanges : nat) (apSplittingRange : list nat) :
  (1 ≤ cSplittingRanges)%nat →
  length apSplittingRange = cSplittingRanges →
  (NoDup (CountItems_key aSplittingRange <$> apSplittingRange) →
   SortSplittingRangesByCountItemsAscending Next aSplittingRange rs cSplittingRanges
     apSplittingRange
   = Some (rs, std_sort (CountItemsAscending_less aSplittingRange) apSplittingRange))
  ∧ (NoDup (Unsplittable_key aSplittingRange <$> apSplittingRange) →
     SortSplittingRangesByUnsplittableDescending Next aSplittingRange rs cSplittingRanges
       apSplittingRange
     = Some (rs, std_sort (UnsplittableDescending_less aSplittingRange) apSplittingRange)).
Proof.
  intros Hc <-. split; intros Hdistinct.
  - by apply SortSplittingRanges_distinct.
  - by apply SortSplittingRanges_distinct.
Qed.

Lemma SortSplittingRanges_without_ties_witness :
  SortSplittingRangesByCountItemsAscending Next_remainder table4 5%nat 2 [0; 1]%nat
  = Some (5%nat, [1; 0]%nat).
Proof.
  destruct (SortSplittingRanges_without_ties Next_remainder table4 5%nat 2 [0; 1]%nat)
    as [Hrun _]; [lia|reflexivity|].
  apply Hrun. apply (bool_decide_unpack _). vm_compute. exact I.
Defined.

(** ** More on the effective maximum bin count *)

(** X13: [GetCountBinsMax] takes away at most one bin and keeps the order of
    the maxima: a larger maximum never gives fewer bins, and missing values
    never give more bins. *)
Theorem GetCountBinsMax_monotone bMissing countMaximumBins countMaximumBins' :
  1 ≤ countMaximumBins ≤ countMaximumBins' →
  countMaximumBins' ≤ INT64_MAX →
  ∃ c c' cMissing,
    GetCountBinsMax bMissing countMaximumBins = Some c
    ∧ GetCountBinsMax bMissing countMaximumBins' = Some c'
    ∧ GetCountBinsMax true countMaximumBins = Some cMissing
    ∧ GetCountBinsMax false countMaximumBins = Some countMaximumBins
    ∧ countMaximumBins - 1 ≤ c ≤ countMaximumBins
    ∧ c ≤ c'
    ∧ cMissing ≤ c.
Proof.
  intros Hle Hmax.
  destruct (GetCountBinsMax_Some bMissing countMaximumBins) as [c Hc].
  destruct (GetCountBinsMax_Some bMissing countMaximumBins') as [c' Hc'].
  destruct (GetCountBinsMax_Some true countMaximumBins) as [cMissing HcMissing].
  assert (1 ≤ countMaximumBins ≤ INT64_MAX) as Hin by lia.
  assert (1 ≤ countMaximumBins' ≤ INT64_MAX) as Hin' by lia.
  pose proof (GetCountBinsMax_range _ _ _ Hin Hc) as Hrange.
  pose proof (GetCountBinsMax_range _ _ _ Hin' Hc') as Hrange'.
  pose proof (GetCountBinsMax_range _ _ _ Hin HcMissing) as HrangeMissing.
  assert (GetCountBinsMax false countMaximumBins = Some countMaximumBins) as Hfalse.
  { unfold GetCountBinsMax. by rewrite to_size_t_small by lia. }
  exists c, c', cMissing. split_and!; try done; try lia.
  - destruct (Z.eq_dec countMaximumBins countMaximumBins') as [<-|]; [|lia].
    rewrite Hc in Hc'. injection Hc' as <-. lia.
  - destruct bMissing; [|rewrite Hfalse in Hc; injection Hc as <-; lia].
    rewrite Hc in HcMissing. injection HcMissing as <-. lia.
Qed.

Lemma GetCountBinsMax_monotone_witness :
  ∃ c c', GetCountBinsMax true 255 = Some c ∧ GetCountBinsMax true 256 = Some c' ∧ c ≤ c'.
Proof.
  destruct (GetCountBinsMax_monotone true 255 256) as (c & c' & _ & Hc & Hc' & _ & _ & _ & Hle & _).
  - lia.
  - unfold INT64_MAX. lia.
  - exists c, c'. split; [exact Hc|]. split; [exact Hc'|exact Hle].
Defined.

(** X14: with missing values the effective maximum is never one of the
    powers of two from 16 on, so that the bins and the bin 0 of the missing
    values together fit the bits the maximum itself fits: for a maximum that
    is at most [2 ^ k] with [k >= 4], the effective maximum is below
    [2 ^ k]. *)
Theorem GetCountBinsMax_below_power countMaximumBins k :
  1 ≤ countMaximumBins ≤ INT64_MAX →
  4 ≤ k → countMaximumBins ≤ 2 ^ k →
  ∃ cMaximumBins,
    GetCountBinsMax true countMaximumBins = Some cMaximumBins
    ∧ cMaximumBins < 2 ^ k
    ∧ ∀ j, 4 ≤ j → cMaximumBins ≠ 2 ^ j.
Proof.
  intros Hrange Hk Hle.
  assert (∀ j, 4 ≤ j → countMaximumBins = 2 ^ j →
               GetCountBinsMax true countMaximumBins = Some (countMaximumBins - 1)) as Hpower.
  { intros j Hj Heq. unfold GetCountBinsMax.
    rewrite (to_size_t_small countMaximumBins) by lia.
    change (to_size_t (Z.shiftr (to_size_t (Z.lnot 0)) 1 + 1)) with (2 ^ (Z.of_nat 59 + 4)).
    change (Z.to_nat size_t_bits) with 64%nat.
    apply GetCountBinsMax_loop_power; [lia|unfold SIZE_MAX, size_t_bits, INT64_MAX in *; lia|].
    exists j. split; [|done]. split; [done|].
    assert (j < 63); [|lia]. apply (Z.pow_lt_mono_r_iff 2); [lia..|].
    unfold INT64_MAX in Hrange. lia. }
  destruct (GetCountBinsMax_Some true countMaximumBins) as [c Hc].
  pose proof (GetCountBinsMax_range _ _ _ Hrange Hc) as Hc_range.
  exists c. split; [done|].
  assert (∀ j, 4 ≤ j → c ≠ 2 ^ j) as Hnot.
  { intros j Hj ->.
    assert (2 ^ j = 2 * 2 ^ (j - 1)) as Hj2.
    { rewrite <- Z.pow_succ_r by lia. f_equal. lia. }
    assert (0 < 2 ^ (j - 1)) by (apply Z.pow_pos_nonneg; lia).
    destruct (Z.eq_dec countMaximumBins (2 ^ j)) as [Heq|Hne].
    - rewrite (Hpower j Hj Heq) in Hc. injection Hc as Hc. lia.
    - assert (countMaximumBins = 2 ^ j + 1) as Heq by lia.
      assert (GetCountBinsMax true countMaximumBins = Some countMaximumBins); [|congruence].
      unfold GetCountBinsMax.
      rewrite (to_size_t_small countMaximumBins) by lia.
      change (to_size_t (Z.shiftr (to_size_t (Z.lnot 0)) 1 + 1)) with (2 ^ (Z.of_nat 59 + 4)).
      change (Z.to_nat size_t_bits) with 64%nat.
      apply GetCountBinsMax_loop_other; [lia|]. intros i Hi Hpow.
      assert (2 ^ i = 2 * 2 ^ (i - 1)) as Hi2.
      { rewrite <- Z.pow_succ_r by lia. f_equal. lia. }
      lia. }
  split; [|done].
  destruct (Z.eq_dec c (2 ^ k)) as [Heq|Hne]; [by destruct (Hnot k Hk)|lia].
Qed.

Lemma GetCountBinsMax_below_power_witness :
  ∃ cMaximumBins, GetCountBinsMax true 256 = Some cMaximumBins ∧ cMaximumBins < 2 ^ 8.
Proof.
  destruct (GetCountBinsMax_below_power 256 8) as (c & Hc & Hlt & _).
  - unfold INT64_MAX. lia.
  - lia.
  - lia.
  - exists c. split; [exact Hc|exact Hlt].
Defined.

(** ** More on the average length *)

(** X15: for fewer than [2 ^ 52] instances and fewer than [2 ^ 53] bins,
    [GetAvgLength] returns the exact ceiling of the quotient, or the minimum
    number of instances per bin when that is larger: the result times the
    number of bins covers the instances, and when it is above the minimum no
    smaller length does. *)
Theorem GetAvgLength_ceiling cInstances cMaximumBins cMinimumInstancesPerBin :
  1 ≤ cInstances < 2 ^ 52 → 1 ≤ cMaximumBins < 2 ^ 53 →
  ∃ avgLength,
    GetAvgLength cInstances cMaximumBins cMinimumInstancesPerBin = Some avgLength
    ∧ avgLength = Z.max cMinimumInstancesPerBin ((cInstances + cMaximumBins - 1) / cMaximumBins)
    ∧ cMinimumInstancesPerBin ≤ avgLength
    ∧ cInstances ≤ avgLength * cMaximumBins
    ∧ (cMinimumInstancesPerBin < avgLength → (avgLength - 1) * cMaximumBins < cInstances).
Proof.
  intros Hn Hb. rewrite GetAvgLength_exact by done.
  eexists. split; [reflexivity|]. unfold avgLength_spec, ceil_div.
  set (q := (cInstances + cMaximumBins - 1) / cMaximumBins).
  assert (cMaximumBins * q ≤ cInstances + cMaximumBins - 1 < cMaximumBins * (q + 1)) as Hq.
  { unfold q. split.
    - apply Z.mul_div_le. lia.
    - rewrite Z.mul_add_distr_l, Z.mul_1_r.
      pose proof (Z.mod_pos_bound (cInstances + cMaximumBins - 1) cMaximumBins ltac:(lia)).
      pose proof (Z.div_mod (cInstances + cMaximumBins - 1) cMaximumBins ltac:(lia)). lia. }
  split_and!; [done|lia|nia|nia].
Qed.

Lemma GetAvgLength_ceiling_witness :
  ∃ avgLength, GetAvgLength 10 4 1 = Some avgLength ∧ avgLength = 3.
Proof.
  destruct (GetAvgLength_ceiling 10 4 1) as (avgLength & Hrun & Heq & _); [lia..|].
  exists avgLength. split; [exact Hrun|exact Heq].
Defined.

(** ** The table of splitting ranges *)

Lemma SFcompare_Eq_trans a b c :
  SFcompare a b = Some Eq → SFcompare c b = Some Eq → SFcompare a c = Some Eq.
Proof.
  destruct a as [sa|sa| |sa ma ea], b as [sb|sb| |sb mb eb], c as [sc|sc| |sc mc ec];
    simpl; intros Hab Hcb; try congruence;
    repeat match goal with s : bool |- _ => destruct s end;
    simpl in *; try congruence; SFcompare_cases.
Qed.

Lemma Float_ne_trans a b c :
  Float_ne a b = false → Float_ne c b = false → Float_ne a c = false.
Proof.
  unfold Float_ne, SFeqb. intros Hab Hcb.
  rewrite (SFcompare_Eq_trans a b c); [done| |].
  - by destruct (SFcompare a b) as [[]|].
  - by destruct (SFcompare c b) as [[]|].
Qed.

Lemma Float_ne_refl a : isnan a = false → Float_ne a a = false.
Proof.
  intros Ha. unfold Float_ne, SFeqb.
  pose proof (Float_le_refl a Ha) as Hle. pose proof (Float_lt_irrefl a) as Hlt.
  unfold Float_le, SFleb, Float_lt, SFltb in *.
  by destruct (SFcompare a a) as [[]|].
Qed.

(** The first scan keeps the values of the current run equal. *)
Lemma CountSplittingRanges_run vals n avgLength cMin :
  Forall (λ v, isnan v = false) (take n vals) →
  ∀ fuel st st',
    (pScan st ≤ n)%nat → run_inv vals st →
    CountSplittingRanges fuel vals n avgLength cMin st = Some st' →
    run_inv vals st'.
Proof.
  intros Hnum. induction fuel as [|fuel IH]; intros st st' Hscan Hrun Hcount.
  - simpl in Hcount. case_decide; [|done]. by injection Hcount as <-.
  - rewrite CountSplittingRanges_unfold in Hcount.
    case_decide as Hend; [by injection Hcount as <-|].
    destruct (vals !! pScan st) as [val|] eqn:Hval; [|done].
    cbn [mbind option_bind] in Hcount.
    assert (isnan val = false) as Hvalnum.
    { rewrite Forall_forall in Hnum. apply Hnum.
      apply (list_elem_of_lookup_2 _ (pScan st)). rewrite lookup_take_lt by lia. done. }
    eapply IH; [| |exact Hcount].
    + destruct (Float_ne val (rangeValue st)); [destruct (avgLength <=? _)|]; simpl; lia.
    + intros j v. destruct (Float_ne val (rangeValue st)) eqn:Hne.
      * assert (∀ (x : ScanState), pStartEqualRange x = pScan st → pScan x = S (pScan st) →
                  rangeValue x = val →
                  (pStartEqualRange x ≤ j < pScan x)%nat → vals !! j = Some v →
                  Float_ne v (rangeValue x) = false) as Hnew.
        { intros x -> -> -> Hj Hv. assert (j = pScan st) as -> by lia.
          rewrite Hval in Hv. injection Hv as <-. by apply Float_ne_refl. }
        destruct (avgLength <=? _); by apply Hnew.
      * simpl. intros Hj Hv. destruct (decide (j = pScan st)) as [->|Hne'].
        -- rewrite Hval in Hv. by injection Hv as <-.
        -- apply (Hrun j v); [lia|done].
Qed.

Lemma CheckForSplitPoint_true vals checkValue pLast :
  ∀ fuel p,
    CheckForSplitPoint fuel vals checkValue p pLast = Some true →
    ∃ q v, (p ≤ q ≤ pLast)%nat ∧ vals !! q = Some v ∧ Float_ne checkValue v = true.
Proof.
  induction fuel as [|fuel IH]; intros p; simpl.
  - by case_decide.
  - case_decide as Hp; [|done].
    destruct (vals !! p) as [val|] eqn:Hval; [|done]. cbn [mbind option_bind].
    destruct (Float_ne checkValue val) eqn:Hne.
    + intros _. exists p, val. split_and!; [lia|lia|done|done].
    + intros (q & v & Hq & Hv & Hqv)%IH. exists q, v. split_and!; [lia|lia|done|done].
Qed.

(** The assignment of the record at [pSplittingRange] extends the assigned
    part of the table by that record. *)
Lemma AssignSplittingRange_table n tst cSplittable cEqualRangeItems advance tst1 :
  fill_inv n tst →
  0 ≤ cSplittable →
  Z.of_nat (t_pSplittableValuesStart tst) + cSplittable ≤ Z.of_nat n →
  1 ≤ cEqualRangeItems →
  AssignSplittingRange tst cSplittable cEqualRangeItems advance = Some tst1 →
  t_rangeValue tst1 = t_rangeValue tst
  ∧ t_pSplittableValuesStart tst1 = t_pSplittableValuesStart tst
  ∧ t_pStartEqualRange tst1 = t_pStartEqualRange tst
  ∧ t_pScan tst1 = t_pScan tst
  ∧ t_pSplittingRange tst1
    = (if advance then S (t_pSplittingRange tst) else t_pSplittingRange tst)
  ∧ t_ppSplittingRange tst1
    = (if advance then S (t_ppSplittingRange tst) else t_ppSplittingRange tst)
  ∧ t_cEqualRangeItemsPrior tst1 = cEqualRangeItems
  ∧ t_cRemainingSplittingRanges tst1 = to_size_t (t_cRemainingSplittingRanges tst - 1)
  ∧ length (t_aSplittingRange tst1) = length (t_aSplittingRange tst)
  ∧ length (t_apSplittingRange tst1) = length (t_apSplittingRange tst)
  ∧ (t_pSplittingRange tst < length (t_aSplittingRange tst))%nat
  ∧ table_ok n (S (t_pSplittingRange tst)) (t_aSplittingRange tst1) (t_apSplittingRange tst1)
  ∧ ∃ r, t_aSplittingRange tst1 !! t_pSplittingRange tst = Some r
         ∧ m_pSplittableValuesStart r = t_pSplittableValuesStart tst
         ∧ m_cSplittableItems r = cSplittable
         ∧ m_cUnsplittableSubsequentItems r = cEqualRangeItems.
Proof.
  intros (H1 & H2 & H3 & Hpp & (Hap & Hrec & Hchain) & Hlink) Hsplittable Hinside Hequal.
  unfold AssignSplittingRange.
  match goal with |- context [store (t_aSplittingRange tst) _ ?x] => set (r := x) end.
  destruct (store (t_aSplittingRange tst) _ r) as [a|] eqn:Ha; [|done].
  cbn [mbind option_bind].
  destruct (store (t_apSplittingRange tst) _ _) as [ap|] eqn:Hstore; [|done].
  cbn [mbind option_bind]. intros [= <-]. simpl.
  apply store_inv in Ha as [Hka ->]. apply store_inv in Hstore as [Hkap ->].
  rewrite Hpp in *. rewrite !length_insert.
  set (k := t_pSplittingRange tst) in *.
  split_and!; try done.
  - split_and!.
    + rewrite (take_S_r _ _ k) by (by apply list_lookup_insert_eq).
      rewrite take_insert_ge by lia. rewrite Hap. by rewrite seq_S.
    + intros i Hi. destruct (decide (i = k)) as [->|Hne].
      * exists r. split; [by apply list_lookup_insert_eq|]. split; [|done].
        unfold SplittingRange_assigned, r. simpl. split_and!; try done.
        intros Hzero. destruct k as [|j]; [done|]. simpl in Hlink. by destruct Hlink.
      * rewrite list_lookup_insert_ne by done. apply Hrec. lia.
    + intros i r1 r2 Hi. destruct (decide (S i = k)) as [Heq|Hne].
      * rewrite list_lookup_insert_ne by lia. rewrite Heq.
        rewrite list_lookup_insert_eq by lia. intros Hr1 [= <-].
        subst k. rewrite <- Heq in Hlink. simpl in Hlink.
        destruct Hlink as (_ & r0 & Hr0 & Hend & Hprior).
        rewrite Hr0 in Hr1. injection Hr1 as <-.
        unfold SplittingRange_chained, r. simpl. split; [lia|done].
      * rewrite !list_lookup_insert_ne by lia. apply Hchain. lia.
  - exists r. split; [by apply list_lookup_insert_eq|]. done.
Qed.

Lemma to_size_t_sub_idemp a b : to_size_t (to_size_t a - b) = to_size_t (a - b).
Proof. unfold to_size_t. apply Zminus_mod_idemp_l. Qed.

(** The second scan keeps the assigned part of the table in order. *)
Lemma FillSplittingRanges_inv vals n cMaximumBins avgLength cMin :
  Z.of_nat n ≤ INT64_MAX →
  ∀ fuel tst tst',
    fill_inv n tst → count_inv cMaximumBins avgLength tst →
    FillSplittingRanges fuel vals n avgLength cMin tst = Some tst' →
    fill_inv n tst' ∧ count_inv cMaximumBins avgLength tst' ∧ t_pScan tst' = n.
Proof.
  intros Hmax. induction fuel as [|fuel IH]; intros tst tst' Hinv Hcinv Hfill.
  - simpl in Hfill. case_decide; [|done]. by injection Hfill as <-.
  - rewrite FillSplittingRanges_unfold in Hfill.
    case_decide as Hend; [by injection Hfill as <-|].
    destruct (vals !! t_pScan tst) as [val|] eqn:Hval; [|done].
    cbn [mbind option_bind] in Hfill.
    pose proof Hinv as (H1 & H2 & H3 & Hpp & Htable & Hlink).
    pose proof Hcinv as (Hremaining & Hstart).
    rewrite !ptr_diff_small in Hfill by lia.
    destruct (Float_ne val (t_rangeValue tst)).
    2:{ cbn [mbind option_bind] in Hfill. apply IH in Hfill; [done| |done].
        unfold fill_inv. simpl. split_and!; try done; lia. }
    destruct (Z.leb_spec avgLength (Z.of_nat (t_pScan tst) - Z.of_nat (t_pStartEqualRange tst)))
      as [Hlong|Hshort].
    2:{ cbn [mbind option_bind] in Hfill. apply IH in Hfill; [done| |done].
        unfold fill_inv. simpl. split_and!; try done; lia. }
    destruct (negb (Nat.eqb 0 (t_pSplittableValuesStart tst))
              || (cMin <=? Z.of_nat (t_pStartEqualRange tst)
                           - Z.of_nat (t_pSplittableValuesStart tst))) eqn:Hcond.
    + destruct (AssignSplittingRange tst _ _ true) as [tst1|] eqn:Hassign; [|done].
      cbn [mbind option_bind] in Hfill.
      destruct (AssignSplittingRange_table n tst
                  (Z.of_nat (t_pStartEqualRange tst) - Z.of_nat (t_pSplittableValuesStart tst))
                  (Z.of_nat (t_pScan tst) - Z.of_nat (t_pStartEqualRange tst))
                  true tst1 Hinv ltac:(lia) ltac:(lia) ltac:(lia) Hassign)
        as (A1 & A2 & A3 & A4 & A5 & A6 & A7 & Aremaining & A8 & A9 & A10 & Atable
            & r & Ar & Ar1 & Ar2 & Ar3).
      apply IH in Hfill; [done| |].
      * unfold fill_inv. simpl. rewrite A4, A5, A6, A7.
        split_and!; try done; try lia.
        exists r. split; [done|]. rewrite Ar1, Ar2, Ar3. lia.
      * unfold count_inv. simpl. rewrite A4, A5, Aremaining, Hremaining.
        rewrite to_size_t_sub_idemp. split; [f_equal; lia|nia].
    + cbn [mbind option_bind] in Hfill.
      apply orb_false_elim in Hcond as [Hzero _].
      apply negb_false_iff, Nat.eqb_eq in Hzero.
      assert (t_pSplittingRange tst = 0%nat) as Hk.
      { destruct (t_pSplittingRange tst); [done|]. destruct Hlink as [Hne _]. lia. }
      apply IH in Hfill; [done| |].
      * unfold fill_inv. simpl. rewrite Hk in *. split_and!; try done; lia.
      * unfold count_inv. simpl. rewrite Hk in *. split; [done|lia].
Qed.

(** The flag of the last range on a table of which all records are
    assigned. *)
Lemma table_ok_complete n c table ap rLast :
  (1 ≤ c)%nat → length table = c → length ap = c →
  table_ok n c table ap →
  table !! (c - 1)%nat = Some rLast →
  table_complete n c
    (<[(c - 1)%nat :=
         {| m_pSplittableValuesStart := m_pSplittableValuesStart rLast;
            m_cSplittableItems := m_cSplittableItems rLast;
            m_cUnsplittablePriorItems := m_cUnsplittablePriorItems rLast;
            m_cUnsplittableSubsequentItems := m_cUnsplittableSubsequentItems rLast;
            m_cUnsplittableEitherSideMax := m_cUnsplittableEitherSideMax rLast;
            m_cUnsplittableEitherSideMin := m_cUnsplittableEitherSideMin rLast;
            m_cSplitsAssigned := m_cSplitsAssigned rLast;
            m_flags := Z.lor (m_flags rLast) k_LastSplittingRange |}]> table) ap.
Proof.
  intros Hc Hlen Hlenap (Hap & Hrec & Hchain) HrLast.
  set (rLast' := Build_SplittingRange _ _ _ _ _ _ _ _).
  assert (∀ i r, <[(c - 1)%nat:=rLast']> table !! i = Some r →
            ∃ r0, table !! i = Some r0
                  ∧ m_pSplittableValuesStart r = m_pSplittableValuesStart r0
                  ∧ m_cSplittableItems r = m_cSplittableItems r0
                  ∧ m_cUnsplittablePriorItems r = m_cUnsplittablePriorItems r0
                  ∧ m_cUnsplittableSubsequentItems r = m_cUnsplittableSubsequentItems r0
                  ∧ m_cUnsplittableEitherSideMax r = m_cUnsplittableEitherSideMax r0
                  ∧ m_cUnsplittableEitherSideMin r = m_cUnsplittableEitherSideMin r0
                  ∧ m_cSplitsAssigned r = m_cSplitsAssigned r0
                  ∧ m_flags r
                    = Z.lor (m_flags r0)
                        (if decide (S i = c) then k_LastSplittingRange else 0)) as Hold.
  { intros i r. destruct (decide (i = c - 1)%nat) as [->|Hne].
    - rewrite list_lookup_insert_eq by lia. intros [= <-]. exists rLast.
      rewrite decide_True by lia. by split_and!.
    - rewrite list_lookup_insert_ne by done. intros Hr. exists r.
      assert (i < c)%nat by (apply lookup_lt_Some in Hr; lia).
      rewrite decide_False by lia. rewrite Z.lor_0_r. by split_and!. }
  split_and!.
  - by rewrite length_insert.
  - rewrite <- Hap. by rewrite take_ge by lia.
  - intros i r Hr. destruct (Hold i r Hr) as (r0 & Hr0 & E1 & E2 & E3 & E4 & E5 & E6 & E7 & E8).
    assert (i < c)%nat as Hi by (apply lookup_lt_Some in Hr0; lia).
    destruct (Hrec i Hi) as (r0' & Hr0' & Hassigned & Hflags).
    rewrite Hr0 in Hr0'. injection Hr0' as <-.
    unfold SplittingRange_assigned, first_flag in *.
    rewrite E1, E2, E3, E4, E5, E6, E7, E8, Hflags. done.
  - intros i r r' Hr Hr'.
    destruct (Hold i r Hr) as (r0 & Hr0 & E1 & E2 & E3 & E4 & _).
    destruct (Hold (S i) r' Hr') as (r0' & Hr0' & E1' & E2' & E3' & E4' & _).
    assert (S i < c)%nat as Hi by (apply lookup_lt_Some in Hr0'; lia).
    pose proof (Hchain i r0 r0' Hi Hr0 Hr0') as Hc0.
    unfold SplittingRange_chained in *. by rewrite E1, E2, E4, E1', E3'.
Qed.

(** The table for the ranges that the first scan has counted. *)
Lemma BuildSplittingRanges_table vals n cMaximumBins avgLength cMin first st c :
  (1 ≤ n)%nat → (n ≤ length vals)%nat → Z.of_nat n ≤ INT64_MAX →
  1 ≤ cMin → cMin ≤ avgLength → 2 * cMin ≤ Z.of_nat n →
  Forall (λ v, isnan v = false) (take n vals) →
  vals !! 0%nat = Some first →
  CountSplittingRanges n vals n avgLength cMin
    {| rangeValue := first; pSplittableValuesStart := 0%nat;
       pStartEqualRange := 0%nat; pScan := 1%nat; cSplittingRanges := 0 |} = Some st →
  DecideSplittingRanges vals n cMin st = Some (Some c) →
  1 ≤ c ≤ Z.of_nat n
  ∧ (c - 1) * avgLength < Z.of_nat n
  ∧ ∃ tst,
      BuildSplittingRanges vals n cMaximumBins avgLength cMin c = Some tst
      ∧ table_complete n (Z.to_nat c) (t_aSplittingRange tst) (t_apSplittingRange tst)
      ∧ t_cRemainingSplittingRanges tst = to_size_t (cMaximumBins - 1 - c).
Proof.
  intros Hpos Hn Hmax Hmin Havg Htwice Hnum Hfirst Hcount Hdecide.
  assert (isnan first = false) as Hfirstnum.
  { rewrite Forall_forall in Hnum. apply Hnum.
    apply (list_elem_of_lookup_2 _ 0). rewrite lookup_take_lt by lia. done. }
  set (st0 := {| rangeValue := first; pSplittableValuesStart := 0%nat;
                 pStartEqualRange := 0%nat; pScan := 1%nat; cSplittingRanges := 0 |}) in *.
  assert (scan_inv n st0) as Hinv0 by (unfold scan_inv; simpl; lia).
  destruct (CountSplittingRanges_spec vals n avgLength cMin Hn Hmax n st0 Hinv0)
    as (st' & Hcount' & Hinv & Hend & _); [simpl; lia|].
  rewrite Hcount in Hcount'. injection Hcount' as <-.
  assert (run_inv vals st) as Hrun.
  { apply (CountSplittingRanges_run vals n avgLength cMin Hnum n st0 st); [simpl; lia| |done].
    intros j v Hj Hv. simpl in *. assert (j = 0%nat) as -> by lia.
    rewrite Hfirst in Hv. injection Hv as <-. by apply Float_ne_refl. }
  destruct (DecideSplittingRanges_spec vals n cMin st Hn Hmax Hmin Htwice Hinv)
    as (c0 & Hdecide' & Hc0).
  rewrite Hdecide in Hdecide'. injection Hdecide' as <-.
  destruct (Hc0 c eq_refl) as [Hc Hcases]. clear Hc0.
  pose proof Hinv as (H1 & H2 & H3 & H4).
  unfold BuildSplittingRanges. rewrite Hfirst. cbn [mbind option_bind].
  match goal with
  | |- context [FillSplittingRanges n vals n avgLength cMin ?t] => set (tst0 := t)
  end.
  destruct (FillSplittingRanges_spec vals n avgLength cMin Hn Hmax n st0 tst0 st)
    as (tst & Hfill & (S1 & S2 & S3 & S4 & S5 & S6) & Hla & Hlap); [done| |simpl; lia|done| | |].
  { unfold scan_sim. simpl. by split_and!. }
  { simpl. rewrite length_replicate. lia. }
  { simpl. by rewrite !length_replicate. }
  simpl in Hla, Hlap. rewrite length_replicate in Hla, Hlap.
  destruct (FillSplittingRanges_inv vals n cMaximumBins avgLength cMin Hmax n tst0 tst)
    as (Hfinv & (Hremaining & Hstart) & _); [| |done|].
  { unfold fill_inv, table_ok. simpl. split_and!; try done; lia. }
  { unfold count_inv. simpl. split; [f_equal; lia|lia]. }
  rewrite S2 in Hstart.
  split; [lia|]. split; [nia|].
  rewrite Hfill. cbn [mbind option_bind]. unfold FinishSplittingRanges.
  rewrite S2, S3. rewrite !ptr_diff_small by lia.
  pose proof Hfinv as (_ & _ & _ & Hpp & Htable & Hlink).
  assert (Hassign : ∀ x y,
            S (t_pSplittingRange tst) = Z.to_nat c →
            0 ≤ x → Z.of_nat (pSplittableValuesStart st) + x ≤ Z.of_nat n → 1 ≤ y →
            ∃ tst2, AssignSplittingRange tst x y false = Some tst2
                    ∧ table_ok n (Z.to_nat c) (t_aSplittingRange tst2) (t_apSplittingRange tst2)
                    ∧ length (t_aSplittingRange tst2) = Z.to_nat c
                    ∧ length (t_apSplittingRange tst2) = Z.to_nat c
                    ∧ t_cRemainingSplittingRanges tst2 = to_size_t (cMaximumBins - 1 - c)).
  { intros x y Hk Hx Hinside Hy.
    destruct (AssignSplittingRange_Some tst x y false) as (tst2 & Hrun2 & _); [lia..|].
    exists tst2. split; [done|].
    destruct (AssignSplittingRange_table n tst x y false tst2 Hfinv Hx
                ltac:(rewrite S2; lia) Hy Hrun2)
      as (_ & _ & _ & _ & _ & _ & _ & Aremaining & A8 & A9 & _ & Atable & _).
    rewrite <- Hk. split_and!; [done|lia|lia|].
    rewrite Aremaining, Hremaining, to_size_t_sub_idemp. f_equal. lia. }
  assert (Hflag : ∀ tst2,
            table_ok n (Z.to_nat c) (t_aSplittingRange tst2) (t_apSplittingRange tst2) →
            length (t_aSplittingRange tst2) = Z.to_nat c →
            length (t_apSplittingRange tst2) = Z.to_nat c →
            t_cRemainingSplittingRanges tst2 = to_size_t (cMaximumBins - 1 - c) →
            ∃ tstF,
              (rLast ← t_aSplittingRange tst2 !! Z.to_nat (c - 1);
               a ← store (t_aSplittingRange tst2) (Z.to_nat (c - 1))
                     {| m_pSplittableValuesStart := m_pSplittableValuesStart rLast;
                        m_cSplittableItems := m_cSplittableItems rLast;
                        m_cUnsplittablePriorItems := m_cUnsplittablePriorItems rLast;
                        m_cUnsplittableSubsequentItems := m_cUnsplittableSubsequentItems rLast;
                        m_cUnsplittableEitherSideMax := m_cUnsplittableEitherSideMax rLast;
                        m_cUnsplittableEitherSideMin := m_cUnsplittableEitherSideMin rLast;
                        m_cSplitsAssigned := m_cSplitsAssigned rLast;
                        m_flags := Z.lor (m_flags rLast) k_LastSplittingRange |};
               Some {| t_rangeValue := t_rangeValue tst2;
                       t_pSplittableValuesStart := t_pSplittableValuesStart tst2;
                       t_pStartEqualRange := t_pStartEqualRange tst2;
                       t_pScan := t_pScan tst2;
                       t_pSplittingRange := t_pSplittingRange tst2;
                       t_ppSplittingRange := t_ppSplittingRange tst2;
                       t_cRemainingSplittingRanges := t_cRemainingSplittingRanges tst2;
                       t_cTotalSplittable := t_cTotalSplittable tst2;
                       t_cEqualRangeItemsPrior := t_cEqualRangeItemsPrior tst2;
                       t_aSplittingRange := a;
                       t_apSplittingRange := t_apSplittingRange tst2 |}) = Some tstF
              ∧ table_complete n (Z.to_nat c) (t_aSplittingRange tstF)
                  (t_apSplittingRange tstF)
              ∧ t_cRemainingSplittingRanges tstF = to_size_t (cMaximumBins - 1 - c)).
  { intros tst2 Htable2 Hlen2 Hlenap2 Hremaining2.
    destruct (lookup_lt_is_Some_2 (t_aSplittingRange tst2) (Z.to_nat (c - 1))) as [r Hr]; [lia|].
    rewrite Hr. cbn [mbind option_bind]. rewrite store_Some by lia.
    cbn [mbind option_bind]. eexists. split; [reflexivity|]. simpl. split; [|done].
    replace (Z.to_nat (c - 1)) with (Z.to_nat c - 1)%nat in * by lia.
    apply table_ok_complete; [lia|done..]. }
  destruct (Z.leb_spec avgLength (Z.of_nat n - Z.of_nat (pStartEqualRange st))) as [Hlong|Hshort].
  - destruct (Nat.eqb_spec 0 (pSplittableValuesStart st)) as [Hzero|Hzero]; cbn [negb orb].
    + destruct (Z.leb_spec cMin (Z.of_nat (pStartEqualRange st)
                                 - Z.of_nat (pSplittableValuesStart st))) as [Hfront|Hfront].
      * destruct (Hassign (Z.of_nat (pStartEqualRange st) - Z.of_nat (pSplittableValuesStart st))
                    (Z.of_nat n - Z.of_nat (pStartEqualRange st)))
          as (tst2 & -> & Htable2 & Hlen2 & Hlenap2 & Hremaining2); [lia..|].
        cbn [mbind option_bind]. by apply Hflag.
      * exfalso. unfold DecideSplittingRanges in Hdecide.
        rewrite <- Hzero in Hdecide. simpl in Hdecide.
        unfold ptr_sub in Hdecide. rewrite !decide_True in Hdecide by lia.
        cbn [mbind option_bind] in Hdecide.
        destruct (vals !! (Z.to_nat cMin - 1)%nat) as [checkValue|] eqn:Hcheck; [|done].
        cbn [mbind option_bind] in Hdecide.
        destruct (CheckForSplitPoint _ _ _ _ _) as [[|]|] eqn:Hfound; [|done..].
        apply CheckForSplitPoint_true in Hfound as (q & v & Hq & Hv & Hqv).
        rewrite (Float_ne_trans checkValue (rangeValue st) v) in Hqv; [done| |].
        -- apply (Hrun (Z.to_nat cMin - 1)%nat); [lia|done].
        -- apply (Hrun q); [lia|done].
    + destruct (Hassign (Z.of_nat (pStartEqualRange st) - Z.of_nat (pSplittableValuesStart st))
                  (Z.of_nat n - Z.of_nat (pStartEqualRange st)))
        as (tst2 & -> & Htable2 & Hlen2 & Hlenap2 & Hremaining2); [lia..|].
      cbn [mbind option_bind]. by apply Hflag.
  - destruct (Z.eqb_spec (Z.of_nat (t_pSplittingRange tst)) c) as [Heq|Hne]; cbn [negb].
    + cbn [mbind option_bind]. apply Hflag; [|lia..|].
      * by replace (Z.to_nat c) with (t_pSplittingRange tst) by lia.
      * rewrite Hremaining. f_equal. lia.
    + destruct (Hassign (Z.of_nat n - Z.of_nat (pSplittableValuesStart st))
                  (Z.of_nat n - Z.of_nat (pStartEqualRange st)))
        as (tst2 & -> & Htable2 & Hlen2 & Hlenap2 & Hremaining2); [lia..|].
      cbn [mbind option_bind]. by apply Hflag.
Qed.

(** X16: the table that [GenerateQuantileCutPoints] builds between [malloc]
    and [free] is filled completely: the second scan assigns exactly as many
    records as the first scan has counted ranges, so that the flag of the
    last range is set on an assigned record and no pointer is left
    unassigned; the records are chained, each range starting behind the
    splittable items and the run of equal values of the range before it. *)
Theorem BuildSplittingRanges_fills_table vals n cMaximumBins avgLength cMin first st c :
  (1 ≤ n)%nat → (n ≤ length vals)%nat → Z.of_nat n ≤ INT64_MAX →
  1 ≤ cMin → cMin ≤ avgLength → 2 * cMin ≤ Z.of_nat n →
  Forall (λ v, isnan v = false) (take n vals) →
  vals !! 0%nat = Some first →
  CountSplittingRanges n vals n avgLength cMin
    {| rangeValue := first; pSplittableValuesStart := 0%nat;
       pStartEqualRange := 0%nat; pScan := 1%nat; cSplittingRanges := 0 |} = Some st →
  DecideSplittingRanges vals n cMin st = Some (Some c) →
  1 ≤ c ≤ Z.of_nat n
  ∧ ∃ tst,
      BuildSplittingRanges vals n cMaximumBins avgLength cMin c = Some tst
      ∧ table_complete n (Z.to_nat c) (t_aSplittingRange tst) (t_apSplittingRange tst).
Proof.
  intros Hpos Hn Hmax Hmin Havg Htwice Hnum Hfirst Hcount Hdecide.
  destruct (BuildSplittingRanges_table vals n cMaximumBins avgLength cMin first st c)
    as (Hc & _ & tst & Hrun & Hcomplete & _); try done.
  split; [done|]. by exists tst.
Qed.

Lemma BuildSplittingRanges_fills_table_witness :
  ∃ tst,
    BuildSplittingRanges (Float_of_size_t <$> [1; 2; 3; 5; 5; 5; 5; 5; 5; 7; 8; 9]) 12 4 3 1 2
    = Some tst
    ∧ table_complete 12 2 (t_aSplittingRange tst) (t_apSplittingRange tst).
Proof.
  destruct (BuildSplittingRanges_fills_table
              (Float_of_size_t <$> [1; 2; 3; 5; 5; 5; 5; 5; 5; 7; 8; 9]) 12 4 3 1
              (Float_of_size_t 1)
              {| rangeValue := Float_of_size_t 9; pSplittableValuesStart := 9%nat;
                 pStartEqualRange := 11%nat; pScan := 12%nat; cSplittingRanges := 1 |} 2)
    as (_ & tst & Hrun & Hcomplete).
  - lia.
  - simpl. lia.
  - unfold INT64_MAX. lia.
  - lia.
  - lia.
  - lia.
  - vm_compute. by repeat constructor.
  - reflexivity.
  - vm_compute. reflexivity.
  - vm_compute. reflexivity.
  - exists tst. split; [exact Hrun|exact Hcomplete].
Defined.

(** X17: there are never more splitting ranges than [cMaximumBins], for an
    average length that times [cMaximumBins] covers the values, but there can
    be as many: the counter [cRemainingSplittingRanges], which starts at
    [cMaximumBins - 1] and of which the source asserts that it is at least 1
    whenever a record is assigned, ends at [cMaximumBins - 1] less the number
    of ranges, and has wrapped around to [SIZE_MAX] when there are
    [cMaximumBins] ranges. *)
Theorem BuildSplittingRanges_remaining vals n cMaximumBins avgLength cMin first st c :
  (1 ≤ n)%nat → (n ≤ length vals)%nat → Z.of_nat n ≤ INT64_MAX →
  1 ≤ cMin → cMin ≤ avgLength → 2 * cMin ≤ Z.of_nat n →
  1 ≤ cMaximumBins ≤ INT64_MAX → Z.of_nat n ≤ avgLength * cMaximumBins →
  Forall (λ v, isnan v = false) (take n vals) →
  vals !! 0%nat = Some first →
  CountSplittingRanges n vals n avgLength cMin
    {| rangeValue := first; pSplittableValuesStart := 0%nat;
       pStartEqualRange := 0%nat; pScan := 1%nat; cSplittingRanges := 0 |} = Some st →
  DecideSplittingRanges vals n cMin st = Some (Some c) →
  1 ≤ c ≤ cMaximumBins
  ∧ ∃ tst,
      BuildSplittingRanges vals n cMaximumBins avgLength cMin c = Some tst
      ∧ t_cRemainingSplittingRanges tst
        = (if c <? cMaximumBins then cMaximumBins - 1 - c else SIZE_MAX).
Proof.
  intros Hpos Hn Hmax Hmin Havg Htwice Hbins Hcover Hnum Hfirst Hcount Hdecide.
  destruct (BuildSplittingRanges_table vals n cMaximumBins avgLength cMin first st c)
    as (Hc & Hlt & tst & Hrun & _ & Hremaining); try done.
  assert (c ≤ cMaximumBins) as Hle by nia.
  split; [lia|]. exists tst. split; [done|]. rewrite Hremaining.
  unfold to_size_t, SIZE_MAX, size_t_bits, INT64_MAX in *.
  destruct (Z.ltb_spec c cMaximumBins).
  - rewrite Z.mod_small; lia.
  - replace (cMaximumBins - 1 - c) with (-1) by lia. reflexivity.
Qed.

Lemma BuildSplittingRanges_remaining_witness :
  ∃ tst,
    BuildSplittingRanges (Float_of_size_t <$> [1; 2; 2; 3]) 4 2 2 1 2 = Some tst
    ∧ t_cRemainingSplittingRanges tst = SIZE_MAX.
Proof.
  destruct (BuildSplittingRanges_remaining (Float_of_size_t <$> [1; 2; 2; 3]) 4 2 2 1
              (Float_of_size_t 1)
              {| rangeValue := Float_of_size_t 3; pSplittableValuesStart := 3%nat;
                 pStartEqualRange := 3%nat; pScan := 4%nat; cSplittingRanges := 1 |} 2)
    as (_ & tst & Hrun & Hremaining).
  - lia.
  - simpl. lia.
  - unfold INT64_MAX. lia.
  - lia.
  - lia.
  - lia.
  - unfold INT64_MAX. lia.
  - lia.
  - vm_compute. by repeat constructor.
  - reflexivity.
  - vm_compute. reflexivity.
  - vm_compute. reflexivity.
  - exists tst. split; [exact Hrun|exact Hremaining].
Defined.

(** ** Calls that cannot have a cut point *)

(** X18: with at most one bin, or with fewer numbers among the values than
    twice the minimum number of instances per bin, [GenerateQuantileCutPoints]
    returns the status 0 whatever the random stream and the allocation would
    do: it leaves before it constructs the one or asks for the other. *)
Theorem GenerateQuantileCutPoints_too_few env randomSeed countInstances countMaximumBins
    countMinimumInstancesPerBin mem :
  1 ≤ countInstances ≤ INT64_MAX →
  Z.of_nat (length (singleFeatureValues mem)) = countInstances →
  0 ≤ countMaximumBins ≤ INT64_MAX →
  0 ≤ countMinimumInstancesPerBin ≤ INT64_MAX →
  countMaximumBins ≤ 1
  ∨ Z.of_nat (length (nonmissing (singleFeatureValues mem)))
    < 2 * Z.max 1 countMinimumInstancesPerBin →
  ∃ mem',
    GenerateQuantileCutPoints env randomSeed countInstances countMaximumBins
      countMinimumInstancesPerBin mem = Some (0, mem').
Proof.
  intros Hn Hlen Hbins Hmin Hfew. unfold GenerateQuantileCutPoints.
  rewrite !IsNumberConvertable_size_t_true by lia. cbn [negb].
  rewrite (to_size_t_small countInstances) by lia.
  destruct (Z.eqb_spec 0 countInstances) as [|Hnz]; [by eexists|].
  destruct (RemoveMissingValues_spec (singleFeatureValues mem) (Z.to_nat countInstances))
    as (filtered & Hrun & Hlen' & _); [lia..|].
  rewrite take_ge in Hrun by lia. rewrite Hrun. cbn [mbind option_bind].
  set (n := length (nonmissing (singleFeatureValues mem))) in *.
  assert (Hle : (n ≤ length (singleFeatureValues mem))%nat) by apply length_filter.
  rewrite ptr_diff_small by lia. rewrite Z.sub_0_r.
  destruct (Z.eqb_spec 0 (Z.of_nat n)) as [|Hpos]; [by eexists|].
  unfold CutSortedValues.
  set (vals := std_sort_range Float_lt filtered n).
  assert (Hvals : length vals = length (singleFeatureValues mem)).
  { unfold vals. by rewrite std_sort_range_length. }
  destruct (lookup_lt_is_Some_2 vals 0) as [first Hfirst]; [lia|].
  rewrite Hfirst. cbn [mbind option_bind].
  unfold ptr_sub. rewrite decide_True by lia. cbn [mbind option_bind].
  destruct (lookup_lt_is_Some_2 vals (n - 1)) as [last Hlast]; [lia|].
  rewrite Hlast. cbn [mbind option_bind].
  destruct (Z.leb_spec countMaximumBins 1) as [|Htwo]; [by eexists|].
  destruct Hfew as [|Hfew]; [lia|].
  set (cMin := if countMinimumInstancesPerBin <=? 0 then 1 else countMinimumInstancesPerBin) in *.
  assert (HcMin : cMin = Z.max 1 countMinimumInstancesPerBin).
  { unfold cMin. destruct (Z.leb_spec countMinimumInstancesPerBin 0); lia. }
  replace (if countMinimumInstancesPerBin <=? 0 then 1
           else to_size_t countMinimumInstancesPerBin) with cMin.
  2:{ unfold cMin. destruct (countMinimumInstancesPerBin <=? 0); [done|].
      by rewrite to_size_t_small by lia. }
  assert (Hshift : to_size_t (Z.shiftl cMin 1) = 2 * cMin).
  { rewrite Z.shiftl_mul_pow2 by lia. change (2 ^ 1) with 2.
    unfold to_size_t, size_t_bits. unfold INT64_MAX in *.
    rewrite Z.mod_small; lia. }
  rewrite Hshift.
  destruct (Z.ltb_spec (Z.of_nat n) (2 * cMin)) as [|Htwice]; [by eexists|]. lia.
Qed.

Lemma GenerateQuantileCutPoints_too_few_witness :
  ∃ mem', GenerateQuantileCutPoints env_no_memory 0 4 2 3 (memory_1234 7) = Some (0, mem').
Proof.
  apply GenerateQuantileCutPoints_too_few.
  - unfold INT64_MAX. lia.
  - reflexivity.
  - unfold INT64_MAX. lia.
  - unfold INT64_MAX. lia.
  - right. vm_compute. reflexivity.
Defined.

(** The first scan over values that are all equal moves [pScan] only. *)
Lemma CountSplittingRanges_equal vals n avgLength cMin :
  (n ≤ length vals)%nat →
  ∀ fuel st,
    (∀ j v, (j < n)%nat → vals !! j = Some v → Float_ne v (rangeValue st) = false) →
    (pScan st ≤ n)%nat → (n - pScan st ≤ fuel)%nat →
    CountSplittingRanges fuel vals n avgLength cMin st
    = Some {| rangeValue := rangeValue st;
              pSplittableValuesStart := pSplittableValuesStart st;
              pStartEqualRange := pStartEqualRange st; pScan := n;
              cSplittingRanges := cSplittingRanges st |}.
Proof.
  intros Hn. induction fuel as [|fuel IH]; intros st Hequal Hscan Hfuel.
  - simpl. rewrite decide_True by lia. destruct st. simpl in *. do 2 f_equal. lia.
  - rewrite CountSplittingRanges_unfold. case_decide as Hend.
    { destruct st. simpl in *. by subst. }
    destruct (lookup_lt_is_Some_2 vals (pScan st)) as [val Hval]; [lia|].
    rewrite Hval. cbn [mbind option_bind].
    rewrite (Hequal (pScan st) val) by (done || lia).
    rewrite IH; [done| |simpl; lia..]. done.
Qed.

Lemma CheckForSplitPoint_false vals checkValue pLast :
  (pLast < length vals)%nat →
  (∀ j v, (j ≤ pLast)%nat → vals !! j = Some v → Float_ne checkValue v = false) →
  ∀ fuel p, (S pLast - p ≤ fuel)%nat →
    CheckForSplitPoint fuel vals checkValue p pLast = Some false.
Proof.
  intros Hlast Hequal. induction fuel as [|fuel IH]; intros p Hfuel; simpl.
  - by rewrite decide_False by lia.
  - case_decide as Hp; [|done].
    destruct (lookup_lt_is_Some_2 vals p) as [val Hval]; [lia|].
    rewrite Hval. cbn [mbind option_bind]. rewrite (Hequal p val) by done.
    apply IH. lia.
Qed.

(** X19: on values of which all numbers are equal,
    [GenerateQuantileCutPoints] returns the status 0 whatever the random
    stream and the allocation would do: there is no place for a cut, and the
    call leaves before it constructs the one or asks for the other. *)
Theorem GenerateQuantileCutPoints_single_value env randomSeed countInstances countMaximumBins
    countMinimumInstancesPerBin mem x :
  1 ≤ countInstances < 2 ^ 52 →
  Z.of_nat (length (singleFeatureValues mem)) = countInstances →
  0 ≤ countMaximumBins < 2 ^ 53 →
  0 ≤ countMinimumInstancesPerBin ≤ INT64_MAX →
  (∀ v, v ∈ singleFeatureValues mem → isnan v = false → Float_ne v x = false) →
  ∃ mem',
    GenerateQuantileCutPoints env randomSeed countInstances countMaximumBins
      countMinimumInstancesPerBin mem = Some (0, mem').
Proof.
  intros Hn Hlen Hbins Hmin Hsame. unfold GenerateQuantileCutPoints.
  assert (2 ^ 53 < INT64_MAX) as Hint by (unfold INT64_MAX; lia).
  assert (2 ^ 52 < 2 ^ 53) as Hpow by lia.
  rewrite !IsNumberConvertable_size_t_true by lia. cbn [negb].
  rewrite (to_size_t_small countInstances) by lia.
  destruct (Z.eqb_spec 0 countInstances) as [|Hnz]; [by eexists|].
  destruct (RemoveMissingValues_spec (singleFeatureValues mem) (Z.to_nat countInstances))
    as (filtered & Hrun & Hlen' & Htake & _); [lia..|].
  rewrite (take_ge (singleFeatureValues mem)) in Hrun, Htake by lia.
  rewrite Hrun. cbn [mbind option_bind].
  set (n := length (nonmissing (singleFeatureValues mem))) in *.
  assert (Hle : (n ≤ length (singleFeatureValues mem))%nat) by apply length_filter.
  rewrite ptr_diff_small by lia. rewrite Z.sub_0_r.
  destruct (Z.eqb_spec 0 (Z.of_nat n)) as [|Hpos]; [by eexists|].
  unfold CutSortedValues.
  set (vals := std_sort_range Float_lt filtered n).
  assert (Hvals : length vals = length (singleFeatureValues mem)).
  { unfold vals. by rewrite std_sort_range_length. }
  assert (∀ j v, (j < n)%nat → vals !! j = Some v → isnan v = false ∧ Float_ne v x = false)
    as Hsorted.
  { intros j v Hj Hv.
    assert (v ∈ nonmissing (singleFeatureValues mem)) as Hin.
    { rewrite <- (std_sort_Permutation Float_lt). rewrite <- Htake.
      apply (list_elem_of_lookup_2 _ j). unfold vals, std_sort_range in Hv.
      rewrite lookup_app_l in Hv by (rewrite std_sort_length, length_take; lia). done. }
    unfold nonmissing in Hin. apply list_elem_of_filter in Hin as [Hvnum Hin]. auto. }
  destruct (lookup_lt_is_Some_2 vals 0) as [first Hfirst]; [lia|].
  rewrite Hfirst. cbn [mbind option_bind].
  unfold ptr_sub. rewrite decide_True by lia. cbn [mbind option_bind].
  destruct (lookup_lt_is_Some_2 vals (n - 1)) as [last Hlast]; [lia|].
  rewrite Hlast. cbn [mbind option_bind].
  destruct (Z.leb_spec countMaximumBins 1) as [|Htwo]; [by eexists|].
  set (cMin := if countMinimumInstancesPerBin <=? 0 then 1 else countMinimumInstancesPerBin) in *.
  assert (HcMin : 1 ≤ cMin ≤ INT64_MAX).
  { unfold cMin. destruct (Z.leb_spec countMinimumInstancesPerBin 0); unfold INT64_MAX in *; lia. }
  replace (if countMinimumInstancesPerBin <=? 0 then 1
           else to_size_t countMinimumInstancesPerBin) with cMin.
  2:{ unfold cMin. destruct (countMinimumInstancesPerBin <=? 0); [done|].
      by rewrite to_size_t_small by lia. }
  assert (Hshift : to_size_t (Z.shiftl cMin 1) = 2 * cMin).
  { rewrite Z.shiftl_mul_pow2 by lia. change (2 ^ 1) with 2.
    unfold to_size_t, size_t_bits. unfold INT64_MAX in HcMin.
    rewrite Z.mod_small; lia. }
  rewrite Hshift.
  destruct (Z.ltb_spec (Z.of_nat n) (2 * cMin)) as [|Htwice]; [by eexists|].
  destruct (GetCountBinsMax_Some
              (negb (Nat.eqb (Z.to_nat countInstances) n)) countMaximumBins)
    as [cMaximumBins HcMax].
  rewrite HcMax. cbn [mbind option_bind].
  assert (1 ≤ countMaximumBins ≤ INT64_MAX) as Hbins' by lia.
  pose proof (GetCountBinsMax_range _ countMaximumBins cMaximumBins Hbins' HcMax) as HcRange.
  rewrite GetAvgLength_exact by lia. cbn [mbind option_bind].
  assert (∀ j v w, (j < n)%nat → vals !! j = Some v → (∃ i, (i < n)%nat ∧ vals !! i = Some w) →
            Float_ne w v = false) as Hequal.
  { intros j v w Hj Hv (i & Hi & Hw).
    destruct (Hsorted j v Hj Hv) as [_ Hvx]. destruct (Hsorted i w Hi Hw) as [_ Hwx].
    by apply (Float_ne_trans w x v). }
  rewrite CountSplittingRanges_equal; [|lia| |simpl; lia..].
  2:{ simpl. intros j v Hj Hv. apply (Hequal 0%nat first v); [lia|done|]. by exists j. }
  cbn [mbind option_bind]. unfold DecideSplittingRanges. simpl.
  unfold ptr_sub. rewrite !decide_True by lia. cbn [mbind option_bind].
  destruct (lookup_lt_is_Some_2 vals (Z.to_nat cMin - 1)) as [checkValue Hcheck]; [lia|].
  rewrite Hcheck. cbn [mbind option_bind].
  rewrite CheckForSplitPoint_false; [by eexists|lia| |lia].
  intros j v Hj Hv. apply (Hequal j v checkValue); [lia|done|].
  exists (Z.to_nat cMin - 1)%nat. split; [lia|done].
Qed.

Lemma GenerateQuantileCutPoints_single_value_witness :
  ∃ mem',
    GenerateQuantileCutPoints env_no_memory 0 4 2 1
      (Build_Memory [Float_of_size_t 5; S754_nan; Float_of_size_t 5; Float_of_size_t 5] []
         7 7 S754_nan S754_nan)
    = Some (0, mem').
Proof.
  apply (GenerateQuantileCutPoints_single_value env_no_memory 0 4 2 1 _ (Float_of_size_t 5)).
  - lia.
  - reflexivity.
  - lia.
  - unfold INT64_MAX. lia.
  - intros v Hv Hnum. simpl in Hv.
    repeat (apply elem_of_cons in Hv as [->|Hv]; [by vm_compute in Hnum || by vm_compute|]).
    by apply elem_of_nil in Hv.
Defined.

(** ** What a successful call depends on *)

(** X20: the memory that a call of [GenerateQuantileCutPoints] with the
    status 0 leaves depends on the values and their number only: the seed,
    the maximum number of bins, the minimum number of instances per bin, the
    random stream, the allocation and the previous contents of the output
    parameters have no effect on it. *)
Theorem GenerateQuantileCutPoints_parameters_irrelevant env1 env2 randomSeed1 randomSeed2
    countInstances countMaximumBins1 countMaximumBins2
    countMinimumInstancesPerBin1 countMinimumInstancesPerBin2 values cuts
    c1 m1 mn1 mx1 c2 m2 mn2 mx2 r1 r2 :
  GenerateQuantileCutPoints env1 randomSeed1 countInstances countMaximumBins1
    countMinimumInstancesPerBin1 (Build_Memory values cuts c1 m1 mn1 mx1) = Some (0, r1) →
  GenerateQuantileCutPoints env2 randomSeed2 countInstances countMaximumBins2
    countMinimumInstancesPerBin2 (Build_Memory values cuts c2 m2 mn2 mx2) = Some (0, r2) →
  r1 = r2.
Proof.
  destruct (GenerateQuantileCutPoints_outcome env1 randomSeed1 countInstances countMaximumBins1
              countMinimumInstancesPerBin1 values) as (o1 & Hsound1 & _ & Hrun1).
  destruct (GenerateQuantileCutPoints_outcome env2 randomSeed2 countInstances countMaximumBins2
              countMinimumInstancesPerBin2 values) as (o2 & Hsound2 & _ & Hrun2).
  rewrite Hrun1, Hrun2.
  destruct o1 as [| |f1 v1 a1 b1|f1 v1 a1 b1]; simpl; intros [=]; subst.
  destruct o2 as [| |f2 v2 a2 b2|f2 v2 a2 b2]; simpl; intros [=]; subst.
  simpl in Hsound1, Hsound2.
  by destruct (outcome_values_functional _ _ _ _ _ _ _ _ _ _ Hsound1 Hsound2)
    as (-> & -> & -> & ->).
Qed.

Lemma GenerateQuantileCutPoints_parameters_irrelevant_witness :
  ∃ r,
    GenerateQuantileCutPoints env_ok 0 4 2 1 (memory_1234 7) = Some (0, r)
    ∧ GenerateQuantileCutPoints env_no_memory 5 4 100 3 (memory_1234 8) = Some (0, r).
Proof.
  assert (∃ r1, GenerateQuantileCutPoints env_ok 0 4 2 1 (memory_1234 7) = Some (0, r1))
    as [r1 Hr1] by (eexists; vm_compute; reflexivity).
  assert (∃ r2, GenerateQuantileCutPoints env_no_memory 5 4 100 3 (memory_1234 8)
                = Some (0, r2))
    as [r2 Hr2] by (eexists; vm_compute; reflexivity).
  exists r1. split; [exact Hr1|].
  rewrite (GenerateQuantileCutPoints_parameters_irrelevant env_ok env_no_memory 0 5 4 2 100 1 3
             (map Float_of_size_t [1; 2; 3; 4]) [Float_zero] 7 5 S754_nan S754_nan
             8 5 S754_nan S754_nan r1 r2 Hr1 Hr2).
  exact Hr2.
Defined.

(** * The boundary scenarios of the specification on the code *)

(** A hundred equal values and at most four bins: no cut point. *)
Example GenerateQuantileCutPoints_identical_values :
  ∃ mem', GenerateQuantileCutPoints env_ok 0 100 4 1
            (Build_Memory (replicate 100 (Float_of_size_t 5)) [] 7 7 S754_nan S754_nan)
          = Some (0, mem')
          ∧ countCutPoints mem' = 0 ∧ isMissing mem' = EBM_FALSE
          ∧ minValue mem' = Float_of_size_t 5 ∧ maxValue mem' = Float_of_size_t 5.
Proof. eexists. split; [vm_compute; reflexivity|]. by vm_compute. Qed.

(** The values 1 to 100 and at most four bins: the table of splitting ranges
    is built, and the call returns the status 0 with no cut point. *)
Example GenerateQuantileCutPoints_one_to_hundred :
  ∃ mem', GenerateQuantileCutPoints env_ok 0 100 4 1
            (Build_Memory (Float_of_size_t ∘ Z.of_nat <$> seq 1 100) [] 7 7 S754_nan S754_nan)
          = Some (0, mem')
          ∧ countCutPoints mem' = 0 ∧ isMissing mem' = EBM_FALSE
          ∧ minValue mem' = Float_of_size_t 1 ∧ maxValue mem' = Float_of_size_t 100.
Proof. eexists. split; [vm_compute; reflexivity|]. by vm_compute. Qed.

(** A run of equal values in the middle that is longer than the average
    length: the table has the two splitting ranges in front of and behind the
    run. *)
Example BuildSplittingRanges_two_ranges :
  ∃ st, BuildSplittingRanges (Float_of_size_t <$> [1; 2; 3; 5; 5; 5; 5; 5; 5; 7; 8; 9])
          12 4 3 1 2 = Some st
        ∧ m_cSplittableItems <$> t_aSplittingRange st = [3; 3]
        ∧ m_pSplittableValuesStart <$> t_aSplittingRange st = [0; 9]%nat
        ∧ m_cUnsplittablePriorItems <$> t_aSplittingRange st = [0; 6]
        ∧ m_cUnsplittableSubsequentItems <$> t_aSplittingRange st = [6; 1]
        ∧ m_flags <$> t_aSplittingRange st = [1; 2]
        ∧ t_apSplittingRange st = [0; 1]%nat.
Proof. eexists. split; [vm_compute; reflexivity|]. by vm_compute. Qed.

(** The average length for a hundred values and four bins. *)
Example GetAvgLength_hundred : GetAvgLength 100 4 1 = Some 25.
Proof. vm_compute. reflexivity. Qed.
